(** * The particle simulation engine of liamegan/playground (Cells)

    A shallow embedding of the tick-driven particle engine: [Vector3],
    [BoundingBox], [Particle], [Spring], [TagIndex], [SpatialGrid] and
    [ParticleSystem], followed by the properties of the engine's
    specification that can be settled on it.

    Conventions of the embedding.
    - JavaScript numbers are rationals ([Q]); [Math.floor] is [Qfloor] and
      [Math.ceil] is [Qceiling].  There is no NaN and no infinity in this
      model: a division by zero yields [0], as [Qdiv] does.
    - Objects have identity.  A particle is a [PId], a spring is a [SId];
      their mutable fields live in a [Heap] that every method reads and
      updates.  Arrays of objects are lists of identifiers, so aliasing is
      what it is in the source: the same particle sits in the grid's flat
      list, in a cell and in the global index.
    - A method that can throw returns a [result].  A throw ends the
      computation: the state that the exception leaves behind is not part
      of the result.
    - Callbacks registered by the user (behaviours and interactions) are
      functions on the [Heap]: they may read and write any particle or
      spring, but they do not reach the containers of the system. *)

From Stdlib Require Import QArith Qround Qabs Lqa.
From stdpp Require Import gmap strings list functions.

Local Open Scope Z_scope.

(** ** Exceptions *)

Inductive Error : Type :=
| TypeError     (* raised by the runtime: reduce of an empty array, a
                   property read on undefined, a call of a missing method *)
| OutOfBounds.  (* thrown by SpatialGrid.addParticle *)

Inductive result (A : Type) : Type :=
| Ok (a : A)
| Throw (e : Error).
Arguments Ok {A} a.
Arguments Throw {A} e.

#[global] Instance result_ret : MRet result := fun _ a => Ok a.
#[global] Instance result_bind : MBind result := fun _ _ f r =>
  match r with
  | Ok a => f a
  | Throw e => Throw e
  end.

(** [arr.forEach(f)] where [f] can throw and threads a state. *)
Fixpoint forEachM {A S : Type} (f : A → S → result S) (l : list A) (s : S)
  : result S :=
  match l with
  | [] => Ok s
  | a :: l' => s' ← f a s; forEachM f l' s'
  end.

(** [arr.forEach(f)] for a callback that cannot throw. *)
Definition forEach {A S : Type} (f : A → S → S) (l : list A) (s : S) : S :=
  fold_left (fun s a => f a s) l s.

(** ** Arrays of objects *)

Definition PId := nat.
Definition SId := nat.
Definition Tag := string.

(** [arr.indexOf(x)]: the first index of [x], or [-1]. *)
Fixpoint indexOf (x : nat) (l : list nat) : Z :=
  match l with
  | [] => -1
  | y :: l' =>
      if decide (x = y) then 0
      else let r := indexOf x l' in if r <? 0 then -1 else r + 1
  end.

(** [const i = arr.indexOf(x); if (i >= 0) arr.splice(i, 1);] *)
Definition spliceOut (x : nat) (l : list nat) : list nat :=
  let i := indexOf x l in
  if 0 <=? i then delete (Z.to_nat i) l else l.

(** [arr.includes(x)] *)
Definition includes (x : nat) (l : list nat) : bool := bool_decide (x ∈ l).

(** [arr[i]] for a number [i]: [undefined] when out of range. *)
Definition nth_Z {A : Type} (l : list A) (i : Z) : option A :=
  if i <? 0 then None else l !! Z.to_nat i.

(** ** Numbers *)

(** [Math.sqrt] is the one primitive the rationals do not have.  The
    development is parametric in it; nothing proved below depends on what it
    returns. *)
Class MathSqrt := Math_sqrt : Q → Q.

(** ** Vector3 *)

Module Vector3.

Record t : Type := mk { x : Q; y : Q; z : Q }.

Definition zero : t := mk 0 0 0.

Definition copy (v : t) : t := mk (x v) (y v) (z v).

(** Modelled from the spec: Vector3.js is not under src/.  The methods
    Particle and Spring call on it ([addVector], [sub], [mult], [div],
    [magnitude], [normalize], [limit]) are the component-wise operations
    the specification describes: "adds to the force accumulator",
    "divides by mass", "the vector difference between endpoint positions,
    magnitude d", "normalizes the difference vector and scales by that
    magnitude", "clamps the accumulated force vector's magnitude to the
    cap". *)
Definition addVector (v w : t) : t :=
  mk (x v + x w)%Q (y v + y w)%Q (z v + z w)%Q.

Definition sub (v w : t) : t :=
  mk (x v - x w)%Q (y v - y w)%Q (z v - z w)%Q.

Definition mult (v : t) (s : Q) : t :=
  mk (x v * s)%Q (y v * s)%Q (z v * s)%Q.

Definition div (v : t) (s : Q) : t :=
  mk (x v / s)%Q (y v / s)%Q (z v / s)%Q.

Definition magnitude `{MathSqrt} (v : t) : Q :=
  Math_sqrt (x v * x v + y v * y v + z v * z v)%Q.

Definition normalize `{MathSqrt} (v : t) : t := div v (magnitude v).

Definition setMag `{MathSqrt} (v : t) (m : Q) : t := mult (normalize v) m.

(** [limit(max)]: [if (length > max) this.length = max]. *)
Definition limit `{MathSqrt} (v : t) (max : Q) : t :=
  if Qlt_le_dec max (magnitude v) then setMag v max else v.

End Vector3.

(** ** BoundingBox *)

Module BoundingBox.

Record t : Type := mk {
  topBackLeft : Vector3.t;
  bottomFrontRight : Vector3.t
}.

(** [constructor(width, height, depth = 0)] *)
Definition new (width height depth : Q) : t :=
  mk (Vector3.mk 0 0 0) (Vector3.mk width height depth).

Definition contains (b : t) (x y z : Q) : bool :=
  Qle_bool (Vector3.x (topBackLeft b)) x &&
  Qle_bool (Vector3.y (topBackLeft b)) y &&
  Qle_bool (Vector3.z (topBackLeft b)) z &&
  Qle_bool x (Vector3.x (bottomFrontRight b)) &&
  Qle_bool y (Vector3.y (bottomFrontRight b)) &&
  Qle_bool z (Vector3.z (bottomFrontRight b)).

Definition containsVector (b : t) (v : Vector3.t) : bool :=
  contains b (Vector3.x v) (Vector3.y v) (Vector3.z v).

Definition getWidth (b : t) : Q :=
  (Vector3.x (bottomFrontRight b) - Vector3.x (topBackLeft b))%Q.

Definition getHeight (b : t) : Q :=
  (Vector3.y (bottomFrontRight b) - Vector3.y (topBackLeft b))%Q.

Definition Qmax (a b : Q) : Q := if Qlt_le_dec a b then b else a.
Definition Qmin (a b : Q) : Q := if Qlt_le_dec b a then b else a.

(** [constrained(v)]: the vector clamped into the box. *)
Definition constrained (b : t) (v : Vector3.t) : Vector3.t :=
  Vector3.mk
    (Qmax (Vector3.x (topBackLeft b))
          (Qmin (Vector3.x (bottomFrontRight b)) (Vector3.x v)))
    (Qmax (Vector3.y (topBackLeft b))
          (Qmin (Vector3.y (bottomFrontRight b)) (Vector3.y v)))
    (Qmax (Vector3.z (topBackLeft b))
          (Qmin (Vector3.z (bottomFrontRight b)) (Vector3.z v))).

Definition getDepth (b : t) : Q :=
  (Vector3.z (bottomFrontRight b) - Vector3.z (topBackLeft b))%Q.

(** [getCenter()] *)
Definition getCenter (b : t) : Vector3.t :=
  Vector3.mk (Vector3.x (topBackLeft b) + getWidth b / 2)%Q
             (Vector3.y (topBackLeft b) + getHeight b / 2)%Q
             (Vector3.z (topBackLeft b) + getDepth b / 2)%Q.

(** [area()] *)
Definition area (b : t) : Q := (getWidth b * getHeight b)%Q.

(** [getRandomPointInside(dim = 2)].  [r1], [r2] and [r3] are the results
    of the calls to [rand()], in the order of the calls; the third call is
    made only when [dim === 3]. *)
Definition getRandomPointInside (b : t) (dim : Z) (r1 r2 r3 : Q)
  : Vector3.t :=
  Vector3.mk (r1 * getWidth b + Vector3.x (topBackLeft b))%Q
             (r2 * getHeight b + Vector3.y (topBackLeft b))%Q
             (if decide (dim = 3)
              then (r3 * getDepth b + Vector3.z (topBackLeft b))%Q
              else 0%Q).

End BoundingBox.

(** ** Particle *)

Module Particle.

Record t : Type := mk {
  position : Vector3.t;
  velocity : Vector3.t;
  forces : Vector3.t;
  life : nat;
  removeFlag : bool;
  mass : Q;
  connections : list SId;
  staticBody : bool;
  tags : list Tag;          (* a Set: insertion order, no duplicates *)
  system : bool;            (* whether [this.system] is set *)
  lastPosition : option Vector3.t
}.

(** [constructor(position, system)] *)
Definition new (pos : Vector3.t) (sys : bool) : t :=
  mk (Vector3.copy pos) Vector3.zero Vector3.zero 0%nat false 1 [] false []
     sys None.

Definition set_position (v : Vector3.t) (p : t) : t :=
  mk v (velocity p) (forces p) (life p) (removeFlag p) (mass p)
     (connections p) (staticBody p) (tags p) (system p) (lastPosition p).

Definition set_velocity (v : Vector3.t) (p : t) : t :=
  mk (position p) v (forces p) (life p) (removeFlag p) (mass p)
     (connections p) (staticBody p) (tags p) (system p) (lastPosition p).

Definition set_forces (v : Vector3.t) (p : t) : t :=
  mk (position p) (velocity p) v (life p) (removeFlag p) (mass p)
     (connections p) (staticBody p) (tags p) (system p) (lastPosition p).

Definition set_life (n : nat) (p : t) : t :=
  mk (position p) (velocity p) (forces p) n (removeFlag p) (mass p)
     (connections p) (staticBody p) (tags p) (system p) (lastPosition p).

Definition set_connections (c : list SId) (p : t) : t :=
  mk (position p) (velocity p) (forces p) (life p) (removeFlag p) (mass p)
     c (staticBody p) (tags p) (system p) (lastPosition p).

Definition set_tags (ts : list Tag) (p : t) : t :=
  mk (position p) (velocity p) (forces p) (life p) (removeFlag p) (mass p)
     (connections p) (staticBody p) ts (system p) (lastPosition p).

Definition set_lastPosition (v : option Vector3.t) (p : t) : t :=
  mk (position p) (velocity p) (forces p) (life p) (removeFlag p) (mass p)
     (connections p) (staticBody p) (tags p) (system p) v.

(** [setRemoveFlag(flag)] *)
Definition setRemoveFlag (flag : bool) (p : t) : t :=
  mk (position p) (velocity p) (forces p) (life p) flag (mass p)
     (connections p) (staticBody p) (tags p) (system p) (lastPosition p).

(** [setMass(m)] *)
Definition setMass (m : Q) (p : t) : t :=
  mk (position p) (velocity p) (forces p) (life p) (removeFlag p) m
     (connections p) (staticBody p) (tags p) (system p) (lastPosition p).

Definition set_staticBody (b : bool) (p : t) : t :=
  mk (position p) (velocity p) (forces p) (life p) (removeFlag p) (mass p)
     (connections p) b (tags p) (system p) (lastPosition p).

Definition shouldRemove (p : t) : bool := removeFlag p.

(** [flushForces(limit = -1)]:
<<
    if (limit >= 0) this.forces.limit(limit);
    this.forces.div(this.mass);
    this.velocity.addVector(this.forces);
    this.forces.x = 0;
    this.forces.y = 0;
>>
    The last two assignments leave [forces.z] as the division left it. *)
Definition flushForces `{MathSqrt} (limit : Q) (p : t) : t :=
  let f1 := if Qle_bool 0 limit then Vector3.limit (forces p) limit
            else forces p in
  let f2 := Vector3.div f1 (mass p) in
  let v := Vector3.addVector (velocity p) f2 in
  set_forces (Vector3.mk 0 0 (Vector3.z f2)) (set_velocity v p).

(** [update(maxForce = -1)] *)
Definition update `{MathSqrt} (maxForce : Q) (p : t) : t :=
  let p1 := set_lastPosition (Some (Vector3.copy (position p))) p in
  let p2 := flushForces maxForce p1 in
  let p3 := set_position (Vector3.addVector (position p2) (velocity p2)) p2 in
  set_life (S (life p3)) p3.

(** [applyForce(force)] *)
Definition applyForce (force : Vector3.t) (p : t) : t :=
  if staticBody p then p
  else set_forces (Vector3.addVector (forces p) force) p.

(** [addConnection(conn)] *)
Definition addConnection (conn : SId) (p : t) : t :=
  set_connections (connections p ++ [conn]) p.

(** [removeSpring(spring)] *)
Definition removeSpring (spring : SId) (p : t) : t :=
  set_connections (spliceOut spring (connections p)) p.

End Particle.

(** ** Spring (fields) and the heap of objects *)

Module SpringObj.

Record t : Type := mk {
  removeFlag : bool;
  particle1 : PId;
  particle2 : PId;
  springLength : Q;
  k : Q
}.

Definition set_removeFlag (b : bool) (s : t) : t :=
  mk b (particle1 s) (particle2 s) (springLength s) (k s).

End SpringObj.

Record Heap : Type := mkHeap {
  particle : PId → Particle.t;
  spring : SId → SpringObj.t
}.

Definition upd_particle (p : PId) (f : Particle.t → Particle.t) (h : Heap)
  : Heap :=
  mkHeap (<[p := f (particle h p)]> (particle h)) (spring h).

Definition upd_spring (s : SId) (f : SpringObj.t → SpringObj.t) (h : Heap)
  : Heap :=
  mkHeap (particle h) (<[s := f (spring h s)]> (spring h)).

(** ** Spring *)

Module Spring.

(** [update()]:
<<
    let delta = Vector3.sub(p1.getPosition(), p2.getPosition());
    let forceMag = (this.springLength - delta.magnitude()) * this.k;
    delta.normalize();
    delta.mult(forceMag);
    this.particle1.applyForce(delta);
    this.particle2.applyForce(Vector3.mult(delta, -1));
>>
    The removal flag is not read. *)
Definition force `{MathSqrt} (h : Heap) (s : SId) : Vector3.t :=
  let so := spring h s in
  let delta :=
    Vector3.sub (Particle.position (particle h (SpringObj.particle1 so)))
                (Particle.position (particle h (SpringObj.particle2 so))) in
  let forceMag :=
    ((SpringObj.springLength so - Vector3.magnitude delta)
     * SpringObj.k so)%Q in
  Vector3.mult (Vector3.normalize delta) forceMag.

Definition update `{MathSqrt} (s : SId) (h : Heap) : Heap :=
  let so := spring h s in
  let delta := force h s in
  let h1 := upd_particle (SpringObj.particle1 so)
                         (Particle.applyForce delta) h in
  upd_particle (SpringObj.particle2 so)
               (Particle.applyForce (Vector3.mult delta (-1))) h1.

(** [other(particle)]: [undefined] when neither endpoint matches. *)
Definition other (h : Heap) (s : SId) (p : PId) : option PId :=
  let so := spring h s in
  if decide (SpringObj.particle1 so = p) then Some (SpringObj.particle2 so)
  else if decide (SpringObj.particle2 so = p)
       then Some (SpringObj.particle1 so)
       else None.

Definition shouldRemove (h : Heap) (s : SId) : bool :=
  SpringObj.removeFlag (spring h s).

Definition remove (s : SId) (h : Heap) : Heap :=
  upd_spring s (SpringObj.set_removeFlag true) h.

(** [s.getN1()] and [s.getN2()], as [ParticleSystem.cleanUpParticles]
    calls them: the class [Spring] has the fields [particle1] and
    [particle2] and no method [getN1] or [getN2], so the call of the
    missing property raises a TypeError. *)
Definition getN1 (h : Heap) (s : SId) : result PId := Throw TypeError.
Definition getN2 (h : Heap) (s : SId) : result PId := Throw TypeError.

End Spring.

(** [Particle.detachSprings()]: flags every connection of the particle. *)
Definition detachSprings (p : PId) (h : Heap) : Heap :=
  forEach (fun conn h => upd_spring conn (SpringObj.set_removeFlag true) h)
          (Particle.connections (particle h p)) h.

(** [Particle.findConnection(otherParticle)]:
<<
    return this.connections.find((conn) => conn.other(this) === otherParticle);
>> *)
Definition findConnection (h : Heap) (p otherParticle : PId) : option SId :=
  list_find (fun conn => Spring.other h conn p = Some otherParticle)
            (Particle.connections (particle h p)) ≫= fun r => Some (snd r).

(** ** Tag filters *)

(** A filter object [{ and: [...], or: [...] }]; each key may be absent. *)
Record Filter : Type := mkFilter {
  f_and : option (list Tag);
  f_or : option (list Tag)
}.

(** [{}] *)
Definition noFilter : Filter := mkFilter None None.
(** [{ and: tags }] *)
Definition andFilter (tags : list Tag) : Filter := mkFilter (Some tags) None.
(** [{ or: tags }] *)
Definition orFilter (tags : list Tag) : Filter := mkFilter None (Some tags).

(** ** TagIndex *)

Module TagIndex.

Record t : Type := mk {
  particles : list PId;
  tagIndex : gmap Tag (list PId)
}.

Definition new : t := mk [] ∅.

(** [addTag(entity, tag)] *)
Definition addTag (entity : PId) (tag : Tag) (i : t) : t :=
  let m := match tagIndex i !! tag with
           | Some _ => tagIndex i
           | None => <[tag := []]> (tagIndex i)
           end in
  let arr := default [] (m !! tag) in
  if includes entity arr then mk (particles i) m
  else mk (particles i) (<[tag := arr ++ [entity]]> m).

(** [removeTag(entity, tag)] *)
Definition removeTag (entity : PId) (tag : Tag) (i : t) : t :=
  match tagIndex i !! tag with
  | None => i
  | Some arr => mk (particles i) (<[tag := spliceOut entity arr]> (tagIndex i))
  end.

(** [add(entity)]: push, then index every tag of the entity. *)
Definition add (h : Heap) (entity : PId) (i : t) : t :=
  forEach (addTag entity) (Particle.tags (particle h entity))
          (mk (particles i ++ [entity]) (tagIndex i)).

(** [remove(entity)] *)
Definition remove (h : Heap) (entity : PId) (i : t) : t :=
  forEach (removeTag entity) (Particle.tags (particle h entity))
          (mk (spliceOut entity (particles i)) (tagIndex i)).

(** [arrs.reduce((acc, arr) => acc.filter((p) => arr.includes(p)))]: no
    initial value, so an empty array of arrays raises a TypeError. *)
Definition reduce_intersect (arrs : list (list PId)) : result (list PId) :=
  match arrs with
  | [] => Throw TypeError
  | a :: rest =>
      Ok (fold_left (fun acc arr => filter (fun p => p ∈ arr) acc) rest a)
  end.

(** [query(filter = {})] *)
Definition query (i : t) (f : Filter) : result (list PId) :=
  match f_and f, f_or f with
  | None, None => Ok (particles i)
  | Some tags, _ =>
      reduce_intersect (map (fun tag => default [] (tagIndex i !! tag)) tags)
  | None, Some tags =>
      Ok (forEach (fun tag result =>
                     match tagIndex i !! tag with
                     | Some arr => result ++ arr
                     | None => result
                     end) tags [])
  end.

(** [contains(entity)] *)
Definition contains (i : t) (entity : PId) : bool :=
  includes entity (particles i).

End TagIndex.

(** ** SpatialGrid *)

(** [{ at: Vector3, radius: cells }] *)
Record Position : Type := mkPosition { at_ : Vector3.t; radius : Z }.

(** [{ tags = {}, position }] *)
Record Query : Type := mkQuery {
  q_tags : Filter;
  q_position : option Position
}.

Module SpatialGrid.

Record t : Type := mk {
  bounds : BoundingBox.t;
  cellSize : Q;
  particles : list PId;
  rows : Z;
  cols : Z;
  cells : list TagIndex.t;
  globalTagIndex : TagIndex.t
}.

(** [constructor(bounds, cellSize)] *)
Definition new (b : BoundingBox.t) (cellSize : Q) : t :=
  let rows := Qceiling ((BoundingBox.getHeight b + cellSize) / cellSize) in
  let cols := Qceiling ((BoundingBox.getWidth b + cellSize) / cellSize) in
  mk b cellSize [] rows cols
     (replicate (Z.to_nat (rows * cols)) TagIndex.new) TagIndex.new.

Definition set_cell (idx : Z) (c : TagIndex.t) (g : t) : t :=
  mk (bounds g) (cellSize g) (particles g) (rows g) (cols g)
     (<[Z.to_nat idx := c]> (cells g)) (globalTagIndex g).

Definition set_particles (l : list PId) (g : t) : t :=
  mk (bounds g) (cellSize g) l (rows g) (cols g) (cells g)
     (globalTagIndex g).

Definition set_globalTagIndex (i : TagIndex.t) (g : t) : t :=
  mk (bounds g) (cellSize g) (particles g) (rows g) (cols g) (cells g) i.

(** [hashPosition(pos)]: the flat cell index, or [-1] outside. *)
Definition hashPosition (g : t) (pos : Vector3.t) : Z :=
  let col := Qfloor (Vector3.x pos / cellSize g) in
  let row := Qfloor (Vector3.y pos / cellSize g) in
  if (col <? 0) || (cols g <=? col) || (row <? 0) || (rows g <=? row)
  then -1
  else row * cols g + col.

(** [addParticle(particle)] *)
Definition addParticle (h : Heap) (p : PId) (g : t) : result t :=
  if negb (BoundingBox.containsVector (bounds g)
                                      (Particle.position (particle h p)))
  then Throw OutOfBounds
  else
    let g1 := set_particles (particles g ++ [p]) g in
    let idx := hashPosition g (Particle.position (particle h p)) in
    match nth_Z (cells g1) idx with
    | None => Throw TypeError
    | Some c =>
        let g2 := set_cell idx (TagIndex.add h p c) g1 in
        Ok (set_globalTagIndex (TagIndex.add h p (globalTagIndex g2)) g2)
    end.

(** [removeParticle(particle)]: returns the grid and the heap, in which
    the springs of the particle are flagged. *)
Definition removeParticle (p : PId) (gh : t * Heap) : result (t * Heap) :=
  let '(g, h) := gh in
  let idx := hashPosition g (Particle.position (particle h p)) in
  g1 ← (if 0 <=? idx then
          match nth_Z (cells g) idx with
          | None => Throw TypeError
          | Some c => Ok (set_cell idx (TagIndex.remove h p c) g)
          end
        else Ok g);
  let g2 := set_particles (spliceOut p (particles g1)) g1 in
  let h' := detachSprings p h in
  Ok (set_globalTagIndex (TagIndex.remove h' p (globalTagIndex g2)) g2, h').

(** The cells visited by a spatial query, in visiting order:
<<
    for (let x = cellX - radius; x <= cellX + radius; x++)
      for (let y = cellY - radius; y <= cellY + radius; y++)
        if (x >= 0 && x < this.cols && y >= 0 && y < this.rows) ...
          this.cells[x + y * this.cols]
>> *)
Definition visited (g : t) (cellX cellY radius : Z) : list Z :=
  x ← seqZ (cellX - radius) (2 * radius + 1);
  y ← seqZ (cellY - radius) (2 * radius + 1);
  if (0 <=? x) && (x <? cols g) && (0 <=? y) && (y <? rows g)
  then [x + y * cols g] else [].

(** [query({ tags = {}, position } = {})] *)
Definition query (g : t) (q : Query) : result (list PId) :=
  match q_position q with
  | None => TagIndex.query (globalTagIndex g) (q_tags q)
  | Some pos =>
      let cellX := Qfloor (Vector3.x (at_ pos) / cellSize g) in
      let cellY := Qfloor (Vector3.y (at_ pos) / cellSize g) in
      forEachM (fun idx out =>
                  match nth_Z (cells g) idx with
                  | None => Throw TypeError
                  | Some c =>
                      r ← TagIndex.query c (q_tags q); Ok (out ++ r)
                  end)
               (visited g cellX cellY (radius pos)) []
  end.

(** [updateCell(particle, oldIndex)] *)
Definition updateCell (h : Heap) (p : PId) (oldIndex : Z) (g : t) : t :=
  let newIndex := hashPosition g (Particle.position (particle h p)) in
  if decide (newIndex = oldIndex) then g
  else
    let len := Z.of_nat (length (cells g)) in
    let g1 := if (0 <=? oldIndex) && (oldIndex <? len) then
                match nth_Z (cells g) oldIndex with
                | Some c => set_cell oldIndex (TagIndex.remove h p c) g
                | None => g
                end
              else g in
    if (0 <=? newIndex) && (newIndex <? len) then
      match nth_Z (cells g1) newIndex with
      | Some c => set_cell newIndex (TagIndex.add h p c) g1
      | None => g1
      end
    else g1.

(** [addTag(particle, tag)] *)
Definition addTag (h : Heap) (p : PId) (tag : Tag) (g : t) : t :=
  let idx := hashPosition g (Particle.position (particle h p)) in
  let len := Z.of_nat (length (cells g)) in
  let g1 := if (0 <=? idx) && (idx <? len) then
              match nth_Z (cells g) idx with
              | Some c => set_cell idx (TagIndex.addTag p tag c) g
              | None => g
              end
            else g in
  set_globalTagIndex (TagIndex.addTag p tag (globalTagIndex g1)) g1.

(** [removeTag(particle, tag)] *)
Definition removeTag (h : Heap) (p : PId) (tag : Tag) (g : t) : t :=
  let idx := hashPosition g (Particle.position (particle h p)) in
  let len := Z.of_nat (length (cells g)) in
  let g1 := if (0 <=? idx) && (idx <? len) then
              match nth_Z (cells g) idx with
              | Some c => set_cell idx (TagIndex.removeTag p tag c) g
              | None => g
              end
            else g in
  set_globalTagIndex (TagIndex.removeTag p tag (globalTagIndex g1)) g1.

(** [getCell(col, row)]: [undefined] when the index is out of range. *)
Definition getCell (g : t) (col row : Z) : option TagIndex.t :=
  nth_Z (cells g) (col + row * cols g).

End SpatialGrid.

(** ** ParticleSystem *)

Module ParticleSystem.

(** Registered callbacks: [(particle) => void],
    [(particle, neighbors[]) => void] and [(a, b) => void]. *)
Definition Behavior : Type := PId → Heap → Heap.
Definition Interaction : Type := PId → list PId → Heap → Heap.
Definition SymmetricInteraction : Type := PId → PId → Heap → Heap.

Record t : Type := mk {
  bounds : BoundingBox.t;
  grid : SpatialGrid.t;
  maxParticles : Q;
  maxDensity : Q;
  maxForce : Q;
  particleCreationQueue : list PId;
  springs : list SId;
  springCreationQueue : list SId;
  behaviors : list (Behavior * Filter);
  interactions : list (Interaction * Filter * Filter);
  symmetricInteractions : list (SymmetricInteraction * Filter);
  (* the objects, and the next fresh identifiers of [new Particle] and
     [new Spring] *)
  heap : Heap;
  nextParticle : PId;
  nextSpring : SId
}.

Definition emptyHeap : Heap :=
  mkHeap (fun _ => Particle.new Vector3.zero false)
         (fun _ => SpringObj.mk false 0%nat 0%nat 0 0).

(** [constructor(bounds, cellSize, maxParticles = 1e3, maxDensity = 0.1)] *)
Definition new (b : BoundingBox.t) (cellSize maxParticles maxDensity : Q)
  : t :=
  mk b (SpatialGrid.new b cellSize) maxParticles maxDensity (-1) [] [] []
     [] [] [] emptyHeap 0%nat 0%nat.

Definition set_grid (g : SpatialGrid.t) (s : t) : t :=
  mk (bounds s) g (maxParticles s) (maxDensity s) (maxForce s)
     (particleCreationQueue s) (springs s) (springCreationQueue s)
     (behaviors s) (interactions s) (symmetricInteractions s)
     (heap s) (nextParticle s) (nextSpring s).

Definition set_heap (h : Heap) (s : t) : t :=
  mk (bounds s) (grid s) (maxParticles s) (maxDensity s) (maxForce s)
     (particleCreationQueue s) (springs s) (springCreationQueue s)
     (behaviors s) (interactions s) (symmetricInteractions s)
     h (nextParticle s) (nextSpring s).

Definition set_particleCreationQueue (q : list PId) (s : t) : t :=
  mk (bounds s) (grid s) (maxParticles s) (maxDensity s) (maxForce s)
     q (springs s) (springCreationQueue s)
     (behaviors s) (interactions s) (symmetricInteractions s)
     (heap s) (nextParticle s) (nextSpring s).

Definition set_springs (l : list SId) (s : t) : t :=
  mk (bounds s) (grid s) (maxParticles s) (maxDensity s) (maxForce s)
     (particleCreationQueue s) l (springCreationQueue s)
     (behaviors s) (interactions s) (symmetricInteractions s)
     (heap s) (nextParticle s) (nextSpring s).

Definition set_springCreationQueue (q : list SId) (s : t) : t :=
  mk (bounds s) (grid s) (maxParticles s) (maxDensity s) (maxForce s)
     (particleCreationQueue s) (springs s) q
     (behaviors s) (interactions s) (symmetricInteractions s)
     (heap s) (nextParticle s) (nextSpring s).

(** [setMaxParticles], [setMaxForce], [setMaxDensity] *)
Definition setMaxParticles (n : Q) (s : t) : t :=
  mk (bounds s) (grid s) n (maxDensity s) (maxForce s)
     (particleCreationQueue s) (springs s) (springCreationQueue s)
     (behaviors s) (interactions s) (symmetricInteractions s)
     (heap s) (nextParticle s) (nextSpring s).

Definition setMaxForce (n : Q) (s : t) : t :=
  mk (bounds s) (grid s) (maxParticles s) (maxDensity s) n
     (particleCreationQueue s) (springs s) (springCreationQueue s)
     (behaviors s) (interactions s) (symmetricInteractions s)
     (heap s) (nextParticle s) (nextSpring s).

Definition setMaxDensity (d : Q) (s : t) : t :=
  mk (bounds s) (grid s) (maxParticles s) d (maxForce s)
     (particleCreationQueue s) (springs s) (springCreationQueue s)
     (behaviors s) (interactions s) (symmetricInteractions s)
     (heap s) (nextParticle s) (nextSpring s).

(** [addParticleInteraction(fn, filter = {}, neighborFilter = {})] *)
Definition addParticleInteraction (fn : Interaction)
           (filter neighborFilter : Filter) (s : t) : t :=
  mk (bounds s) (grid s) (maxParticles s) (maxDensity s) (maxForce s)
     (particleCreationQueue s) (springs s) (springCreationQueue s)
     (behaviors s) (interactions s ++ [(fn, filter, neighborFilter)])
     (symmetricInteractions s) (heap s) (nextParticle s) (nextSpring s).

(** [addSymmetricParticleInteraction(fn, filter = {})] *)
Definition addSymmetricParticleInteraction (fn : SymmetricInteraction)
           (filter : Filter) (s : t) : t :=
  mk (bounds s) (grid s) (maxParticles s) (maxDensity s) (maxForce s)
     (particleCreationQueue s) (springs s) (springCreationQueue s)
     (behaviors s) (interactions s)
     (symmetricInteractions s ++ [(fn, filter)])
     (heap s) (nextParticle s) (nextSpring s).

(** [addParticleBehavior(fn, filter = {})] *)
Definition addParticleBehavior (fn : Behavior) (filter : Filter) (s : t)
  : t :=
  mk (bounds s) (grid s) (maxParticles s) (maxDensity s) (maxForce s)
     (particleCreationQueue s) (springs s) (springCreationQueue s)
     (behaviors s ++ [(fn, filter)]) (interactions s)
     (symmetricInteractions s) (heap s) (nextParticle s) (nextSpring s).

(** *** The tick *)

(** [updateSprings()]: every active spring, flagged or not. *)
Definition updateSprings `{MathSqrt} (springs : list SId) (h : Heap)
  : Heap :=
  forEach Spring.update springs h.

(** The same-cell loops
<<
    for (let i = 0; i < listA.length; i++)
      for (let j = i + 1; j < listA.length; j++)
        interaction(listA[i], listA[j]);
>> *)
Fixpoint withinCell {S : Type} (interaction : PId → PId → S → S)
         (listA : list PId) (s : S) : S :=
  match listA with
  | [] => s
  | a :: rest =>
      withinCell interaction rest (forEach (interaction a) rest s)
  end.

(** [listA.forEach((a) => listB.forEach((b) => interaction(a, b)))] *)
Definition crossCell {S : Type} (interaction : PId → PId → S → S)
           (listA listB : list PId) (s : S) : S :=
  forEach (fun a => forEach (interaction a) listB) listA s.

(** [_applySymmetricCell(interaction, filter, cx1, cy1, cx2, cy2)].  The
    state [S] the callback acts on is the heap in the tick; it is a
    parameter so that the calls can also be recorded. *)
Definition _applySymmetricCell {S : Type} (g : SpatialGrid.t)
           (interaction : PId → PId → S → S) (filter : Filter)
           (cx1 cy1 cx2 cy2 : Z) (s : S) : result S :=
  if (cx2 <? 0) || (cy2 <? 0) || (SpatialGrid.cols g <=? cx2)
     || (SpatialGrid.rows g <=? cy2)
  then Ok s
  else
    match SpatialGrid.getCell g cx1 cy1, SpatialGrid.getCell g cx2 cy2 with
    | Some cellA, Some cellB =>
        listA ← TagIndex.query cellA filter;
        listB ← TagIndex.query cellB filter;
        if (cx1 =? cx2) && (cy1 =? cy2)
        then Ok (withinCell interaction listA s)
        else Ok (crossCell interaction listA listB s)
    | _, _ => Ok s
    end.

(** The body of the two loops over [cx] and [cy]. *)
Definition symmetricAt {S : Type} (g : SpatialGrid.t)
           (interaction : PId → PId → S → S) (filter : Filter)
           (cx cy : Z) (s : S) : result S :=
  s1 ← _applySymmetricCell g interaction filter cx cy cx cy s;
  s2 ← _applySymmetricCell g interaction filter cx cy (cx + 1) cy s1;
  s3 ← _applySymmetricCell g interaction filter cx cy (cx + 1) (cy + 1) s2;
  s4 ← _applySymmetricCell g interaction filter cx cy cx (cy + 1) s3;
  _applySymmetricCell g interaction filter cx cy (cx - 1) (cy + 1) s4.

(** One registered symmetric interaction:
<<
    for (let cx = 0; cx < cols; cx++)
      for (let cy = 0; cy < rows; cy++) { ... }
>> *)
Definition symmetricInteraction {S : Type} (g : SpatialGrid.t)
           (interaction : PId → PId → S → S) (filter : Filter) (s : S)
  : result S :=
  forEachM (fun cx =>
              forEachM (fun cy => symmetricAt g interaction filter cx cy)
                       (seqZ 0 (SpatialGrid.rows g)))
           (seqZ 0 (SpatialGrid.cols g)) s.

(** The symmetric-interaction phase of [updateBehaviors]. *)
Definition symmetricPhase {S : Type} (g : SpatialGrid.t)
           (registered : list ((PId → PId → S → S) * Filter)) (s : S)
  : result S :=
  forEachM (fun '(interaction, filter) =>
              symmetricInteraction g interaction filter) registered s.

(** The one-way interactions of [updateBehaviors]. *)
Definition interactionPhase (g : SpatialGrid.t)
           (registered : list (Interaction * Filter * Filter)) (h : Heap)
  : result Heap :=
  forEachM (fun '(interaction, selfFilter, neighborFilter) h =>
              ps ← SpatialGrid.query g (mkQuery selfFilter None);
              forEachM (fun p h =>
                          ns ← SpatialGrid.query g
                               (mkQuery neighborFilter
                                  (Some (mkPosition
                                     (Particle.position (particle h p)) 1)));
                          Ok (interaction p
                                (filter (fun n => n ≠ p) ns) h))
                       ps h)
           registered h.

(** The single-particle behaviours of [updateBehaviors]. *)
Definition behaviorPhase (g : SpatialGrid.t)
           (registered : list (Behavior * Filter)) (h : Heap)
  : result Heap :=
  forEachM (fun '(behavior, filter) h =>
              ps ← SpatialGrid.query g (mkQuery filter None);
              Ok (forEach behavior ps h))
           registered h.

(** [updateBehaviors()] *)
Definition updateBehaviors (s : t) : result Heap :=
  h1 ← interactionPhase (grid s) (interactions s) (heap s);
  h2 ← symmetricPhase (grid s) (symmetricInteractions s) h1;
  behaviorPhase (grid s) (behaviors s) h2.

(** One step of [updateParticles()]:
<<
    const oldCell = this.grid.hashPosition(p.getPosition());
    p.update(this.maxForce);
    this.grid.updateCell(p, oldCell);
>> *)
Definition updateParticle `{MathSqrt} (maxForce : Q) (p : PId)
           (gh : SpatialGrid.t * Heap) : SpatialGrid.t * Heap :=
  let '(g, h) := gh in
  let oldCell :=
    SpatialGrid.hashPosition g (Particle.position (particle h p)) in
  let h' := upd_particle p (Particle.update maxForce) h in
  (SpatialGrid.updateCell h' p oldCell g, h').

(** [updateParticles()] *)
Definition updateParticles `{MathSqrt} (maxForce : Q)
           (gh : SpatialGrid.t * Heap) : SpatialGrid.t * Heap :=
  forEach (updateParticle maxForce) (SpatialGrid.particles (fst gh)) gh.

(** The second half of [cleanUpParticles()]:
<<
    this.springs.filter((s) => s.shouldRemove()).forEach((s) => {
      const idx = this.springs.indexOf(s);
      if (idx >= 0) this.springs.splice(idx, 1);
      s.getN1().removeSpring(s);
      s.getN2().removeSpring(s);
    });
>> *)
Definition cleanUpSpring (s : SId) (sh : list SId * Heap)
  : result (list SId * Heap) :=
  let '(springs, h) := sh in
  let springs1 := spliceOut s springs in
  n1 ← Spring.getN1 h s;
  let h1 := upd_particle n1 (Particle.removeSpring s) h in
  n2 ← Spring.getN2 h1 s;
  Ok (springs1, upd_particle n2 (Particle.removeSpring s) h1).

Definition cleanUpSprings (sh : list SId * Heap)
  : result (list SId * Heap) :=
  let '(springs, h) := sh in
  forEachM cleanUpSpring
           (filter (fun s => Spring.shouldRemove h s = true) springs) sh.

(** [cleanUpParticles()] *)
Definition cleanUpParticles (s : t) : result t :=
  all ← SpatialGrid.query (grid s) (mkQuery noFilter None);
  let dead :=
    filter (fun p => Particle.shouldRemove (particle (heap s) p) = true)
           all in
  '(g, h) ← forEachM SpatialGrid.removeParticle dead (grid s, heap s);
  '(springs', h') ← cleanUpSprings (springs s, h);
  Ok (set_springs springs' (set_heap h' (set_grid g s))).

(** [update()]: one tick. *)
Definition update `{MathSqrt} (s : t) : result t :=
  (* 1) Add newly created particles *)
  g1 ← forEachM (SpatialGrid.addParticle (heap s))
                (particleCreationQueue s) (grid s);
  let s1 := set_particleCreationQueue [] (set_grid g1 s) in
  (* 2) Add newly created springs *)
  let s2 := set_springCreationQueue []
              (set_springs (springs s1 ++ springCreationQueue s1) s1) in
  (* 3) Springs *)
  let s3 := set_heap (updateSprings (springs s2) (heap s2)) s2 in
  (* 4) Particle-level behaviors & interactions *)
  h4 ← updateBehaviors s3;
  (* 5) Move particles *)
  let '(g5, h5) := updateParticles (maxForce s3) (grid s3, h4) in
  let s5 := set_heap h5 (set_grid g5 s3) in
  (* 6) Remove dead particles & springs *)
  cleanUpParticles s5.

(** *** Public utility methods *)

(** [query(options = {})] *)
Definition query (s : t) (q : Query) : result (list PId) :=
  SpatialGrid.query (grid s) q.

(** [getDensity(pos)]: reading [cell.particles] of an undefined cell
    raises a TypeError. *)
Definition getDensity (s : t) (pos : Vector3.t) : result Q :=
  if negb (BoundingBox.containsVector (bounds s) pos) then Ok 1%Q
  else
    let col := Qfloor (Vector3.x pos / SpatialGrid.cellSize (grid s)) in
    let row := Qfloor (Vector3.y pos / SpatialGrid.cellSize (grid s)) in
    match SpatialGrid.getCell (grid s) col row with
    | None => Throw TypeError
    | Some cell =>
        Ok (inject_Z (Z.of_nat (length (TagIndex.particles cell)))
            / (SpatialGrid.cellSize (grid s) * SpatialGrid.cellSize (grid s)))%Q
    end.

Definition Qltb (a b : Q) : bool := negb (Qle_bool b a).

(** [checkPosition(pos, maxPerCell = 1)] *)
Definition checkPosition (s : t) (pos : Vector3.t) (maxPerCell : Q)
  : result bool :=
  dens ← getDensity s pos;
  Ok (Qltb (inject_Z (Z.of_nat (length (SpatialGrid.particles (grid s)))))
           (maxParticles s)
      && Qltb dens (maxDensity s)
      && Qltb dens maxPerCell).

(** [createParticle(pos, allowOutside = false)]: the new particle, or
    [undefined]. *)
Definition createParticle (pos : Vector3.t) (allowOutside : bool) (s : t)
  : result (option PId * t) :=
  ok ← (if allowOutside then Ok true else checkPosition s pos 1);
  if ok : bool then
    let p := nextParticle s in
    let obj := Particle.new (BoundingBox.constrained (bounds s) pos) true in
    let h := mkHeap (<[p := obj]> (particle (heap s))) (spring (heap s)) in
    Ok (Some p,
        mk (bounds s) (grid s) (maxParticles s) (maxDensity s) (maxForce s)
           (particleCreationQueue s ++ [p]) (springs s)
           (springCreationQueue s) (behaviors s) (interactions s)
           (symmetricInteractions s) h (S p) (nextSpring s))
  else Ok (None, s).

(** [addTag(particle, tag)] and [removeTag(particle, tag)] *)
Definition addTag (p : PId) (tag : Tag) (s : t) : t :=
  set_grid (SpatialGrid.addTag (heap s) p tag (grid s)) s.

Definition removeTag (p : PId) (tag : Tag) (s : t) : t :=
  set_grid (SpatialGrid.removeTag (heap s) p tag (grid s)) s.

(** [createSpring(a, b, restLength, k)] *)
Definition createSpring (a b : PId) (restLength k : Q) (s : t) : SId * t :=
  let sp := nextSpring s in
  let h0 := mkHeap (particle (heap s))
                   (<[sp := SpringObj.mk false a b restLength k]>
                      (spring (heap s))) in
  let h1 := upd_particle a (Particle.addConnection sp) h0 in
  let h2 := upd_particle b (Particle.addConnection sp) h1 in
  (sp,
   mk (bounds s) (grid s) (maxParticles s) (maxDensity s) (maxForce s)
      (particleCreationQueue s) (springs s) (springCreationQueue s ++ [sp])
      (behaviors s) (interactions s) (symmetricInteractions s)
      h2 (nextParticle s) (S sp)).

(** [Particle.addTag(tag)] of a particle of this system:
<<
    this.tags.add(tag);
    if (this.system) this.system.addTag(this, tag);
>> *)
Definition particle_addTag (p : PId) (tag : Tag) (s : t) : t :=
  let tags := Particle.tags (particle (heap s) p) in
  let tags' := if bool_decide (tag ∈ tags) then tags else tags ++ [tag] in
  let s1 := set_heap (upd_particle p (Particle.set_tags tags') (heap s)) s in
  if Particle.system (particle (heap s1) p) then addTag p tag s1 else s1.

(** [Particle.removeTag(tag)] of a particle of this system. *)
Definition particle_removeTag (p : PId) (tag : Tag) (s : t) : t :=
  let tags := Particle.tags (particle (heap s) p) in
  let tags' := filter (fun t => t ≠ tag) tags in
  let s1 := set_heap (upd_particle p (Particle.set_tags tags') (heap s)) s in
  if Particle.system (particle (heap s1) p) then removeTag p tag s1 else s1.

(** [getParticles()] and [getSprings()] *)
Definition getParticles (s : t) : list PId := SpatialGrid.particles (grid s).
Definition getSprings (s : t) : list SId := springs s.

(** [fill(n, dim = 2)]:
<<
    const out = [];
    for (let i = 0; i < n; i++) {
      const p = this.createParticle(this.bounds.getRandomPointInside(dim));
      if (p) out.push(p);
    }
    return out;
>>
    [rand k] is the result of the [k]-th call to [rand()]; [k] counts the
    calls made so far. *)
Fixpoint fill_loop (rand : nat → Q) (n : nat) (dim : Z) (k : nat)
         (out : list PId) (s : t) : result (list PId * t) :=
  match n with
  | O => Ok (out, s)
  | S n' =>
      let pt := BoundingBox.getRandomPointInside (bounds s) dim
                  (rand k) (rand (S k)) (rand (S (S k))) in
      let k' := if decide (dim = 3) then (k + 3)%nat else (k + 2)%nat in
      '(r, s') ← createParticle pt false s;
      fill_loop rand n' dim k'
                (match r with Some p => out ++ [p] | None => out end) s'
  end.

Definition fill (rand : nat → Q) (k : nat) (n : nat) (dim : Z) (s : t)
  : result (list PId * t) :=
  fill_loop rand n dim k [] s.

End ParticleSystem.

(** ** Concrete inputs *)

(** A square root on the rationals for running the model: exact on the
    squares of rationals, rounded down to the denominator otherwise. *)
Definition exactSqrt : MathSqrt :=
  fun q => (Z.sqrt (Qnum q * Zpos (Qden q)) # Qden q)%Q.

(** The system of the specification's scenarios: a 200 x 200 domain with
    cells of size 10 and the default caps. *)
Definition system200 : ParticleSystem.t :=
  ParticleSystem.new (BoundingBox.new 200 200 0) 10 1000 (1 # 10).

(** A heap in which particle [0] carries the tags [a] and [b]. *)
Definition heap_ab : Heap :=
  upd_particle 0%nat (Particle.set_tags ["a"; "b"]) ParticleSystem.emptyHeap.

(** ** Predicates of the specification *)

(** The geometry the constructors establish: the box starts at the origin,
    the cell size is positive, the row and column counts are
    [ceil((dimension + cellSize) / cellSize)] and there is one cell per row
    and column. *)
Definition geometry (b : BoundingBox.t) (g : SpatialGrid.t) : Prop :=
  BoundingBox.topBackLeft b = Vector3.mk 0 0 0
  ∧ (0 < SpatialGrid.cellSize g)%Q
  ∧ SpatialGrid.rows g
    = Qceiling ((BoundingBox.getHeight b + SpatialGrid.cellSize g)
                / SpatialGrid.cellSize g)
  ∧ SpatialGrid.cols g
    = Qceiling ((BoundingBox.getWidth b + SpatialGrid.cellSize g)
                / SpatialGrid.cellSize g)
  ∧ length (SpatialGrid.cells g)
    = Z.to_nat (SpatialGrid.rows g * SpatialGrid.cols g).






(** Two particles at (5, 5) and (8, 5) queued on the empty 200 x 200
    system, a spring of rest length 1 and stiffness 1 between them, and
    [spring.remove()] called on it before the tick. *)
Definition spring_system : ParticleSystem.t :=
  match ParticleSystem.createParticle (Vector3.mk 5 5 0) false system200 with
  | Ok (Some a, s1) =>
      match ParticleSystem.createParticle (Vector3.mk 8 5 0) false s1 with
      | Ok (Some b, s2) =>
          let '(sp, s3) := ParticleSystem.createSpring a b 1 1 s2 in
          ParticleSystem.set_heap (Spring.remove sp (ParticleSystem.heap s3)) s3
      | _ => s1
      end
  | _ => system200
  end.

(** The cell index of a particle: [hashPosition] of where it is. *)
Definition cellOf (g : SpatialGrid.t) (h : Heap) (p : PId) : Z :=
  SpatialGrid.hashPosition g (Particle.position (particle h p)).

(** The members of the cells [cells] are the particles of [live], each in
    the cell of index [where_ p] and in no other, none twice.  A particle
    with [where_ p = -1] is in no cell. *)
Definition members_ok (cells : list TagIndex.t) (live : list PId)
           (where_ : PId → Z) : Prop :=
  (∀ i c, cells !! i = Some c → NoDup (TagIndex.particles c))
  ∧ (∀ i c p, cells !! i = Some c →
              (p ∈ TagIndex.particles c
               ↔ p ∈ live ∧ where_ p = Z.of_nat i)).

(** The bucket invariant of the grid: one cell per row and column, no
    particle twice in the flat list or in a cell, and the members of cell
    [i] are the live particles whose position hashes to [i]. *)
Definition bucketed (g : SpatialGrid.t) (h : Heap) : Prop :=
  length (SpatialGrid.cells g)
  = Z.to_nat (SpatialGrid.rows g * SpatialGrid.cols g)
  ∧ NoDup (SpatialGrid.particles g)
  ∧ members_ok (SpatialGrid.cells g) (SpatialGrid.particles g) (cellOf g h).

(** The invariant of the system between ticks: the grid is bucketed and
    the queued particles are new to it. *)
Definition system_bucketed (s : ParticleSystem.t) : Prop :=
  bucketed (ParticleSystem.grid s) (ParticleSystem.heap s)
  ∧ NoDup (SpatialGrid.particles (ParticleSystem.grid s)
           ++ ParticleSystem.particleCreationQueue s).

(** Registered callbacks that move no particle themselves: they act on
    forces, velocities, flags and the like, and leave every position to the
    integration step. *)
Definition keeps_positions (f : Heap → Heap) : Prop :=
  ∀ h q, Particle.position (particle (f h) q)
         = Particle.position (particle h q).

Definition callbacks_keep_positions (s : ParticleSystem.t) : Prop :=
  (∀ b f p, (b, f) ∈ ParticleSystem.behaviors s → keeps_positions (b p))
  ∧ (∀ i f nf p ns, (i, f, nf) ∈ ParticleSystem.interactions s →
                    keeps_positions (i p ns))
  ∧ (∀ i f a b, (i, f) ∈ ParticleSystem.symmetricInteractions s →
                keeps_positions (i a b)).

(** C7 in the words of the claim: the particle is a member of the cell
    whose coordinates are the floors of its position over the cell size,
    and of no other cell. *)
Definition in_its_cell (g : SpatialGrid.t) (h : Heap) (p : PId) : Prop :=
  let pos := Particle.position (particle h p) in
  ∃ i c,
    SpatialGrid.cells g !! i = Some c
    ∧ p ∈ TagIndex.particles c
    ∧ Z.of_nat i = Qfloor (Vector3.y pos / SpatialGrid.cellSize g)
                   * SpatialGrid.cols g
                   + Qfloor (Vector3.x pos / SpatialGrid.cellSize g)
    ∧ ∀ j c', SpatialGrid.cells g !! j = Some c' →
              p ∈ TagIndex.particles c' → j = i.

(** A behaviour that pushes a particle to the left with force 10. *)
Definition pushLeft : ParticleSystem.Behavior :=
  fun p h => upd_particle p (Particle.applyForce (Vector3.mk (-10) 0 0)) h.

(** A 10 x 10 system (2 x 2 cells of size 10) with [pushLeft] registered
    for every particle and one particle queued at (5, 5). *)
Definition pushed_system : ParticleSystem.t :=
  match ParticleSystem.createParticle (Vector3.mk 5 5 0) false
          (ParticleSystem.addParticleBehavior pushLeft noFilter
             (ParticleSystem.new (BoundingBox.new 10 10 0) 10 1000 (1 # 10)))
  with
  | Ok (_, s) => s
  | Throw _ => system200
  end.

(** ** The calls of a symmetric interaction *)

(** An interaction that records its calls, in order. *)
Definition record (a b : PId) (calls : list (PId * PId)) : list (PId * PId) :=
  calls ++ [(a, b)].

(** The number of calls [interaction(a, b)] in a record. *)
Definition invocations (a b : PId) (calls : list (PId * PId)) : nat :=
  length (filter (fun c => c = (a, b)) calls).

(** The cell coordinates of the grid. *)
Definition in_grid (g : SpatialGrid.t) (cx cy : Z) : Prop :=
  0 ≤ cx < SpatialGrid.cols g ∧ 0 ≤ cy < SpatialGrid.rows g.

(** The entities of the cell at [(cx, cy)] that match the filter. *)
Definition matching (g : SpatialGrid.t) (f : Filter) (cx cy : Z) : list PId :=
  match SpatialGrid.getCell g cx cy with
  | Some c => match TagIndex.query c f with Ok l => l | Throw _ => [] end
  | None => []
  end.

(** The matching entities of all cells, cell by cell. *)
Definition all_matching (g : SpatialGrid.t) (f : Filter) : list PId :=
  cx ← seqZ 0 (SpatialGrid.cols g);
  cy ← seqZ 0 (SpatialGrid.rows g);
  matching g f cx cy.

(** The pairs [(l[i], l[j])] with [i < j], in the order of the loops. *)
Fixpoint pairsOf (l : list PId) : list (PId * PId) :=
  match l with
  | [] => []
  | a :: rest => map (pair a) rest ++ pairsOf rest
  end.

(** The pairs of an entity of [la] with an entity of [lb]. *)
Definition crossOf (la lb : list PId) : list (PId * PId) :=
  a ← la; map (pair a) lb.

(** The calls of one [_applySymmetricCell(.., cx1, cy1, cx2, cy2)]. *)
Definition stencil (g : SpatialGrid.t) (f : Filter) (cx1 cy1 cx2 cy2 : Z)
  : list (PId * PId) :=
  if (cx2 <? 0) || (cy2 <? 0) || (SpatialGrid.cols g <=? cx2)
     || (SpatialGrid.rows g <=? cy2)
  then []
  else if (cx1 =? cx2) && (cy1 =? cy2)
       then pairsOf (matching g f cx1 cy1)
       else crossOf (matching g f cx1 cy1) (matching g f cx2 cy2).

(** The calls made for the cell [(cx, cy)]: its own pairs, then the four
    forward neighbours. *)
Definition callsAt (g : SpatialGrid.t) (f : Filter) (cx cy : Z)
  : list (PId * PId) :=
  stencil g f cx cy cx cy
  ++ stencil g f cx cy (cx + 1) cy
  ++ stencil g f cx cy (cx + 1) (cy + 1)
  ++ stencil g f cx cy cx (cy + 1)
  ++ stencil g f cx cy (cx - 1) (cy + 1).

(** All the calls of one registered symmetric interaction. *)
Definition symmetricCalls (g : SpatialGrid.t) (f : Filter)
  : list (PId * PId) :=
  cx ← seqZ 0 (SpatialGrid.cols g);
  cy ← seqZ 0 (SpatialGrid.rows g);
  callsAt g f cx cy.

(** Applying an interaction along a list of calls. *)
Definition run {S : Type} (interaction : PId → PId → S → S)
           (calls : list (PId * PId)) (s : S) : S :=
  forEach (fun c => interaction (fst c) (snd c)) calls s.

(** The empty 200 x 200 system on which particle [0] was created at (5, 5)
    and tagged [a] and [b], and particle [1] was created at (15, 5), in the
    next cell, and tagged [a]. *)
Definition tagged_system : ParticleSystem.t :=
  match ParticleSystem.createParticle (Vector3.mk 5 5 0) false system200 with
  | Ok (Some p, s1) =>
      match ParticleSystem.createParticle (Vector3.mk 15 5 0) false s1 with
      | Ok (Some q, s2) =>
          ParticleSystem.particle_addTag q "a"
            (ParticleSystem.particle_addTag p "b"
               (ParticleSystem.particle_addTag p "a" s2))
      | _ => s1
      end
  | _ => system200
  end.

(** [tagged_system] after its first tick, and its grid. *)
Definition tagged_after : ParticleSystem.t :=
  match ParticleSystem.update (H := exactSqrt) tagged_system with
  | Ok s => s
  | Throw _ => tagged_system
  end.

Definition tagged_grid : SpatialGrid.t := ParticleSystem.grid tagged_after.

(** [boundaryBounceBehavior(bounds)] of Behaviours.js: a particle that
    crossed a face of the box is put back just inside and the velocity
    component is flipped. *)
Definition boundaryBounceBehavior (bounds : BoundingBox.t)
  : ParticleSystem.Behavior :=
  fun p h =>
    upd_particle p
      (fun obj =>
         let pos := Particle.position obj in
         let vel := Particle.velocity obj in
         let min := BoundingBox.topBackLeft bounds in
         let max := BoundingBox.bottomFrontRight bounds in
         let '(px, vx) :=
           if ParticleSystem.Qltb (Vector3.x pos) (Vector3.x min)
           then ((Vector3.x min + 1)%Q, (Vector3.x vel * -1)%Q)
           else if ParticleSystem.Qltb (Vector3.x max) (Vector3.x pos)
                then ((Vector3.x max - 1)%Q, (Vector3.x vel * -1)%Q)
                else (Vector3.x pos, Vector3.x vel) in
         let '(py, vy) :=
           if ParticleSystem.Qltb (Vector3.y pos) (Vector3.y min)
           then ((Vector3.y min + 1)%Q, (Vector3.y vel * -1)%Q)
           else if ParticleSystem.Qltb (Vector3.y max) (Vector3.y pos)
                then ((Vector3.y max - 1)%Q, (Vector3.y vel * -1)%Q)
                else (Vector3.y pos, Vector3.y vel) in
         let '(pz, vz) :=
           if ParticleSystem.Qltb (Vector3.z pos) (Vector3.z min)
           then (Vector3.z min, (Vector3.z vel * -1)%Q)
           else if ParticleSystem.Qltb (Vector3.z max) (Vector3.z pos)
                then (Vector3.z max, (Vector3.z vel * -1)%Q)
                else (Vector3.z pos, Vector3.z vel) in
         Particle.set_velocity (Vector3.mk vx vy vz)
           (Particle.set_position (Vector3.mk px py pz) obj))
      h.

(** A 10 x 10 system (2 x 2 cells of size 10) with the boundary bounce
    registered for every particle, and one particle queued at (9, 5) with
    velocity (3, 0, 0) ([setVelocity]). *)
Definition bounce_system : ParticleSystem.t :=
  match ParticleSystem.createParticle (Vector3.mk 9 5 0) false
          (ParticleSystem.addParticleBehavior
             (boundaryBounceBehavior (BoundingBox.new 10 10 0)) noFilter
             (ParticleSystem.new (BoundingBox.new 10 10 0) 10 1000 (1 # 10)))
  with
  | Ok (Some p, s) =>
      ParticleSystem.set_heap
        (upd_particle p (Particle.set_velocity (Vector3.mk 3 0 0))
                      (ParticleSystem.heap s)) s
  | _ => system200
  end.

(** The empty 200 x 200 system after [createParticle((5, 5, 0))]. *)
Definition created200 : ParticleSystem.t :=
  match ParticleSystem.createParticle (Vector3.mk 5 5 0) false system200 with
  | Ok (_, s) => s
  | Throw _ => system200
  end.

(** The particle identifiers in use are below the next fresh one. *)
Definition ids_fresh (s : ParticleSystem.t) : Prop :=
  Forall (fun p => (p < ParticleSystem.nextParticle s)%nat)
         (SpatialGrid.particles (ParticleSystem.grid s)
          ++ ParticleSystem.particleCreationQueue s).

(** The systems a program reaches from the constructor through the public
    surface: creation requests, tag changes, registration of callbacks that
    move no particle, the setters, any access to the particles and springs
    that moves no particle ([applyForce], [setVelocity], [setMass],
    [setRemoveFlag], [spring.remove()] ...), and completed ticks. *)
Inductive reachable `{MathSqrt} : ParticleSystem.t → Prop :=
| reachable_new b cellSize maxParticles maxDensity :
    reachable (ParticleSystem.new b cellSize maxParticles maxDensity)
| reachable_createParticle s pos allowOutside r s' :
    reachable s →
    ParticleSystem.createParticle pos allowOutside s = Ok (r, s') →
    reachable s'
| reachable_createSpring s a b restLength k :
    reachable s →
    reachable (snd (ParticleSystem.createSpring a b restLength k s))
| reachable_addTag s p tag :
    reachable s → reachable (ParticleSystem.particle_addTag p tag s)
| reachable_removeTag s p tag :
    reachable s → reachable (ParticleSystem.particle_removeTag p tag s)
| reachable_addParticleBehavior s fn f :
    (∀ p, keeps_positions (fn p)) →
    reachable s → reachable (ParticleSystem.addParticleBehavior fn f s)
| reachable_addParticleInteraction s fn f nf :
    (∀ p ns, keeps_positions (fn p ns)) →
    reachable s → reachable (ParticleSystem.addParticleInteraction fn f nf s)
| reachable_addSymmetricParticleInteraction s fn f :
    (∀ a b, keeps_positions (fn a b)) →
    reachable s →
    reachable (ParticleSystem.addSymmetricParticleInteraction fn f s)
| reachable_setMaxParticles s n :
    reachable s → reachable (ParticleSystem.setMaxParticles n s)
| reachable_setMaxForce s n :
    reachable s → reachable (ParticleSystem.setMaxForce n s)
| reachable_setMaxDensity s d :
    reachable s → reachable (ParticleSystem.setMaxDensity d s)
| reachable_objects s f :
    keeps_positions f →
    reachable s → reachable (ParticleSystem.set_heap (f (ParticleSystem.heap s)) s)
| reachable_update s s' :
    reachable s → ParticleSystem.update s = Ok s' → reachable s'.

(** [created200] with its particle tagged [a], after one tick. *)
Definition ticked200 : ParticleSystem.t :=
  match ParticleSystem.update (H := exactSqrt)
          (ParticleSystem.particle_addTag 0%nat "a" created200) with
  | Ok s => s
  | Throw _ => created200
  end.
(** ** Well-formed systems and the errors of a tick *)

(** A filter whose [and] list, when present, is not empty: the one shape
    of filter on which [TagIndex.query] throws. *)
Definition filter_ok (f : Filter) : Prop := f_and f ≠ Some [].

(** Every registered filter is well formed. *)
Definition filters_ok (s : ParticleSystem.t) : Prop :=
  (∀ b f, (b, f) ∈ ParticleSystem.behaviors s → filter_ok f)
  ∧ (∀ i f nf, (i, f, nf) ∈ ParticleSystem.interactions s →
               filter_ok f ∧ filter_ok nf)
  ∧ (∀ i f, (i, f) ∈ ParticleSystem.symmetricInteractions s → filter_ok f).

(** The queued particles lie within the bounds of the grid. *)
Definition in_bounds (g : SpatialGrid.t) (h : Heap) (p : PId) : bool :=
  BoundingBox.containsVector (SpatialGrid.bounds g)
                             (Particle.position (particle h p)).

Definition queue_in_bounds (s : ParticleSystem.t) : Prop :=
  Forall (fun p => in_bounds (ParticleSystem.grid s) (ParticleSystem.heap s) p
                   = true)
         (ParticleSystem.particleCreationQueue s).

(** What no operation of the grid changes: its box, cell size, row and
    column counts and number of cells. *)
Definition same_shape (g g' : SpatialGrid.t) : Prop :=
  SpatialGrid.bounds g' = SpatialGrid.bounds g
  ∧ SpatialGrid.cellSize g' = SpatialGrid.cellSize g
  ∧ SpatialGrid.rows g' = SpatialGrid.rows g
  ∧ SpatialGrid.cols g' = SpatialGrid.cols g
  ∧ length (SpatialGrid.cells g') = length (SpatialGrid.cells g).

(** The flat list of the grid and the member list of its global index
    hold the same particles in the same order. *)
Definition synced (g : SpatialGrid.t) : Prop :=
  TagIndex.particles (SpatialGrid.globalTagIndex g) = SpatialGrid.particles g.

(** ** Boxes *)

(** A box whose corners are in order on every axis, as the constructor
    builds it from non-negative dimensions. *)
Definition box_ok (b : BoundingBox.t) : Prop :=
  (Vector3.x (BoundingBox.topBackLeft b)
   <= Vector3.x (BoundingBox.bottomFrontRight b))%Q
  ∧ (Vector3.y (BoundingBox.topBackLeft b)
     <= Vector3.y (BoundingBox.bottomFrontRight b))%Q
  ∧ (Vector3.z (BoundingBox.topBackLeft b)
     <= Vector3.z (BoundingBox.bottomFrontRight b))%Q.

(** Two vectors with equal components (as numbers). *)
Definition same_vector (v w : Vector3.t) : Prop :=
  (Vector3.x v == Vector3.x w)%Q ∧ (Vector3.y v == Vector3.y w)%Q
  ∧ (Vector3.z v == Vector3.z w)%Q.

(** A system as the constructor builds it from a positive cell size and a
    box of non-negative dimensions: the grid has the constructor's
    geometry, it shares the box of the system, and the corners of the box
    are in order. *)
Definition well_formed (s : ParticleSystem.t) : Prop :=
  geometry (ParticleSystem.bounds s) (ParticleSystem.grid s)
  ∧ SpatialGrid.bounds (ParticleSystem.grid s) = ParticleSystem.bounds s
  ∧ box_ok (ParticleSystem.bounds s).

(** Two particles at (5, 5) and (8, 5) and a spring at rest between them,
    all three queued on the empty 200 x 200 system. *)
Definition linked_queued : ParticleSystem.t :=
  match ParticleSystem.createParticle (Vector3.mk 5 5 0) false system200 with
  | Ok (Some a, s1) =>
      match ParticleSystem.createParticle (Vector3.mk 8 5 0) false s1 with
      | Ok (Some b, s2) => snd (ParticleSystem.createSpring a b 3 1 s2)
      | _ => s1
      end
  | _ => system200
  end.

(** [linked_queued] after the tick that commits the particles and the
    spring. *)
Definition linked_system : ParticleSystem.t :=
  match ParticleSystem.update (H := exactSqrt) linked_queued with
  | Ok s => s
  | Throw _ => linked_queued
  end.

(** [linked_system] after [setRemoveFlag(true)] on particle [0]. *)
Definition doomed_system : ParticleSystem.t :=
  ParticleSystem.set_heap
    (upd_particle 0%nat (Particle.setRemoveFlag true)
                  (ParticleSystem.heap linked_system))
    linked_system.

(** The empty 200 x 200 system after [createParticle((5, 5, 0))], the tick
    that commits the particle, and [setRemoveFlag(true)] on it: a flagged
    live particle with no spring. *)
Definition flagged_system : ParticleSystem.t :=
  match ParticleSystem.update (H := exactSqrt) created200 with
  | Ok s =>
      ParticleSystem.set_heap
        (upd_particle 0%nat (Particle.setRemoveFlag true)
                      (ParticleSystem.heap s)) s
  | Throw _ => created200
  end.

(** [flagged_system] after a tick. *)
Definition flagged_after : ParticleSystem.t :=
  match ParticleSystem.update (H := exactSqrt) flagged_system with
  | Ok s => s
  | Throw _ => flagged_system
  end.

(** ** The tick up to its cleanup *)

(** Phases 1 to 5 of [update()]: the state in which [cleanUpParticles()]
    is called. *)
Definition before_cleanup `{MathSqrt} (s : ParticleSystem.t)
  : result ParticleSystem.t :=
  g1 ← forEachM (SpatialGrid.addParticle (ParticleSystem.heap s))
                (ParticleSystem.particleCreationQueue s)
                (ParticleSystem.grid s);
  let s1 := ParticleSystem.set_particleCreationQueue []
              (ParticleSystem.set_grid g1 s) in
  let s2 := ParticleSystem.set_springCreationQueue []
              (ParticleSystem.set_springs
                 (ParticleSystem.springs s1
                  ++ ParticleSystem.springCreationQueue s1) s1) in
  let s3 := ParticleSystem.set_heap
              (ParticleSystem.updateSprings (ParticleSystem.springs s2)
                                            (ParticleSystem.heap s2)) s2 in
  h4 ← ParticleSystem.updateBehaviors s3;
  let gh5 := ParticleSystem.updateParticles (ParticleSystem.maxForce s3)
                                            (ParticleSystem.grid s3, h4) in
  Ok (ParticleSystem.set_heap (snd gh5)
        (ParticleSystem.set_grid (fst gh5) s3)).

(** The springs the cleanup phase finds flagged: the active springs whose
    removal flag is set, and those in the connection list of a live
    particle that is flagged for removal ([removeParticle] flags them
    through [detachSprings]). *)
Definition collected (s : ParticleSystem.t) (sp : SId) : Prop :=
  sp ∈ ParticleSystem.springs s
  ∧ (Spring.shouldRemove (ParticleSystem.heap s) sp = true
     ∨ ∃ p, p ∈ TagIndex.particles
                  (SpatialGrid.globalTagIndex (ParticleSystem.grid s))
            ∧ Particle.shouldRemove (particle (ParticleSystem.heap s) p)
              = true
            ∧ sp ∈ Particle.connections (particle (ParticleSystem.heap s) p)).

(** ** Spatial queries *)

(** The cell [(cx, cy)] is a cell of the grid within [r] cells of the cell
    of the position [centre], in the Chebyshev distance. *)
Definition near (g : SpatialGrid.t) (centre : Vector3.t) (r : Z) (cx cy : Z)
  : Prop :=
  in_grid g cx cy
  ∧ Z.abs (cx - Qfloor (Vector3.x centre / SpatialGrid.cellSize g)) ≤ r
  ∧ Z.abs (cy - Qfloor (Vector3.y centre / SpatialGrid.cellSize g)) ≤ r.

(** ** Tag indexes *)

(** The array an index holds for a tag; an absent tag has no entity. *)
Definition tagged (i : TagIndex.t) (tag : Tag) : list PId :=
  default [] (TagIndex.tagIndex i !! tag).

(** No tag array holds an entity twice. *)
Definition tags_nodup (i : TagIndex.t) : Prop :=
  ∀ tag arr, TagIndex.tagIndex i !! tag = Some arr → NoDup arr.

(** ** Filling *)

(** Whether [checkPosition(pos)] accepts the position. *)
Definition admits (s : ParticleSystem.t) (pos : Vector3.t) : bool :=
  match ParticleSystem.checkPosition s pos 1 with
  | Ok b => b
  | Throw _ => false
  end.

(** The points the [n] iterations of [fill] draw, in order. *)
Fixpoint draws (rand : nat → Q) (k n : nat) (dim : Z) (b : BoundingBox.t)
  : list Vector3.t :=
  match n with
  | O => []
  | S n' =>
      BoundingBox.getRandomPointInside b dim
        (rand k) (rand (S k)) (rand (S (S k)))
      :: draws rand (if decide (dim = 3) then (k + 3)%nat else (k + 2)%nat)
               n' dim b
  end.

(** What [createParticle] leaves alone: everything [checkPosition] reads. *)
Definition same_admission (s s' : ParticleSystem.t) : Prop :=
  ParticleSystem.grid s' = ParticleSystem.grid s
  ∧ ParticleSystem.bounds s' = ParticleSystem.bounds s
  ∧ ParticleSystem.maxParticles s' = ParticleSystem.maxParticles s
  ∧ ParticleSystem.maxDensity s' = ParticleSystem.maxDensity s.

(** ** Behaviours.js *)

(** The callbacks the repository registers with the system.  They use the
    vector operations of [Vector3] above. *)
Module Behaviours.

(** [dampenVelocity(factor)]: [particle.velocity.mult(factor)]. *)
Definition dampenVelocity (factor : Q) : ParticleSystem.Behavior :=
  fun p h =>
    upd_particle p
      (fun obj => Particle.set_velocity
                    (Vector3.mult (Particle.velocity obj) factor) obj) h.

(** [repelFromPoint(point, threshold, forceMag)]:
<<
    let diff = Vector3.sub(point, particle.getPosition());
    if (diff.magnitude() < threshold) {
      diff.setMag(-forceMag);
      particle.applyForce(diff);
    }
>> *)
Definition repelFromPoint `{MathSqrt} (point : Vector3.t)
           (threshold forceMag : Q) : ParticleSystem.Behavior :=
  fun p h =>
    let diff := Vector3.sub point (Particle.position (particle h p)) in
    if ParticleSystem.Qltb (Vector3.magnitude diff) threshold
    then upd_particle p
           (Particle.applyForce (Vector3.setMag diff (- forceMag))) h
    else h.

(** [symmetricParticleForce(interactionRange = 10, forceFactor = 0.01)]:
<<
    let diff = Vector3.sub(particleA.getPosition(), particleB.getPosition());
    let dist = diff.magnitude();
    if (dist < interactionRange) {
      let factor = forceFactor / (dist * dist + 0.01);
      diff.mult(factor);
      particleA.applyForce(diff);
      diff.mult(-1);
      particleB.applyForce(diff);
    }
>> *)
Definition symmetricParticleForce `{MathSqrt}
           (interactionRange forceFactor : Q)
  : ParticleSystem.SymmetricInteraction :=
  fun a b h =>
    let diff := Vector3.sub (Particle.position (particle h a))
                            (Particle.position (particle h b)) in
    let dist := Vector3.magnitude diff in
    if ParticleSystem.Qltb dist interactionRange then
      let factor := (forceFactor / (dist * dist + (1 # 100)))%Q in
      let diff1 := Vector3.mult diff factor in
      let h1 := upd_particle a (Particle.applyForce diff1) h in
      upd_particle b (Particle.applyForce (Vector3.mult diff1 (-1))) h1
    else h.

(** [applyConnectionCentroidForce(coefficient)]:
<<
    if (particle.getConnections().length > 0) {
      let centroid = new Vector3();
      particle.getConnections().forEach((conn) => {
        let other = conn.other(particle);
        if (other) centroid.addVector(other.getPosition());
      });
      centroid.div(particle.getConnections().length);
      let steer = Vector3.sub(centroid, particle.getPosition());
      steer.mult(coefficient);
      particle.applyForce(steer);
    }
>> *)
Definition applyConnectionCentroidForce (coefficient : Q)
  : ParticleSystem.Behavior :=
  fun p h =>
    let conns := Particle.connections (particle h p) in
    match conns with
    | [] => h
    | _ :: _ =>
        let centroid :=
          forEach (fun conn c =>
                     match Spring.other h conn p with
                     | Some other =>
                         Vector3.addVector c
                           (Particle.position (particle h other))
                     | None => c
                     end) conns Vector3.zero in
        let mean :=
          Vector3.div centroid (inject_Z (Z.of_nat (length conns))) in
        let steer :=
          Vector3.mult
            (Vector3.sub mean (Particle.position (particle h p)))
            coefficient in
        upd_particle p (Particle.applyForce steer) h
    end.

(** [pointAttractionBehavior(range = 10, strength = 0.01)]:
<<
    neighbors.forEach((neighbor) => {
      const diff = Vector3.sub(attractor.getPosition(), neighbor.getPosition());
      const dist = diff.magnitude();
      if (dist < range) {
        const factor = strength / (dist * dist + 0.01);
        diff.mult(factor);
        attractor.applyForce(diff);
      }
    });
>> *)
Definition pointAttractionBehavior `{MathSqrt} (range strength : Q)
  : ParticleSystem.Interaction :=
  fun attractor neighbors h =>
    forEach (fun neighbor h =>
               let diff :=
                 Vector3.sub (Particle.position (particle h attractor))
                             (Particle.position (particle h neighbor)) in
               let dist := Vector3.magnitude diff in
               if ParticleSystem.Qltb dist range then
                 let factor := (strength / (dist * dist + (1 # 100)))%Q in
                 upd_particle attractor
                   (Particle.applyForce (Vector3.mult diff factor)) h
               else h)
            neighbors h.

(** The helper [computeMag(d)] of [repulseFromEdgesBehavior]:
<<
    if (d < 0) return falloff;
    if (d < threshold) return force / (d + 1);
    return 0;
>> *)
Definition computeMag (threshold force falloff d : Q) : Q :=
  if ParticleSystem.Qltb d 0 then falloff
  else if ParticleSystem.Qltb d threshold then (force / (d + 1))%Q
       else 0%Q.

(** The helper [applyIf(dist, direction)]:
<<
    const mag = computeMag(dist);
    if (mag > 0) { direction.setMag(mag); particle.applyForce(direction); }
>> *)
Definition applyIf `{MathSqrt} (threshold force falloff : Q) (p : PId)
           (dist : Q) (direction : Vector3.t) (h : Heap) : Heap :=
  let mag := computeMag threshold force falloff dist in
  if ParticleSystem.Qltb 0 mag
  then upd_particle p (Particle.applyForce (Vector3.setMag direction mag)) h
  else h.

(** [repulseFromEdgesBehavior(bounds, threshold = 10, force = 5,
    falloff = 0.02)]: the left, right, top and bottom edges in turn. *)
Definition repulseFromEdgesBehavior `{MathSqrt} (bounds : BoundingBox.t)
           (threshold force falloff : Q) : ParticleSystem.Behavior :=
  fun p h =>
    let min := BoundingBox.topBackLeft bounds in
    let max := BoundingBox.bottomFrontRight bounds in
    let pos := Particle.position (particle h p) in
    let go := applyIf threshold force falloff p in
    let h1 := go (Vector3.x pos - Vector3.x min)%Q (Vector3.mk 1 0 0) h in
    let h2 := go (Vector3.x max - Vector3.x pos)%Q (Vector3.mk (-1) 0 0) h1 in
    let h3 := go (Vector3.y pos - Vector3.y min)%Q (Vector3.mk 0 1 0) h2 in
    go (Vector3.y max - Vector3.y pos)%Q (Vector3.mk 0 (-1) 0) h3.

(** [dampenVelocityBehavior(factor)]:
    [particle.getVelocity().mult(factor)]. *)
Definition dampenVelocityBehavior (factor : Q) : ParticleSystem.Behavior :=
  fun p h =>
    upd_particle p
      (fun obj => Particle.set_velocity
                    (Vector3.mult (Particle.velocity obj) factor) obj) h.

End Behaviours.

(** The difference of the positions of two particles, and its length. *)
Definition separation (h : Heap) (a b : PId) : Vector3.t :=
  Vector3.sub (Particle.position (particle h a))
              (Particle.position (particle h b)).

Definition distance `{MathSqrt} (h : Heap) (a b : PId) : Q :=
  Vector3.magnitude (separation h a b).

(** ** Vec3.js *)

(** The class [Vector3] of Vec3.js extends the [Vec3] of the wtc-math
    package; the members below are those it defines itself without calling
    into the package. *)
Module Vec3.

(** [swapXY()] *)
Definition swapXY (v : Vector3.t) : Vector3.t :=
  Vector3.mk (Vector3.y v) (Vector3.x v) (Vector3.z v).

(** [get fastLength()]:
<<
    const absX = Math.abs(this.x);
    const absY = Math.abs(this.y);
    return absX > absY
      ? 0.41 * absY + 0.941246 * absX
      : 0.41 * absX + 0.941246 * absY;
>> *)
Definition fastLength (v : Vector3.t) : Q :=
  let absX := Qabs (Vector3.x v) in
  let absY := Qabs (Vector3.y v) in
  if ParticleSystem.Qltb absY absX
  then ((41 # 100) * absY + (941246 # 1000000) * absX)%Q
  else ((41 # 100) * absX + (941246 # 1000000) * absY)%Q.

End Vec3.

(** ** The random number generator *)

Module Random.

(** [ToInt32] and [ToUint32] of an integer. *)
Definition toInt32 (z : Z) : Z := (z + 2 ^ 31) `mod` 2 ^ 32 - 2 ^ 31.
Definition toUint32 (z : Z) : Z := z `mod` 2 ^ 32.

(** [Math.imul(a, b)] *)
Definition imul (a b : Z) : Z := toInt32 (toInt32 a * toInt32 b).

(** [a >>> n], for [0 <= n < 32] *)
Definition ushr (a n : Z) : Z := Z.shiftr (toUint32 a) n.

(** One call of the function [prng(seed)] returns: the new value of the
    captured [seed] and the number returned.
<<
    seed |= 0;
    seed = (seed + 0x6d2b79f5) | 0;
    let t = Math.imul(seed ^ (seed >>> 15), 1 | seed);
    t = (t + Math.imul(t ^ (t >>> 7), 61 | t)) ^ t;
    return ((t ^ (t >>> 14)) >>> 0) / 0x100000000;
>> *)
Definition prng (seed : Z) : Z * Q :=
  let seed0 := toInt32 seed in
  let seed1 := toInt32 (seed0 + 1831565813) in
  let t1 := imul (Z.lxor seed1 (ushr seed1 15)) (Z.lor 1 seed1) in
  let t2 := Z.lxor (toInt32 (t1 + imul (Z.lxor t1 (ushr t1 7)) (Z.lor 61 t1)))
                   t1 in
  (seed1,
   (inject_Z (toUint32 (Z.lxor t2 (ushr t2 14))) / inject_Z (2 ^ 32))%Q).

(** The seed and the numbers of [n] calls in a row. *)
Fixpoint prng_calls (n : nat) (seed : Z) : Z * list Q :=
  match n with
  | O => (seed, [])
  | S n' =>
      let '(seed1, v) := prng seed in
      let '(seed2, vs) := prng_calls n' seed1 in
      (seed2, v :: vs)
  end.

End Random.

(** ** Utils.js: colours *)

Module Utils.

(** [(hexColor >> shift) & 255] *)
Definition channel (hexColor shift : Z) : Z :=
  Z.land (Z.shiftr (Random.toInt32 hexColor) shift) 255.

(** [hexColorToNormalizedRgbArray(hexColor)]: [[r, g, b]], each in 0-1. *)
Definition hexColorToNormalizedRgbArray (hexColor : Z) : list Q :=
  [(inject_Z (channel hexColor 16) / 255)%Q;
   (inject_Z (channel hexColor 8) / 255)%Q;
   (inject_Z (Z.land (Random.toInt32 hexColor) 255) / 255)%Q].

(** [clampValue(value, min, max)]:
    [Math.min(Math.max(value, min), max)]. *)
Definition clampValue (value min max : Q) : Q :=
  BoundingBox.Qmin (BoundingBox.Qmax value min) max.

(** [Math.round]: the nearest integer, halves going up. *)
Definition Math_round (q : Q) : Z := Qfloor (q + (1 # 2)).

(** [(r << 16) | (g << 8) | b] *)
Definition pack (r g b : Z) : Z :=
  Z.lor (Z.lor (Random.toInt32 (Z.shiftl (Random.toInt32 r) 16))
               (Random.toInt32 (Z.shiftl (Random.toInt32 g) 8)))
        (Random.toInt32 b).

(** [lerpHexColors(hexColor1, hexColor2, amount)] *)
Definition lerpHexColors (hexColor1 hexColor2 : Z) (amount : Q) : Z :=
  let amount := clampValue amount 0 1 in
  let r1 := channel hexColor1 16 in
  let g1 := channel hexColor1 8 in
  let b1 := Z.land (Random.toInt32 hexColor1) 255 in
  let r2 := channel hexColor2 16 in
  let g2 := channel hexColor2 8 in
  let b2 := Z.land (Random.toInt32 hexColor2) 255 in
  let r := Math_round (inject_Z r1 + (inject_Z r2 - inject_Z r1) * amount) in
  let g := Math_round (inject_Z g1 + (inject_Z g2 - inject_Z g1) * amount) in
  let b := Math_round (inject_Z b1 + (inject_Z b2 - inject_Z b1) * amount) in
  pack r g b.

End Utils.

(** * Properties *)

(** ** Arrays: [indexOf] and [splice] *)

Lemma indexOf_ge (x : nat) (l : list nat) : -1 ≤ indexOf x l.
Proof.
  induction l as [|y l IH]; simpl; [lia|].
  destruct (decide (x = y)); [lia|].
  destruct (indexOf x l <? 0) eqn:E; [lia|]. apply Z.ltb_ge in E. lia.
Qed.

Lemma indexOf_not_in (x : nat) (l : list nat) : x ∉ l → indexOf x l = -1.
Proof.
  induction l as [|y l IH]; simpl; [done|].
  intros Hn. apply not_elem_of_cons in Hn as [Hne Hn].
  destruct (decide (x = y)); [done|]. rewrite (IH Hn). reflexivity.
Qed.

Lemma indexOf_in (x : nat) (l : list nat) : x ∈ l → 0 ≤ indexOf x l.
Proof.
  induction l as [|y l IH]; simpl.
  - intros H. by apply elem_of_nil in H.
  - intros H. destruct (decide (x = y)); [lia|].
    apply elem_of_cons in H as [?|H]; [done|]. specialize (IH H).
    destruct (indexOf x l <? 0) eqn:E; [apply Z.ltb_lt in E; lia|lia].
Qed.

(** [spliceOut] removes the first occurrence. *)
Lemma spliceOut_nil (x : nat) : spliceOut x [] = [].
Proof. reflexivity. Qed.

Lemma spliceOut_cons (x y : nat) (l : list nat) :
  spliceOut x (y :: l) = if decide (x = y) then l else y :: spliceOut x l.
Proof.
  unfold spliceOut. simpl. destruct (decide (x = y)); [reflexivity|].
  pose proof (indexOf_ge x l) as Hge.
  destruct (indexOf x l <? 0) eqn:E.
  - apply Z.ltb_lt in E.
    replace (0 <=? indexOf x l) with false by (symmetry; apply Z.leb_gt; lia).
    reflexivity.
  - apply Z.ltb_ge in E.
    replace (0 <=? indexOf x l + 1) with true by (symmetry; apply Z.leb_le; lia).
    replace (0 <=? indexOf x l) with true by (symmetry; apply Z.leb_le; lia).
    replace (Z.to_nat (indexOf x l + 1)) with (S (Z.to_nat (indexOf x l))) by lia.
    reflexivity.
Qed.

Lemma spliceOut_not_in (x : nat) (l : list nat) : x ∉ l → spliceOut x l = l.
Proof.
  intros Hn. unfold spliceOut. rewrite (indexOf_not_in x l Hn). reflexivity.
Qed.

Lemma elem_of_spliceOut (x y : nat) (l : list nat) :
  y ∈ spliceOut x l → y ∈ l.
Proof.
  induction l as [|z l IH]; [done|]. rewrite spliceOut_cons.
  destruct (decide (x = z)).
  - intros H. by apply elem_of_cons; right.
  - intros H. apply elem_of_cons in H as [->|H].
    + apply elem_of_cons; by left.
    + apply elem_of_cons; right. by apply IH.
Qed.

Lemma elem_of_spliceOut_ne (x y : nat) (l : list nat) :
  y ≠ x → y ∈ l → y ∈ spliceOut x l.
Proof.
  intros Hne. induction l as [|z l IH]; [done|]. rewrite spliceOut_cons.
  intros H. apply elem_of_cons in H as [->|H].
  - destruct (decide (x = z)); [congruence|]. apply elem_of_cons; by left.
  - destruct (decide (x = z)); [done|]. apply elem_of_cons; right. by apply IH.
Qed.

Lemma NoDup_spliceOut (x : nat) (l : list nat) :
  NoDup l → NoDup (spliceOut x l).
Proof.
  induction 1 as [|z l Hz Hl IH]; [constructor|]. rewrite spliceOut_cons.
  destruct (decide (x = z)); [done|]. constructor; [|done].
  intros H. apply Hz. by apply elem_of_spliceOut in H.
Qed.

Lemma not_elem_of_spliceOut (x : nat) (l : list nat) :
  NoDup l → x ∉ spliceOut x l.
Proof.
  induction 1 as [|z l Hz Hl IH]; [apply not_elem_of_nil|].
  rewrite spliceOut_cons. destruct (decide (x = z)) as [->|Hne]; [done|].
  apply not_elem_of_cons. done.
Qed.

Lemma elem_of_spliceOut_iff (x y : nat) (l : list nat) :
  NoDup l → (y ∈ spliceOut x l ↔ y ∈ l ∧ y ≠ x).
Proof.
  intros Hl. split.
  - intros H. split; [by apply elem_of_spliceOut in H|].
    intros ->. by apply (not_elem_of_spliceOut x l).
  - intros [H Hne]. by apply elem_of_spliceOut_ne.
Qed.

Lemma includes_true (x : nat) (l : list nat) : includes x l = true ↔ x ∈ l.
Proof. unfold includes. apply bool_decide_eq_true. Qed.

Lemma includes_false (x : nat) (l : list nat) : includes x l = false ↔ x ∉ l.
Proof. unfold includes. apply bool_decide_eq_false. Qed.

(** ** The error monad *)

Lemma bind_Ok {A B : Type} (r : result A) (f : A → result B) (b : B) :
  (r ≫= f) = Ok b ↔ ∃ a, r = Ok a ∧ f a = Ok b.
Proof.
  destruct r as [a|e]; simpl.
  - split; [intros H; by exists a|intros (a' & [= <-] & H); done].
  - split; [done|intros (a' & H & _); done].
Qed.

Lemma forEachM_app {A S : Type} (f : A → S → result S) (l1 l2 : list A) (s : S) :
  forEachM f (l1 ++ l2) s = (forEachM f l1 s ≫= forEachM f l2).
Proof.
  revert s. induction l1 as [|a l1 IH]; intros s; simpl; [done|].
  destruct (f a s) as [s'|e]; simpl; [apply IH|done].
Qed.

(** An invariant of a loop whose body can throw. *)
Lemma forEachM_invariant {A S : Type} (P : S → Prop) (f : A → S → result S)
      (l : list A) (s s' : S) :
  (∀ a s1 s2, a ∈ l → P s1 → f a s1 = Ok s2 → P s2) →
  P s → forEachM f l s = Ok s' → P s'.
Proof.
  revert s. induction l as [|a l IH]; intros s Hstep Hs; simpl.
  - by intros [= <-].
  - intros H. apply bind_Ok in H as (s1 & H1 & H2).
    apply (IH s1); [| |done].
    + intros a' t1 t2 Ha'. apply Hstep. by apply elem_of_cons; right.
    + apply (Hstep a s s1); [apply elem_of_cons; by left|done|done].
Qed.

Lemma forEach_invariant {A S : Type} (P : S → Prop) (f : A → S → S)
      (l : list A) (s : S) :
  (∀ a s1, a ∈ l → P s1 → P (f a s1)) → P s → P (forEach f l s).
Proof.
  unfold forEach. revert s. induction l as [|a l IH]; intros s Hstep Hs; simpl.
  - done.
  - apply IH.
    + intros a' t1 Ha'. apply Hstep. by apply elem_of_cons; right.
    + apply Hstep; [apply elem_of_cons; by left|done].
Qed.

Lemma forEach_cons {A S : Type} (f : A → S → S) (a : A) (l : list A) (s : S) :
  forEach f (a :: l) s = forEach f l (f a s).
Proof. reflexivity. Qed.

Lemma forEach_app {A S : Type} (f : A → S → S) (l1 l2 : list A) (s : S) :
  forEach f (l1 ++ l2) s = forEach f l2 (forEach f l1 s).
Proof. unfold forEach. apply fold_left_app. Qed.

(** ** TagIndex: members and tag arrays *)

Lemma addTag_particles (p : PId) (tag : Tag) (i : TagIndex.t) :
  TagIndex.particles (TagIndex.addTag p tag i) = TagIndex.particles i.
Proof. unfold TagIndex.addTag. by destruct (includes _ _). Qed.

Lemma removeTag_particles (p : PId) (tag : Tag) (i : TagIndex.t) :
  TagIndex.particles (TagIndex.removeTag p tag i) = TagIndex.particles i.
Proof. unfold TagIndex.removeTag. by destruct (_ !! _). Qed.

Lemma add_particles (h : Heap) (p : PId) (i : TagIndex.t) :
  TagIndex.particles (TagIndex.add h p i) = TagIndex.particles i ++ [p].
Proof.
  unfold TagIndex.add.
  apply (forEach_invariant
           (fun j => TagIndex.particles j = TagIndex.particles i ++ [p])).
  - intros tag j _ Hj. by rewrite addTag_particles.
  - reflexivity.
Qed.

Lemma remove_particles (h : Heap) (p : PId) (i : TagIndex.t) :
  TagIndex.particles (TagIndex.remove h p i)
  = spliceOut p (TagIndex.particles i).
Proof.
  unfold TagIndex.remove.
  apply (forEach_invariant
           (fun j => TagIndex.particles j = spliceOut p (TagIndex.particles i))).
  - intros tag j _ Hj. by rewrite removeTag_particles.
  - reflexivity.
Qed.

(** The tag arrays after [removeTag]. *)
Lemma removeTag_lookup (p : PId) (tag t : Tag) (i : TagIndex.t) :
  TagIndex.tagIndex (TagIndex.removeTag p tag i) !! t
  = if decide (tag = t)
    then spliceOut p <$> TagIndex.tagIndex i !! t
    else TagIndex.tagIndex i !! t.
Proof.
  unfold TagIndex.removeTag. destruct (decide (tag = t)) as [->|Hne].
  - destruct (TagIndex.tagIndex i !! t) as [arr|] eqn:E; simpl.
    + by rewrite lookup_insert_eq.
    + by rewrite E.
  - destruct (TagIndex.tagIndex i !! tag) as [arr|] eqn:E; simpl; [|done].
    by rewrite lookup_insert_ne.
Qed.





Lemma fold_or_concat (i : TagIndex.t) (tags : list Tag) (acc : list PId) :
  fold_left (fun result tag =>
               match TagIndex.tagIndex i !! tag with
               | Some arr => result ++ arr
               | None => result
               end) tags acc
  = acc ++ concat (map (fun tag => default [] (TagIndex.tagIndex i !! tag)) tags).
Proof.
  revert acc. induction tags as [|tag tags IH]; intros acc; simpl.
  - symmetry. apply app_nil_r.
  - rewrite IH. destruct (TagIndex.tagIndex i !! tag); simpl.
    + symmetry. apply app_assoc.
    + reflexivity.
Qed.

(** [TagIndex.query] with an or-filter is the concatenation of the listed
    tags' arrays, in the order of the list. *)
Lemma query_or_concat (i : TagIndex.t) (tags : list Tag) :
  TagIndex.query i (orFilter tags)
  = Ok (concat (map (fun tag => default [] (TagIndex.tagIndex i !! tag)) tags)).
Proof.
  unfold TagIndex.query, orFilter, forEach; simpl.
  f_equal. apply fold_or_concat.
Qed.

(** C2. An entity that carries two of the requested tags is returned twice
    by an or-query: the index built by [add] for particle [0] tagged [a] and
    [b] answers [{or: [a, b]}] with [[0; 0]]. *)
Example or_query_repeats_entity :
  TagIndex.query (TagIndex.add heap_ab 0%nat TagIndex.new)
                 (orFilter ["a"; "b"])
  = Ok [0%nat; 0%nat].
Proof. vm_compute. reflexivity. Qed.

(** C8. The filter [{and: []}] makes [query] raise a TypeError, whatever the
    index holds: the reduce has no initial value. *)
Theorem and_empty_query_throws (i : TagIndex.t) :
  TagIndex.query i (andFilter []) = Throw TypeError.
Proof. reflexivity. Qed.

(** C3. [update] leaves the z component of the force accumulator in place:
    a unit-mass particle with accumulated force (0, 0, 1) still has
    (0, 0, 1) accumulated after the step, and its velocity took it. *)
Example update_keeps_force_z `{MathSqrt} :
  let p := Particle.set_forces (Vector3.mk 0 0 1)
             (Particle.new Vector3.zero true) in
  Particle.forces (Particle.update (-1) p) = Vector3.mk 0 0 1
  ∧ Particle.velocity (Particle.update (-1) p) = Vector3.mk 0 0 1.
Proof. split; reflexivity. Qed.

(** C5. A particle that was created and then tagged is found by tag
    before it is committed: on the empty 200 x 200 system,
    [createParticle((5, 5, 0))] followed by [addTag(plant)] leaves the
    particle in the creation queue and out of the grid's flat list, the
    unfiltered query does not return it, and both the non-spatial and the
    spatial query for [{or: [plant]}] return it, with no tick in between. *)
Example queued_particle_found_by_tag :
  ∃ p s1,
    ParticleSystem.createParticle (Vector3.mk 5 5 0) false system200
    = Ok (Some p, s1)
    ∧ let s2 := ParticleSystem.particle_addTag p "plant" s1 in
      ParticleSystem.particleCreationQueue s2 = [p]
      ∧ SpatialGrid.particles (ParticleSystem.grid s2) = []
      ∧ ParticleSystem.query s2 (mkQuery noFilter None) = Ok []
      ∧ ParticleSystem.query s2 (mkQuery (orFilter ["plant"]) None) = Ok [p]
      ∧ ParticleSystem.query s2
          (mkQuery (orFilter ["plant"])
                   (Some (mkPosition (Vector3.mk 5 5 0) 1))) = Ok [p].
Proof.
  eexists _, _. split; [vm_compute; reflexivity|].
  repeat split; vm_compute; reflexivity.
Qed.

(** ** Rational arithmetic of the grid *)

Lemma Qltb_lt (a b : Q) : ParticleSystem.Qltb a b = true ↔ (a < b)%Q.
Proof.
  unfold ParticleSystem.Qltb. rewrite negb_true_iff.
  split; intros Hab.
  - apply Qnot_le_lt. intros Hle. apply Qle_bool_iff in Hle. congruence.
  - destruct (Qle_bool b a) eqn:E; [|reflexivity].
    apply Qle_bool_iff in E. exfalso. by apply (Qlt_not_le a b).
Qed.

(** A coordinate inside [[0, dim]] falls in a column (row) of the grid. *)
Lemma floor_in_range (v dim cs : Q) :
  (0 < cs)%Q → (0 <= v)%Q → (v <= dim)%Q →
  0 ≤ Qfloor (v / cs) < Qceiling ((dim - 0 + cs) / cs).
Proof.
  intros Hcs H0 Hdim. split.
  - change 0 with (Qfloor 0). apply Qfloor_resp_le.
    apply Qle_shift_div_l; [done|]. by rewrite Qmult_0_l.
  - rewrite Zlt_Qlt.
    apply Qle_lt_trans with (v / cs)%Q; [apply Qfloor_le|].
    apply Qlt_le_trans with ((dim - 0 + cs) / cs)%Q; [|apply Qle_ceiling].
    assert (Hone : ((dim - 0 + cs) / cs == dim / cs + 1)%Q).
    { field. intros Hz. rewrite Hz in Hcs. by apply Qlt_irrefl in Hcs. }
    rewrite Hone.
    apply Qle_lt_trans with (dim / cs)%Q.
    + apply Qmult_le_compat_r; [done|].
      apply Qlt_le_weak. by apply Qinv_lt_0_compat.
    + rewrite <- (Qplus_0_r (dim / cs)) at 1.
      apply Qplus_lt_r. reflexivity.
Qed.

Lemma contains_bounds (b : BoundingBox.t) (pos : Vector3.t) :
  BoundingBox.topBackLeft b = Vector3.mk 0 0 0 →
  BoundingBox.containsVector b pos = true →
  (0 <= Vector3.x pos)%Q
  ∧ (Vector3.x pos <= Vector3.x (BoundingBox.bottomFrontRight b))%Q
  ∧ (0 <= Vector3.y pos)%Q
  ∧ (Vector3.y pos <= Vector3.y (BoundingBox.bottomFrontRight b))%Q.
Proof.
  intros Htl. unfold BoundingBox.containsVector, BoundingBox.contains.
  rewrite Htl; simpl. rewrite !andb_true_iff, !Qle_bool_iff. tauto.
Qed.

(** A position inside the box lies in a cell of the grid: [hashPosition]
    is not the sentinel and [getCell] on the floor coordinates is the cell
    at that index. *)
Lemma inside_cell (b : BoundingBox.t) (g : SpatialGrid.t) (pos : Vector3.t) :
  geometry b g →
  BoundingBox.containsVector b pos = true →
  let col := Qfloor (Vector3.x pos / SpatialGrid.cellSize g) in
  let row := Qfloor (Vector3.y pos / SpatialGrid.cellSize g) in
  0 ≤ col < SpatialGrid.cols g
  ∧ 0 ≤ row < SpatialGrid.rows g
  ∧ SpatialGrid.hashPosition g pos = row * SpatialGrid.cols g + col
  ∧ ∃ cell, SpatialGrid.getCell g col row = Some cell
            ∧ nth_Z (SpatialGrid.cells g) (SpatialGrid.hashPosition g pos)
              = Some cell.
Proof.
  intros (Htl & Hcs & Hrows & Hcols & Hlen) Hin col row.
  destruct (contains_bounds b pos Htl Hin) as (Hx0 & Hx1 & Hy0 & Hy1).
  assert (Hcol : 0 ≤ col < SpatialGrid.cols g).
  { rewrite Hcols. unfold BoundingBox.getWidth. rewrite Htl; simpl.
    by apply floor_in_range. }
  assert (Hrow : 0 ≤ row < SpatialGrid.rows g).
  { rewrite Hrows. unfold BoundingBox.getHeight. rewrite Htl; simpl.
    by apply floor_in_range. }
  assert (Hhash : SpatialGrid.hashPosition g pos
                  = row * SpatialGrid.cols g + col).
  { unfold SpatialGrid.hashPosition. fold col row.
    replace (col <? 0) with false by (symmetry; apply Z.ltb_ge; lia).
    replace (SpatialGrid.cols g <=? col) with false
      by (symmetry; apply Z.leb_gt; lia).
    replace (row <? 0) with false by (symmetry; apply Z.ltb_ge; lia).
    replace (SpatialGrid.rows g <=? row) with false
      by (symmetry; apply Z.leb_gt; lia).
    reflexivity. }
  repeat split; try lia; try done.
  assert (Hidx : 0 ≤ row * SpatialGrid.cols g + col
                 < SpatialGrid.rows g * SpatialGrid.cols g) by nia.
  destruct (lookup_lt_is_Some_2 (SpatialGrid.cells g)
              (Z.to_nat (row * SpatialGrid.cols g + col))) as [cell Hcell].
  { rewrite Hlen. lia. }
  exists cell. unfold SpatialGrid.getCell, nth_Z. rewrite Hhash.
  replace (col + row * SpatialGrid.cols g)
    with (row * SpatialGrid.cols g + col) by lia.
  replace (row * SpatialGrid.cols g + col <? 0) with false
    by (symmetry; apply Z.ltb_ge; lia).
  done.
Qed.

(** C6. Admission control of [createParticle(pos)] with the density gate
    on.  On a system with the constructor's geometry, [getDensity] never
    throws; the density is [1] outside the box and the member count of the
    containing cell over [cellSize * cellSize] inside; the particle is
    queued exactly when the live population is below [maxParticles] and
    the density is below [maxDensity] and below the per-call cap [1];
    otherwise the call returns [undefined] and leaves the system as it
    was.  A position outside the box is always refused. *)
Theorem createParticle_admission (s : ParticleSystem.t) (pos : Vector3.t) :
  geometry (ParticleSystem.bounds s) (ParticleSystem.grid s) →
  let g := ParticleSystem.grid s in
  let population := inject_Z (Z.of_nat (length (SpatialGrid.particles g))) in
  ∃ dens : Q,
    ParticleSystem.getDensity s pos = Ok dens
    ∧ (BoundingBox.containsVector (ParticleSystem.bounds s) pos = false →
       dens = 1%Q
       ∧ ParticleSystem.createParticle pos false s = Ok (None, s))
    ∧ (BoundingBox.containsVector (ParticleSystem.bounds s) pos = true →
       ∃ cell,
         nth_Z (SpatialGrid.cells g) (SpatialGrid.hashPosition g pos)
         = Some cell
         ∧ dens = (inject_Z (Z.of_nat (length (TagIndex.particles cell)))
                   / (SpatialGrid.cellSize g * SpatialGrid.cellSize g))%Q)
    ∧ ((population < ParticleSystem.maxParticles s)%Q
       ∧ (dens < ParticleSystem.maxDensity s)%Q ∧ (dens < 1)%Q →
       ∃ s',
         ParticleSystem.createParticle pos false s
         = Ok (Some (ParticleSystem.nextParticle s), s')
         ∧ ParticleSystem.particleCreationQueue s'
           = ParticleSystem.particleCreationQueue s
             ++ [ParticleSystem.nextParticle s]
         ∧ ParticleSystem.grid s' = g
         ∧ Particle.position
             (particle (ParticleSystem.heap s') (ParticleSystem.nextParticle s))
           = BoundingBox.constrained (ParticleSystem.bounds s) pos)
    ∧ (¬ ((population < ParticleSystem.maxParticles s)%Q
          ∧ (dens < ParticleSystem.maxDensity s)%Q ∧ (dens < 1)%Q) →
       ParticleSystem.createParticle pos false s = Ok (None, s)).
Proof.
  intros Hgeo g population.
  assert (Hd : ∃ dens, ParticleSystem.getDensity s pos = Ok dens
     ∧ (BoundingBox.containsVector (ParticleSystem.bounds s) pos = false →
        dens = 1%Q)
     ∧ (BoundingBox.containsVector (ParticleSystem.bounds s) pos = true →
        ∃ cell,
          nth_Z (SpatialGrid.cells g) (SpatialGrid.hashPosition g pos)
          = Some cell
          ∧ dens = (inject_Z (Z.of_nat (length (TagIndex.particles cell)))
                    / (SpatialGrid.cellSize g * SpatialGrid.cellSize g))%Q)).
  { unfold ParticleSystem.getDensity.
    destruct (BoundingBox.containsVector (ParticleSystem.bounds s) pos) eqn:Hin;
      cbn [negb].
    - destruct (inside_cell _ _ pos Hgeo Hin) as (_ & _ & _ & cell & Hget & Hnth).
      unfold g. rewrite Hget.
      eexists. split; [reflexivity|]. split; [done|]. intros _. by exists cell.
    - eexists. split; [reflexivity|]. split; [done|]. done. }
  destruct Hd as (dens & Hdens & Hout & Hin). exists dens.
  assert (Hcheck : ParticleSystem.checkPosition s pos 1
     = Ok (ParticleSystem.Qltb population (ParticleSystem.maxParticles s)
           && ParticleSystem.Qltb dens (ParticleSystem.maxDensity s)
           && ParticleSystem.Qltb dens 1)).
  { unfold ParticleSystem.checkPosition. by rewrite Hdens. }
  assert (Hno : ¬ ((population < ParticleSystem.maxParticles s)%Q
          ∧ (dens < ParticleSystem.maxDensity s)%Q ∧ (dens < 1)%Q) →
       ParticleSystem.createParticle pos false s = Ok (None, s)).
  { intros Hn. unfold ParticleSystem.createParticle. rewrite Hcheck. simpl.
    destruct (_ && _ && _) eqn:E; [|reflexivity].
    rewrite !andb_true_iff, !Qltb_lt in E. tauto. }
  split; [done|]. split; [|split; [done|split; [|done]]].
  - intros Hf. split; [by apply Hout|]. apply Hno.
    rewrite (Hout Hf). intros (_ & _ & H1). by apply Qlt_irrefl in H1.
  - intros (H1 & H2 & H3). unfold ParticleSystem.createParticle.
    rewrite Hcheck. simpl.
    replace (_ && _ && _) with true
      by (symmetry; rewrite !andb_true_iff, !Qltb_lt; tauto).
    eexists. split; [reflexivity|]. simpl. repeat split.
    by rewrite fn_lookup_insert.
Qed.

Lemma geometry_system200 :
  geometry (ParticleSystem.bounds system200) (ParticleSystem.grid system200).
Proof. repeat split; vm_compute; reflexivity. Defined.

(** The empty 200 x 200 system accepts a particle at (5, 5) and refuses one
    at (250, 5), outside the box. *)
Lemma createParticle_admission_witness :
  (∃ s', ParticleSystem.createParticle (Vector3.mk 5 5 0) false system200
         = Ok (Some 0%nat, s'))
  ∧ ParticleSystem.createParticle (Vector3.mk 250 5 0) false system200
    = Ok (None, system200).
Proof.
  split.
  - destruct (createParticle_admission system200 (Vector3.mk 5 5 0)
                geometry_system200)
      as (dens & Hd & _ & _ & Hyes & _).
    destruct Hyes as (s' & Hs' & _).
    + vm_compute in Hd. injection Hd as <-. repeat split; reflexivity.
    + by exists s'.
  - destruct (createParticle_admission system200 (Vector3.mk 250 5 0)
                geometry_system200)
      as (dens & _ & Hout & _).
    apply Hout. reflexivity.
Defined.

(** ** SpatialGrid: cells *)

Lemma nth_Z_Some {A : Type} (l : list A) (i : Z) (a : A) :
  nth_Z l i = Some a ↔ 0 ≤ i ∧ l !! Z.to_nat i = Some a.
Proof.
  unfold nth_Z. destruct (i <? 0) eqn:E.
  - apply Z.ltb_lt in E. split; [done|]. intros [? _]. lia.
  - apply Z.ltb_ge in E. tauto.
Qed.

Lemma nth_Z_of_nat {A : Type} (l : list A) (i : nat) :
  nth_Z l (Z.of_nat i) = l !! i.
Proof.
  unfold nth_Z. replace (Z.of_nat i <? 0) with false
    by (symmetry; apply Z.ltb_ge; lia).
  by rewrite Nat2Z.id.
Qed.

(** [hashPosition] is the sentinel or an index. *)
Lemma hashPosition_range (g : SpatialGrid.t) (pos : Vector3.t) :
  SpatialGrid.hashPosition g pos = -1
  ∨ 0 ≤ SpatialGrid.hashPosition g pos
        < SpatialGrid.rows g * SpatialGrid.cols g.
Proof.
  unfold SpatialGrid.hashPosition.
  destruct (_ || _ || _ || _) eqn:E; [by left|right].
  rewrite !orb_false_iff in E. destruct E as (((E1 & E2) & E3) & E4).
  apply Z.ltb_ge in E1, E3. apply Z.leb_gt in E2, E4. nia.
Qed.

Lemma hashPosition_set_cell (g : SpatialGrid.t) (i : Z) (c : TagIndex.t)
      (pos : Vector3.t) :
  SpatialGrid.hashPosition (SpatialGrid.set_cell i c g) pos
  = SpatialGrid.hashPosition g pos.
Proof. reflexivity. Qed.






(** ** Springs: the constraint phase and the cleanup phase *)



(** Splicing out the flagged elements of a list, one by one, leaves the
    others in place. *)
Lemma forEach_spliceOut_cons (a : nat) (xs l : list nat) :
  a ∉ xs →
  forEach spliceOut xs (a :: l) = a :: forEach spliceOut xs l.
Proof.
  revert l. induction xs as [|x xs IH]; intros l Ha; [reflexivity|].
  apply not_elem_of_cons in Ha as [Hne Ha].
  rewrite !forEach_cons, spliceOut_cons.
  destruct (decide (x = a)); [congruence|]. by apply IH.
Qed.

Lemma forEach_spliceOut_filter (P : nat → Prop) `{∀ x, Decision (P x)}
      (l : list nat) :
  forEach spliceOut (filter P l) l = filter (fun x => ¬ P x) l.
Proof.
  induction l as [|a l IH]; [reflexivity|].
  destruct (decide (P a)) as [Ha|Ha].
  - rewrite (filter_cons_True P a l Ha).
    rewrite (filter_cons_False (fun x => ¬ P x)) by tauto.
    rewrite forEach_cons, spliceOut_cons.
    destruct (decide (a = a)); [|done]. exact IH.
  - rewrite (filter_cons_False P a l Ha).
    rewrite (filter_cons_True (fun x => ¬ P x)) by done.
    rewrite forEach_spliceOut_cons; [by rewrite IH|].
    intros Hin. by apply list_elem_of_filter in Hin as [? _].
Qed.

(** *** The cleanup of the springs *)

(** [detachSprings] and [removeParticle] set spring flags and clear
    none. *)
Lemma flag_springs_spec (l : list SId) (h : Heap) (sp : SId) :
  SpringObj.removeFlag
    (spring (forEach (fun conn h =>
                        upd_spring conn (SpringObj.set_removeFlag true) h)
                     l h) sp) = true
  ↔ SpringObj.removeFlag (spring h sp) = true ∨ sp ∈ l.
Proof.
  revert h. induction l as [|c l IH]; intros h.
  - cbn. rewrite elem_of_nil. tauto.
  - rewrite forEach_cons, IH, elem_of_cons.
    unfold upd_spring. cbn [spring].
    destruct (decide (sp = c)) as [->|Hne].
    + rewrite fn_lookup_insert. cbn. tauto.
    + rewrite fn_lookup_insert_ne by done. tauto.
Qed.

Lemma detachSprings_flags (p : PId) (h : Heap) (sp : SId) :
  SpringObj.removeFlag (spring (detachSprings p h) sp) = true
  ↔ SpringObj.removeFlag (spring h sp) = true
    ∨ sp ∈ Particle.connections (particle h p).
Proof. apply flag_springs_spec. Qed.

Lemma removeParticle_heap (p : PId) (g g' : SpatialGrid.t) (h h' : Heap) :
  SpatialGrid.removeParticle p (g, h) = Ok (g', h') → h' = detachSprings p h.
Proof.
  unfold SpatialGrid.removeParticle. intros Hr.
  apply bind_Ok in Hr as (g1 & _ & Hr). by injection Hr as _ <-.
Qed.




(** The second half of the cleanup stops at the first flagged spring: the
    call of [getN1] throws.  It completes only when no active spring is
    flagged, and then it changes nothing. *)
Lemma cleanUpSprings_spec (l : list SId) (h : Heap) :
  match filter (fun s => Spring.shouldRemove h s = true) l with
  | [] => ParticleSystem.cleanUpSprings (l, h) = Ok (l, h)
  | _ :: _ => ParticleSystem.cleanUpSprings (l, h) = Throw TypeError
  end.
Proof.
  unfold ParticleSystem.cleanUpSprings.
  by destruct (filter (fun s => Spring.shouldRemove h s = true) l).
Qed.

Lemma cleanUpSprings_flagged (l : list SId) (h : Heap) (sp : SId) :
  sp ∈ l → Spring.shouldRemove h sp = true →
  ParticleSystem.cleanUpSprings (l, h) = Throw TypeError.
Proof.
  intros Hin Hf. pose proof (cleanUpSprings_spec l h) as Hs.
  destruct (filter (fun s => Spring.shouldRemove h s = true) l) eqn:E;
    [|done].
  assert (Hsp : sp ∈ filter (fun s => Spring.shouldRemove h s = true) l)
    by (apply list_elem_of_filter; by split).
  rewrite E in Hsp. by apply elem_of_nil in Hsp.
Qed.

Lemma cleanUpSprings_Ok (l : list SId) (h : Heap) (r : list SId * Heap) :
  ParticleSystem.cleanUpSprings (l, h) = Ok r →
  r = (l, h) ∧ ∀ sp, sp ∈ l → Spring.shouldRemove h sp = false.
Proof.
  intros Hr. pose proof (cleanUpSprings_spec l h) as Hs.
  destruct (filter (fun s => Spring.shouldRemove h s = true) l) eqn:E;
    [|congruence].
  rewrite Hs in Hr. injection Hr as <-. split; [done|].
  intros sp Hin. destruct (Spring.shouldRemove h sp) eqn:Ef; [|done].
  assert (Hsp : sp ∈ filter (fun s => Spring.shouldRemove h s = true) l)
    by (apply list_elem_of_filter; by split).
  rewrite E in Hsp. by apply elem_of_nil in Hsp.
Qed.

Lemma cleanUpSprings_unflagged (l : list SId) (h : Heap) :
  (∀ sp, sp ∈ l → Spring.shouldRemove h sp = false) →
  ParticleSystem.cleanUpSprings (l, h) = Ok (l, h).
Proof.
  intros Hl. pose proof (cleanUpSprings_spec l h) as Hs.
  destruct (filter (fun s => Spring.shouldRemove h s = true) l) as [|x xs] eqn:E;
    [done|].
  assert (Hx : x ∈ filter (fun s => Spring.shouldRemove h s = true) l)
    by (rewrite E; apply list_elem_of_here).
  apply list_elem_of_filter in Hx as [Hf Hx]. rewrite (Hl x Hx) in Hf. done.
Qed.


(** A cleanup that completes has removed the flagged particles and found
    no flagged spring. *)
Lemma cleanUpParticles_Ok (s s' : ParticleSystem.t) :
  ParticleSystem.cleanUpParticles s = Ok s' →
  ∃ g6 h6,
    forEachM SpatialGrid.removeParticle
      (filter (fun p => Particle.shouldRemove
                          (particle (ParticleSystem.heap s) p) = true)
              (TagIndex.particles
                 (SpatialGrid.globalTagIndex (ParticleSystem.grid s))))
      (ParticleSystem.grid s, ParticleSystem.heap s)
    = Ok (g6, h6)
    ∧ s' = ParticleSystem.set_springs (ParticleSystem.springs s)
             (ParticleSystem.set_heap h6 (ParticleSystem.set_grid g6 s))
    ∧ ∀ sp, sp ∈ ParticleSystem.springs s → Spring.shouldRemove h6 sp = false.
Proof.
  unfold ParticleSystem.cleanUpParticles.
  change (SpatialGrid.query (ParticleSystem.grid s) (mkQuery noFilter None))
    with (Ok (TagIndex.particles
                (SpatialGrid.globalTagIndex (ParticleSystem.grid s)))).
  cbn [mbind result_bind]. intros Hc.
  apply bind_Ok in Hc as ([g6 h6] & H6 & Hc).
  apply bind_Ok in Hc as ([l' h'] & Hs & Hc).
  apply cleanUpSprings_Ok in Hs as [[= -> ->] Hfl].
  injection Hc as <-. by exists g6, h6.
Qed.

(** ** The phases of a tick *)

(** The tick is its first five phases followed by the cleanup. *)
Lemma update_before_cleanup `{MathSqrt} (s : ParticleSystem.t) :
  ParticleSystem.update s
  = before_cleanup s ≫= ParticleSystem.cleanUpParticles.
Proof.
  unfold ParticleSystem.update, before_cleanup.
  destruct (forEachM _ _ _) as [g1|e]; cbn [mbind result_bind]; [|done].
  destruct (ParticleSystem.updateBehaviors _) as [h4|e];
    cbn [mbind result_bind]; [|done].
  by destruct (ParticleSystem.updateParticles _ _).
Qed.

(** A completed tick, phase by phase. *)
Lemma update_phases `{MathSqrt} (s s' : ParticleSystem.t) :
  ParticleSystem.update s = Ok s' →
  let active := ParticleSystem.springs s ++ ParticleSystem.springCreationQueue s in
  ∃ g1 h4 g6 h6,
    let h3 := ParticleSystem.updateSprings active (ParticleSystem.heap s) in
    let s3 := ParticleSystem.set_heap h3
                (ParticleSystem.set_springCreationQueue []
                   (ParticleSystem.set_springs active
                      (ParticleSystem.set_particleCreationQueue []
                         (ParticleSystem.set_grid g1 s)))) in
    let gh5 := ParticleSystem.updateParticles (ParticleSystem.maxForce s) (g1, h4) in
    forEachM (SpatialGrid.addParticle (ParticleSystem.heap s))
             (ParticleSystem.particleCreationQueue s) (ParticleSystem.grid s)
    = Ok g1
    ∧ ParticleSystem.updateBehaviors s3 = Ok h4
    ∧ forEachM SpatialGrid.removeParticle
        (filter (fun p => Particle.shouldRemove (particle (snd gh5) p) = true)
                (TagIndex.particles (SpatialGrid.globalTagIndex (fst gh5))))
        gh5
      = Ok (g6, h6)
    ∧ ParticleSystem.grid s' = g6
    ∧ ParticleSystem.heap s' = h6
    ∧ ParticleSystem.springs s' = active
    ∧ ParticleSystem.particleCreationQueue s' = []
    ∧ ParticleSystem.springCreationQueue s' = []
    ∧ ParticleSystem.behaviors s' = ParticleSystem.behaviors s
    ∧ ParticleSystem.interactions s' = ParticleSystem.interactions s
    ∧ ParticleSystem.symmetricInteractions s'
      = ParticleSystem.symmetricInteractions s
    ∧ ParticleSystem.nextParticle s' = ParticleSystem.nextParticle s
    ∧ ∀ sp, sp ∈ active → Spring.shouldRemove h6 sp = false.
Proof.
  intros Hup active. unfold ParticleSystem.update in Hup.
  apply bind_Ok in Hup as (g1 & Hg1 & Hup).
  apply bind_Ok in Hup as (h4 & Hh4 & Hup).
  cbn [ParticleSystem.springs ParticleSystem.springCreationQueue
       ParticleSystem.set_particleCreationQueue ParticleSystem.set_grid
       ParticleSystem.set_springs ParticleSystem.set_springCreationQueue
       ParticleSystem.set_heap ParticleSystem.heap ParticleSystem.grid
       ParticleSystem.maxForce] in Hup, Hh4.
  fold active in Hup, Hh4.
  destruct (ParticleSystem.updateParticles (ParticleSystem.maxForce s) (g1, h4))
    as [g5 h5] eqn:E5.
  apply cleanUpParticles_Ok in Hup as (g6 & h6 & H6 & -> & Hfl).
  cbn [ParticleSystem.springs ParticleSystem.springCreationQueue
       ParticleSystem.set_particleCreationQueue ParticleSystem.set_grid
       ParticleSystem.set_springs ParticleSystem.set_springCreationQueue
       ParticleSystem.set_heap ParticleSystem.heap ParticleSystem.grid
       ParticleSystem.maxForce] in H6, Hfl.
  exists g1, h4, g6, h6. cbv zeta. rewrite E5. cbn [fst snd].
  repeat split; done.
Qed.




(** ** The bucket invariant *)

(** The invariant reads the heap through the positions only. *)
Lemma cellOf_same (g g' : SpatialGrid.t) (h h' : Heap) (p : PId) :
  SpatialGrid.cols g' = SpatialGrid.cols g →
  SpatialGrid.rows g' = SpatialGrid.rows g →
  SpatialGrid.cellSize g' = SpatialGrid.cellSize g →
  Particle.position (particle h' p) = Particle.position (particle h p) →
  cellOf g' h' p = cellOf g h p.
Proof.
  intros Hc Hr Hs Hp. unfold cellOf, SpatialGrid.hashPosition.
  by rewrite Hc, Hr, Hs, Hp.
Qed.

Lemma bucketed_positions (g : SpatialGrid.t) (h h' : Heap) :
  (∀ q, Particle.position (particle h' q) = Particle.position (particle h q)) →
  bucketed g h → bucketed g h'.
Proof.
  intros Hpos (Hlen & Hnd & Hcnd & Hmem).
  split; [done|]. split; [done|]. split; [done|].
  intros i c p Hc. rewrite (Hmem i c p Hc).
  assert (Hsame : cellOf g h' p = cellOf g h p) by by apply cellOf_same.
  by rewrite Hsame.
Qed.

(** A cell index that is not the sentinel is the index of a cell. *)
Lemma cellOf_lookup (g : SpatialGrid.t) (h : Heap) (p : PId) :
  length (SpatialGrid.cells g)
  = Z.to_nat (SpatialGrid.rows g * SpatialGrid.cols g) →
  cellOf g h p = -1
  ∨ (0 ≤ cellOf g h p < Z.of_nat (length (SpatialGrid.cells g))
     ∧ ∃ c, SpatialGrid.cells g !! Z.to_nat (cellOf g h p) = Some c).
Proof.
  intros Hlen. unfold cellOf.
  destruct (hashPosition_range g (Particle.position (particle h p)))
    as [Hm|Hr]; [by left|right].
  split; [lia|]. apply lookup_lt_is_Some_2. lia.
Qed.

(** Commit of one queued particle. *)
Lemma addParticle_bucketed (h : Heap) (p : PId) (g g' : SpatialGrid.t) :
  bucketed g h → p ∉ SpatialGrid.particles g →
  SpatialGrid.addParticle h p g = Ok g' →
  bucketed g' h ∧ SpatialGrid.particles g' = SpatialGrid.particles g ++ [p].
Proof.
  intros (Hlen & Hnd & Hcnd & Hmem) Hfresh. unfold SpatialGrid.addParticle.
  destruct (negb _); [done|].
  set (idx := SpatialGrid.hashPosition g (Particle.position (particle h p))).
  cbn [SpatialGrid.cells SpatialGrid.set_particles].
  destruct (nth_Z (SpatialGrid.cells g) idx) as [c|] eqn:Ec; [|done].
  intros [= <-]. apply nth_Z_Some in Ec as [Hidx Ec].
  split; [|reflexivity].
  assert (Hpc : p ∉ TagIndex.particles c).
  { intros Hp. apply (Hmem _ _ _ Ec) in Hp as [Hp _]. done. }
  unfold bucketed, members_ok.
  cbn [SpatialGrid.cells SpatialGrid.particles SpatialGrid.rows SpatialGrid.cols
       SpatialGrid.set_globalTagIndex SpatialGrid.set_cell
       SpatialGrid.set_particles].
  split; [by rewrite length_insert|].
  split.
  { apply list.NoDup_app. split; [done|]. split; [|apply NoDup_singleton].
    intros x Hx Hx'. apply list_elem_of_singleton in Hx' as ->. done. }
  split.
  - intros i c' Hc'. apply list_lookup_insert_Some in Hc'
      as [(<- & <- & _)|(Hne & Hc')]; [|by eapply Hcnd].
    rewrite add_particles. apply list.NoDup_app. split; [by eapply Hcnd|].
    split; [|apply NoDup_singleton].
    intros x Hx Hx'. apply list_elem_of_singleton in Hx' as ->. done.
  - intros i c' q Hc'.
    change (cellOf _ h q) with (cellOf g h q).
    rewrite elem_of_app, list_elem_of_singleton.
    apply list_lookup_insert_Some in Hc' as [(<- & <- & _)|(Hne & Hc')].
    + rewrite add_particles, elem_of_app, list_elem_of_singleton.
      rewrite (Hmem _ _ q Ec). rewrite Z2Nat.id by done.
      split.
      * intros [[Hq1 Hq2] | Hq]; [split; [by left|done]|].
        subst q. split; [by right|reflexivity].
      * intros [[Hq | Hq] Hq2]; [left; by split|by right].
    + rewrite (Hmem _ _ q Hc'). split; [tauto|].
      intros [[Hq1 | Hq1] Hq]; [tauto|]. subst q. exfalso. apply Hne.
      unfold cellOf in Hq. fold idx in Hq. lia.
Qed.

(** The commit phase. *)
Lemma commit_bucketed (h : Heap) (queue : list PId) (g g' : SpatialGrid.t) :
  bucketed g h → NoDup (SpatialGrid.particles g ++ queue) →
  forEachM (SpatialGrid.addParticle h) queue g = Ok g' →
  bucketed g' h.
Proof.
  revert g. induction queue as [|p queue IH]; intros g Hb Hnd; simpl.
  - by intros [= <-].
  - intros Hq. apply bind_Ok in Hq as (g1 & Hg1 & Hq).
    apply list.NoDup_app in Hnd as (Hnd1 & Hdisj & Hnd2).
    destruct (addParticle_bucketed h p g g1) as [Hb1 Hp1]; [done| |done|].
    { intros Hp. apply (Hdisj p Hp). apply elem_of_cons; by left. }
    apply (IH g1); [done| |done].
    rewrite Hp1, <- app_assoc. simpl.
    apply list.NoDup_app. split; [done|]. split; [|done].
    intros x Hx Hx'. by apply (Hdisj x).
Qed.

Lemma members_ok_ext (cells : list TagIndex.t) (live : list PId)
      (w w' : PId → Z) :
  (∀ q, w' q = w q) → members_ok cells live w → members_ok cells live w'.
Proof.
  intros Hw [Hnd Hmem]. split; [done|].
  intros i c q Hc. rewrite (Hmem i c q Hc). by rewrite Hw.
Qed.

(** Taking a particle out of the cell that holds it. *)
Lemma remove_step (cells : list TagIndex.t) (live : list PId) (w : PId → Z)
      (h : Heap) (p : PId) (i0 : nat) (c0 : TagIndex.t) :
  members_ok cells live w → w p = Z.of_nat i0 → cells !! i0 = Some c0 →
  members_ok (<[i0 := TagIndex.remove h p c0]> cells) live (<[p := -1]> w).
Proof.
  intros [Hnd Hmem] Hw Hc0. split.
  - intros i c Hc. apply list_lookup_insert_Some in Hc
      as [(<- & <- & _)|(Hne & Hc)]; [|by eapply Hnd].
    rewrite remove_particles. apply NoDup_spliceOut. by eapply Hnd.
  - intros i c q Hc. apply list_lookup_insert_Some in Hc
      as [(<- & <- & _)|(Hne & Hc)].
    + rewrite remove_particles, elem_of_spliceOut_iff by (by eapply Hnd).
      rewrite (Hmem _ _ q Hc0).
      destruct (decide (q = p)) as [->|Hq].
      * rewrite fn_lookup_insert. split; [tauto|]. intros [_ ?]; lia.
      * rewrite fn_lookup_insert_ne by done. tauto.
    + rewrite (Hmem _ _ q Hc).
      destruct (decide (q = p)) as [->|Hq].
      * rewrite fn_lookup_insert. split; intros [_ ?]; lia.
      * by rewrite fn_lookup_insert_ne by done.
Qed.

(** Putting a particle that is in no cell into a cell. *)
Lemma add_step (cells : list TagIndex.t) (live : list PId) (w : PId → Z)
      (h : Heap) (p : PId) (i1 : nat) (c1 : TagIndex.t) :
  members_ok cells live w → w p = -1 → p ∈ live → cells !! i1 = Some c1 →
  members_ok (<[i1 := TagIndex.add h p c1]> cells) live
             (<[p := Z.of_nat i1]> w).
Proof.
  intros [Hnd Hmem] Hw Hlive Hc1.
  assert (Hout : ∀ i c, cells !! i = Some c → p ∉ TagIndex.particles c).
  { intros i c Hc Hp. apply (Hmem _ _ _ Hc) in Hp as [_ Hp]. lia. }
  split.
  - intros i c Hc. apply list_lookup_insert_Some in Hc
      as [(<- & <- & _)|(Hne & Hc)]; [|by eapply Hnd].
    rewrite add_particles. apply list.NoDup_app. split; [by eapply Hnd|].
    split; [|apply NoDup_singleton].
    intros x Hx Hx'. apply list_elem_of_singleton in Hx' as ->.
    by apply (Hout _ _ Hc1).
  - intros i c q Hc. apply list_lookup_insert_Some in Hc
      as [(<- & <- & _)|(Hne & Hc)].
    + rewrite add_particles, elem_of_app, list_elem_of_singleton.
      rewrite (Hmem _ _ q Hc1).
      destruct (decide (q = p)) as [->|Hq].
      * rewrite fn_lookup_insert. tauto.
      * rewrite fn_lookup_insert_ne by done. tauto.
    + rewrite (Hmem _ _ q Hc).
      destruct (decide (q = p)) as [->|Hq].
      * rewrite fn_lookup_insert. split; intros [_ ?]; lia.
      * by rewrite fn_lookup_insert_ne by done.
Qed.

(** [updateCell] moves the particle from the cell [old] to the cell of its
    present position. *)
Lemma updateCell_members (h' : Heap) (p : PId) (g : SpatialGrid.t)
      (w : PId → Z) :
  length (SpatialGrid.cells g)
  = Z.to_nat (SpatialGrid.rows g * SpatialGrid.cols g) →
  members_ok (SpatialGrid.cells g) (SpatialGrid.particles g) w →
  p ∈ SpatialGrid.particles g →
  w p = -1 ∨ 0 ≤ w p < Z.of_nat (length (SpatialGrid.cells g)) →
  members_ok (SpatialGrid.cells (SpatialGrid.updateCell h' p (w p) g))
             (SpatialGrid.particles g) (<[p := cellOf g h' p]> w).
Proof.
  intros Hlen Hok Hlive Hold. unfold SpatialGrid.updateCell.
  fold (cellOf g h' p). set (new := cellOf g h' p). set (old := w p) in *.
  destruct (decide (new = old)) as [Heq|Hne].
  { eapply members_ok_ext; [|exact Hok]. intros q.
    destruct (decide (q = p)) as [->|Hq].
    - by rewrite fn_lookup_insert.
    - by rewrite fn_lookup_insert_ne by done. }
  set (len := Z.of_nat (length (SpatialGrid.cells g))).
  (* first the removal ... *)
  set (g1 := if (0 <=? old) && (old <? len)
             then match nth_Z (SpatialGrid.cells g) old with
                  | Some c => SpatialGrid.set_cell old (TagIndex.remove h' p c) g
                  | None => g
                  end
             else g).
  assert (H1 : members_ok (SpatialGrid.cells g1) (SpatialGrid.particles g)
                          (<[p := -1]> w)
               ∧ length (SpatialGrid.cells g1) = length (SpatialGrid.cells g)
               ∧ SpatialGrid.particles g1 = SpatialGrid.particles g).
  { unfold g1. destruct Hold as [Hm|Hr].
    - replace (0 <=? old) with false by (symmetry; apply Z.leb_gt; lia).
      cbn [andb]. split; [|done].
      eapply members_ok_ext; [|exact Hok]. intros q.
      destruct (decide (q = p)) as [->|Hq].
      + by rewrite fn_lookup_insert.
      + by rewrite fn_lookup_insert_ne by done.
    - replace (0 <=? old) with true by (symmetry; apply Z.leb_le; lia).
      replace (old <? len) with true by (symmetry; apply Z.ltb_lt; lia).
      cbn [andb].
      destruct (lookup_lt_is_Some_2 (SpatialGrid.cells g) (Z.to_nat old))
        as [c0 Hc0]; [lia|].
      replace (nth_Z (SpatialGrid.cells g) old) with (Some c0)
        by (symmetry; apply nth_Z_Some; split; [lia|done]).
      cbn [SpatialGrid.set_cell SpatialGrid.cells SpatialGrid.particles].
      split; [|split; [by rewrite length_insert|done]].
      apply remove_step; [done| |done]. fold old. lia. }
  destruct H1 as (Hok1 & Hlen1 & Hparts1).
  (* ... then the insertion *)
  destruct (cellOf_lookup g h' p Hlen) as [Hm|(Hr & c1 & Hc1)].
  - fold new in Hm. replace (0 <=? new) with false by (symmetry; apply Z.leb_gt; lia).
    cbn [andb]. eapply members_ok_ext; [|exact Hok1]. intros q.
    destruct (decide (q = p)) as [->|Hq].
    + by rewrite !fn_lookup_insert.
    + by rewrite !fn_lookup_insert_ne by done.
  - fold new in Hr, Hc1. fold len in Hr.
    replace (0 <=? new) with true by (symmetry; apply Z.leb_le; lia).
    replace (new <? len) with true by (symmetry; apply Z.ltb_lt; lia).
    cbn [andb].
    destruct (lookup_lt_is_Some_2 (SpatialGrid.cells g1) (Z.to_nat new))
      as [c1' Hc1']; [unfold len in Hr; lia|].
    replace (nth_Z (SpatialGrid.cells g1) new) with (Some c1')
      by (symmetry; apply nth_Z_Some; split; [lia|done]).
    cbn [SpatialGrid.set_cell SpatialGrid.cells].
    eapply members_ok_ext;
      [|apply (add_step _ _ (<[p := -1]> w) h' p (Z.to_nat new) c1');
        [exact Hok1|by rewrite fn_lookup_insert|done|done]].
    intros q. destruct (decide (q = p)) as [->|Hq].
    + rewrite !fn_lookup_insert. lia.
    + by rewrite !fn_lookup_insert_ne by done.
Qed.

Lemma updateCell_frame (h : Heap) (p : PId) (old : Z) (g : SpatialGrid.t) :
  let g' := SpatialGrid.updateCell h p old g in
  SpatialGrid.rows g' = SpatialGrid.rows g
  ∧ SpatialGrid.cols g' = SpatialGrid.cols g
  ∧ SpatialGrid.cellSize g' = SpatialGrid.cellSize g
  ∧ SpatialGrid.particles g' = SpatialGrid.particles g
  ∧ SpatialGrid.globalTagIndex g' = SpatialGrid.globalTagIndex g
  ∧ length (SpatialGrid.cells g') = length (SpatialGrid.cells g).
Proof.
  unfold SpatialGrid.updateCell.
  repeat (destruct (decide _) || destruct (_ && _) || destruct (nth_Z _ _));
    cbn [SpatialGrid.set_cell SpatialGrid.rows SpatialGrid.cols
         SpatialGrid.cellSize SpatialGrid.particles SpatialGrid.cells
         SpatialGrid.globalTagIndex];
    rewrite ?length_insert; repeat split.
Qed.

(** Integration and re-bucketing of one particle. *)
Lemma updateParticle_bucketed `{MathSqrt} (maxForce : Q) (p : PId)
      (g : SpatialGrid.t) (h : Heap) :
  bucketed g h → p ∈ SpatialGrid.particles g →
  bucketed (fst (ParticleSystem.updateParticle maxForce p (g, h)))
           (snd (ParticleSystem.updateParticle maxForce p (g, h)))
  ∧ SpatialGrid.particles (fst (ParticleSystem.updateParticle maxForce p (g, h)))
    = SpatialGrid.particles g.
Proof.
  intros (Hlen & Hnd & Hok) Hp.
  cbn [ParticleSystem.updateParticle fst snd].
  set (h' := upd_particle p (Particle.update maxForce) h).
  fold (cellOf g h p).
  destruct (updateCell_frame h' p (cellOf g h p) g)
    as (Hrows & Hcols & Hcs & Hparts & _ & Hlen').
  split; [|done]. split; [by rewrite Hlen', Hrows, Hcols|].
  rewrite Hparts. split; [done|].
  eapply members_ok_ext;
    [|apply (updateCell_members h' p g (cellOf g h) Hlen Hok Hp)].
  - intros q. unfold cellOf at 1, SpatialGrid.hashPosition.
    rewrite Hrows, Hcols, Hcs.
    destruct (decide (q = p)) as [->|Hq].
    + by rewrite fn_lookup_insert.
    + rewrite fn_lookup_insert_ne by done. unfold h'; simpl.
      by rewrite fn_lookup_insert_ne by done.
  - destruct (cellOf_lookup g h p Hlen) as [?|[? _]]; [by left|by right].
Qed.

(** The integration phase. *)
Lemma updateParticles_bucketed `{MathSqrt} (maxForce : Q)
      (g : SpatialGrid.t) (h : Heap) :
  bucketed g h →
  bucketed (fst (ParticleSystem.updateParticles maxForce (g, h)))
           (snd (ParticleSystem.updateParticles maxForce (g, h))).
Proof.
  intros Hb. unfold ParticleSystem.updateParticles. cbn [fst].
  apply (forEach_invariant
           (fun gh => bucketed (fst gh) (snd gh)
                      ∧ SpatialGrid.particles (fst gh) = SpatialGrid.particles g)
           (ParticleSystem.updateParticle maxForce)
           (SpatialGrid.particles g) (g, h)); [|done].
  intros p [g1 h1] Hp [Hb1 Hparts]. cbn [fst snd] in Hb1, Hparts.
  destruct (updateParticle_bucketed maxForce p g1 h1 Hb1) as [Hb2 Hparts2].
  { by rewrite Hparts. }
  split; [done|]. by rewrite Hparts2.
Qed.

(** Dropping a particle that is in no cell from the flat list. *)
Lemma shrink_step (cells : list TagIndex.t) (live : list PId)
      (w1 w : PId → Z) (p : PId) :
  members_ok cells live w1 → NoDup live → w1 p = -1 →
  (∀ q, q ≠ p → w q = w1 q) →
  members_ok cells (spliceOut p live) w.
Proof.
  intros [Hnd Hmem] Hlive Hp Hw. split; [done|].
  intros i c q Hc. rewrite (Hmem i c q Hc), elem_of_spliceOut_iff by done.
  split.
  - intros [Hq Hi]. assert (q ≠ p) by (intros ->; lia).
    rewrite Hw by done. tauto.
  - intros [[Hq Hne] Hi]. rewrite Hw in Hi by done. tauto.
Qed.

Lemma detachSprings_particle (p : PId) (h : Heap) :
  particle (detachSprings p h) = particle h.
Proof.
  unfold detachSprings.
  apply (forEach_invariant (fun h' => particle h' = particle h)); done.
Qed.

(** Removal of one particle. *)
Lemma removeParticle_bucketed (p : PId) (g g' : SpatialGrid.t) (h h' : Heap) :
  bucketed g h → SpatialGrid.removeParticle p (g, h) = Ok (g', h') →
  bucketed g' h'.
Proof.
  intros (Hlen & Hnd & Hok). unfold SpatialGrid.removeParticle.
  fold (cellOf g h p). intros Hr.
  apply bind_Ok in Hr as (g1 & Hg1 & [= <- <-]).
  assert (H1 : members_ok (SpatialGrid.cells g1) (SpatialGrid.particles g)
                          (<[p := -1]> (cellOf g h))
               ∧ length (SpatialGrid.cells g1) = length (SpatialGrid.cells g)
               ∧ SpatialGrid.particles g1 = SpatialGrid.particles g
               ∧ SpatialGrid.rows g1 = SpatialGrid.rows g
               ∧ SpatialGrid.cols g1 = SpatialGrid.cols g
               ∧ SpatialGrid.cellSize g1 = SpatialGrid.cellSize g).
  { destruct (0 <=? cellOf g h p) eqn:E.
    - apply Z.leb_le in E.
      destruct (nth_Z (SpatialGrid.cells g) (cellOf g h p)) as [c|] eqn:Ec;
        [|done].
      injection Hg1 as <-. apply nth_Z_Some in Ec as [_ Ec].
      cbn [SpatialGrid.set_cell SpatialGrid.cells SpatialGrid.particles
           SpatialGrid.rows SpatialGrid.cols SpatialGrid.cellSize].
      split; [apply remove_step; [done|lia|done]|].
      rewrite length_insert. by repeat split.
    - injection Hg1 as <-. apply Z.leb_gt in E.
      split; [|by repeat split].
      eapply members_ok_ext; [|exact Hok]. intros q.
      destruct (decide (q = p)) as [->|Hne].
      + rewrite fn_lookup_insert.
        destruct (cellOf_lookup g h p Hlen) as [?|[? _]]; lia.
      + by rewrite fn_lookup_insert_ne by done. }
  destruct H1 as (Hok1 & Hlen1 & Hparts1 & Hrows1 & Hcols1 & Hcs1).
  unfold bucketed.
  cbn [SpatialGrid.set_globalTagIndex SpatialGrid.set_particles
       SpatialGrid.cells SpatialGrid.particles SpatialGrid.rows
       SpatialGrid.cols].
  split; [by rewrite Hlen1, Hrows1, Hcols1|].
  rewrite Hparts1. split; [by apply NoDup_spliceOut|].
  eapply shrink_step; [exact Hok1|done|by rewrite fn_lookup_insert|].
  intros q Hq. rewrite fn_lookup_insert_ne by done.
  unfold cellOf, SpatialGrid.hashPosition.
  cbn [SpatialGrid.rows SpatialGrid.cols SpatialGrid.cellSize
       SpatialGrid.set_globalTagIndex SpatialGrid.set_particles].
  by rewrite Hrows1, Hcols1, Hcs1, detachSprings_particle.
Qed.

(** ** What the phases before integration leave in place *)

Lemma applyForce_position (f : Vector3.t) (p : Particle.t) :
  Particle.position (Particle.applyForce f p) = Particle.position p.
Proof. unfold Particle.applyForce. by destruct (Particle.staticBody p). Qed.

Lemma removeSpring_position (s : SId) (p : Particle.t) :
  Particle.position (Particle.removeSpring s p) = Particle.position p.
Proof. reflexivity. Qed.

Lemma upd_particle_position (f : Particle.t → Particle.t) (p : PId) :
  (∀ x, Particle.position (f x) = Particle.position x) →
  keeps_positions (upd_particle p f).
Proof.
  intros Hf h q. unfold upd_particle; simpl.
  destruct (decide (q = p)) as [->|Hq].
  - by rewrite fn_lookup_insert.
  - by rewrite fn_lookup_insert_ne.
Qed.

Lemma keeps_positions_compose (f g : Heap → Heap) :
  keeps_positions f → keeps_positions g → keeps_positions (fun h => g (f h)).
Proof. intros Hf Hg h q. by rewrite Hg, Hf. Qed.

Lemma keeps_positions_forEach {A : Type} (f : A → Heap → Heap) (l : list A) :
  (∀ a, a ∈ l → keeps_positions (f a)) → keeps_positions (forEach f l).
Proof.
  intros Hf h q.
  apply (forEach_invariant
           (fun h' => Particle.position (particle h' q)
                      = Particle.position (particle h q))); [|done].
  intros a h1 Ha Hh1. by rewrite (Hf a Ha).
Qed.

Lemma Spring_update_positions `{MathSqrt} (s : SId) :
  keeps_positions (Spring.update s).
Proof.
  intros h q. unfold Spring.update.
  rewrite !upd_particle_position; [done| |]; intros x; apply applyForce_position.
Qed.

Lemma updateSprings_positions `{MathSqrt} (l : list SId) :
  keeps_positions (ParticleSystem.updateSprings l).
Proof.
  apply keeps_positions_forEach. intros s _. apply Spring_update_positions.
Qed.

(** The symmetric-interaction machinery keeps whatever every call of the
    interaction keeps. *)
Section SymmetricInvariant.
Context {S : Type} (P : S → Prop) (interaction : PId → PId → S → S).
Hypothesis interaction_keeps : ∀ a b s, P s → P (interaction a b s).

Lemma withinCell_keeps (l : list PId) (s : S) :
  P s → P (ParticleSystem.withinCell interaction l s).
Proof.
  revert s. induction l as [|a l IH]; intros s Hs; [done|]. simpl.
  apply IH. apply forEach_invariant; [|done].
  intros b s1 _. apply interaction_keeps.
Qed.

Lemma crossCell_keeps (la lb : list PId) (s : S) :
  P s → P (ParticleSystem.crossCell interaction la lb s).
Proof.
  intros Hs. unfold ParticleSystem.crossCell.
  apply forEach_invariant; [|done]. intros a s1 _ Hs1.
  apply forEach_invariant; [|done]. intros b s2 _.
  apply interaction_keeps.
Qed.

Lemma applySymmetricCell_keeps (g : SpatialGrid.t) (f : Filter)
      (cx1 cy1 cx2 cy2 : Z) (s s' : S) :
  ParticleSystem._applySymmetricCell g interaction f cx1 cy1 cx2 cy2 s
  = Ok s' → P s → P s'.
Proof.
  unfold ParticleSystem._applySymmetricCell. intros Hr Hs.
  destruct (_ || _ || _ || _); [by injection Hr as <-|].
  destruct (SpatialGrid.getCell g cx1 cy1) as [ca|];
    [|by injection Hr as <-].
  destruct (SpatialGrid.getCell g cx2 cy2) as [cb|];
    [|by injection Hr as <-].
  apply bind_Ok in Hr as (la & _ & Hr).
  apply bind_Ok in Hr as (lb & _ & Hr).
  destruct (_ && _); injection Hr as <-.
  - by apply withinCell_keeps.
  - by apply crossCell_keeps.
Qed.

Lemma symmetricAt_keeps (g : SpatialGrid.t) (f : Filter) (cx cy : Z)
      (s s' : S) :
  ParticleSystem.symmetricAt g interaction f cx cy s = Ok s' → P s → P s'.
Proof.
  unfold ParticleSystem.symmetricAt. intros Hr Hs.
  apply bind_Ok in Hr as (s1 & H1 & Hr).
  apply bind_Ok in Hr as (s2 & H2 & Hr).
  apply bind_Ok in Hr as (s3 & H3 & Hr).
  apply bind_Ok in Hr as (s4 & H4 & Hr).
  eapply applySymmetricCell_keeps; [exact Hr|].
  eapply applySymmetricCell_keeps; [exact H4|].
  eapply applySymmetricCell_keeps; [exact H3|].
  eapply applySymmetricCell_keeps; [exact H2|].
  eapply applySymmetricCell_keeps; [exact H1|exact Hs].
Qed.

Lemma symmetricInteraction_keeps (g : SpatialGrid.t) (f : Filter)
      (s s' : S) :
  ParticleSystem.symmetricInteraction g interaction f s = Ok s' →
  P s → P s'.
Proof.
  unfold ParticleSystem.symmetricInteraction. intros Hr Hs.
  eapply (forEachM_invariant P); [|exact Hs|exact Hr].
  intros cx s1 s2 _ Hs1 Hcx.
  eapply (forEachM_invariant P); [|exact Hs1|exact Hcx].
  intros cy t1 t2 _ Ht1 Hcy. by eapply symmetricAt_keeps.
Qed.
End SymmetricInvariant.

(** The behaviour and interaction phase moves no particle when no callback
    does. *)
Lemma updateBehaviors_positions (s : ParticleSystem.t) (h4 : Heap) :
  callbacks_keep_positions s →
  ParticleSystem.updateBehaviors s = Ok h4 →
  ∀ q, Particle.position (particle h4 q)
       = Particle.position (particle (ParticleSystem.heap s) q).
Proof.
  intros (Hb & Hi & Hs) Hup q. unfold ParticleSystem.updateBehaviors in Hup.
  apply bind_Ok in Hup as (h1 & H1 & Hup).
  apply bind_Ok in Hup as (h2 & H2 & H3).
  set (P := fun h' : Heap =>
              Particle.position (particle h' q)
              = Particle.position (particle (ParticleSystem.heap s) q)).
  assert (P1 : P h1).
  { eapply (forEachM_invariant P); [|reflexivity|exact H1].
    intros [[i f] nf] t1 t2 Hin Ht1 Hbody.
    apply bind_Ok in Hbody as (ps & _ & Hbody).
    eapply (forEachM_invariant P); [|exact Ht1|exact Hbody].
    intros p u1 u2 _ Hu1 Hstep.
    apply bind_Ok in Hstep as (ns & _ & [= <-]).
    unfold P. by rewrite (Hi i f nf p _ Hin). }
  assert (P2 : P h2).
  { eapply (forEachM_invariant P); [|exact P1|exact H2].
    intros [i f] t1 t2 Hin Ht1 Hbody.
    eapply (symmetricInteraction_keeps P i); [|exact Hbody|exact Ht1].
    intros a b t Ht. unfold P. by rewrite (Hs i f a b Hin). }
  eapply (forEachM_invariant P); [|exact P2|exact H3].
  intros [b f] t1 t2 Hin Ht1 Hbody.
  apply bind_Ok in Hbody as (ps & _ & [= <-]).
  unfold P. rewrite keeps_positions_forEach; [done|].
  intros p _. by apply (Hb b f p).
Qed.

(** A particle whose position hashes to a cell is, under the invariant, in
    its cell in the sense of the claim. *)
Lemma bucketed_in_its_cell (g : SpatialGrid.t) (h : Heap) (p : PId) :
  bucketed g h → p ∈ SpatialGrid.particles g → cellOf g h p ≠ -1 →
  in_its_cell g h p.
Proof.
  intros (Hlen & Hnd & Hcnd & Hmem) Hp Hne.
  destruct (cellOf_lookup g h p Hlen) as [?|(Hr & c & Hc)]; [done|].
  exists (Z.to_nat (cellOf g h p)), c. split; [done|]. split.
  { apply (Hmem _ _ _ Hc). split; [done|]. lia. }
  split.
  - rewrite Z2Nat.id by lia. unfold cellOf, SpatialGrid.hashPosition in *.
    by destruct (_ || _ || _ || _).
  - intros j c' Hc' Hp'. apply (Hmem _ _ _ Hc') in Hp' as [_ Hj]. lia.
Qed.

(** A completed tick whose callbacks move no particle themselves keeps the
    grid bucketed, leaves the creation queue empty and keeps the registered
    callbacks. *)
Lemma update_bucketed `{MathSqrt} (s s' : ParticleSystem.t) :
  system_bucketed s → callbacks_keep_positions s →
  ParticleSystem.update s = Ok s' →
  system_bucketed s' ∧ callbacks_keep_positions s'.
Proof.
  intros [Hb Hq] Hcb Hup.
  destruct (update_phases s s' Hup)
    as (g1 & h4 & g6 & h6 & Hcommit & Hbeh & Hclean & Hgrid & Hheap & _
        & Hqueue & _ & Hbs & His & Hss & _).
  cbv zeta in Hbeh, Hclean.
  set (active := ParticleSystem.springs s
                 ++ ParticleSystem.springCreationQueue s) in *.
  assert (Hb1 : bucketed g1 (ParticleSystem.heap s))
    by by eapply commit_bucketed.
  assert (Hb4 : bucketed g1 h4).
  { eapply bucketed_positions; [|exact Hb1]. intros q.
    pose proof (fun Hc => updateBehaviors_positions _ h4 Hc Hbeh q) as Hpos.
    rewrite (Hpos Hcb).
    cbn [ParticleSystem.heap ParticleSystem.set_heap].
    apply updateSprings_positions. }
  pose proof (updateParticles_bucketed (ParticleSystem.maxForce s) g1 h4 Hb4)
    as Hb5.
  destruct (ParticleSystem.updateParticles (ParticleSystem.maxForce s) (g1, h4))
    as [g5 h5]. cbn [fst snd] in Hb5, Hclean.
  assert (Hb6 : bucketed g6 h6).
  { change (bucketed (fst (g6, h6)) (snd (g6, h6))).
    eapply (forEachM_invariant (fun gh => bucketed (fst gh) (snd gh))
              _ _ (g5, h5)); [|exact Hb5|exact Hclean].
    intros p [ga ha] [gb hb] _ Ha Hrem. by eapply removeParticle_bucketed. }
  assert (Hb' : bucketed (ParticleSystem.grid s') (ParticleSystem.heap s')).
  { by rewrite Hgrid, Hheap. }
  split.
  - split; [done|]. rewrite Hqueue, app_nil_r. by destruct Hb' as (_ & ? & _).
  - destruct Hcb as (H1 & H2 & H3). unfold callbacks_keep_positions.
    rewrite Hbs, His, Hss. done.
Qed.

(** C7, as the code has it.  The bucket invariant is kept by every
    completed tick whose callbacks move no particle themselves: after the
    tick every live particle is a member of the cell its position hashes
    to and of no other, and a live particle whose position hashes outside
    the grid is a member of no cell. *)
Theorem bucket_invariant_preserved `{MathSqrt} (s s' : ParticleSystem.t) :
  system_bucketed s → callbacks_keep_positions s →
  ParticleSystem.update s = Ok s' →
  system_bucketed s'
  ∧ callbacks_keep_positions s'
  ∧ ∀ p, p ∈ SpatialGrid.particles (ParticleSystem.grid s') →
         let where_ := cellOf (ParticleSystem.grid s') (ParticleSystem.heap s') p in
         (∀ i c, SpatialGrid.cells (ParticleSystem.grid s') !! i = Some c →
                 (p ∈ TagIndex.particles c ↔ where_ = Z.of_nat i))
         ∧ (where_ ≠ -1 →
            in_its_cell (ParticleSystem.grid s') (ParticleSystem.heap s') p).
Proof.
  intros Hsb Hcb Hup.
  destruct (update_bucketed s s' Hsb Hcb Hup) as [[Hb' Hq'] Hcb'].
  split; [done|]. split; [done|].
  intros p Hp where_. split.
  - intros i c Hc. destruct Hb' as (_ & _ & _ & Hmem).
    rewrite (Hmem i c p Hc). tauto.
  - by apply bucketed_in_its_cell.
Qed.

(** The grid of the constructor is bucketed. *)
Lemma bucketed_new (b : BoundingBox.t) (cellSize : Q) (h : Heap) :
  bucketed (SpatialGrid.new b cellSize) h.
Proof.
  unfold bucketed, SpatialGrid.new. cbn [SpatialGrid.cells SpatialGrid.rows
    SpatialGrid.cols SpatialGrid.particles].
  split; [apply length_replicate|]. split; [constructor|]. split.
  - intros i c Hc. apply lookup_replicate in Hc as [-> _]. constructor.
  - intros i c p Hc. apply lookup_replicate in Hc as [-> _]. simpl.
    split; [intros Hp|intros [Hp _]]; by apply elem_of_nil in Hp.
Qed.

Lemma pushLeft_keeps_positions (p : PId) : keeps_positions (pushLeft p).
Proof.
  apply upd_particle_position. intros x. apply applyForce_position.
Qed.

Lemma pushed_system_bucketed : system_bucketed pushed_system.
Proof.
  split.
  - apply bucketed_new.
  - change (NoDup ([] ++ [0%nat])). apply NoDup_singleton.
Defined.

Lemma pushed_system_callbacks : callbacks_keep_positions pushed_system.
Proof.
  split; [|split].
  - intros b f p Hin.
    change (ParticleSystem.behaviors pushed_system)
      with [(pushLeft, noFilter)] in Hin.
    apply list_elem_of_singleton in Hin as [= -> ->].
    apply pushLeft_keeps_positions.
  - intros i f nf p ns Hin. by apply elem_of_nil in Hin.
  - intros i f a b Hin. by apply elem_of_nil in Hin.
Defined.

(** C7, as stated, fails: after the first tick of [pushed_system] particle
    [0] is live and not flagged for removal, it sits at (-5, 5), and it is
    a member of no cell. *)
Example live_particle_in_no_cell :
  ∃ s', ParticleSystem.update (H := exactSqrt) pushed_system = Ok s'
        ∧ SpatialGrid.particles (ParticleSystem.grid s') = [0%nat]
        ∧ Particle.removeFlag (particle (ParticleSystem.heap s') 0%nat) = false
        ∧ Particle.position (particle (ParticleSystem.heap s') 0%nat)
          = Vector3.mk (-5) 5 0
        ∧ map TagIndex.particles (SpatialGrid.cells (ParticleSystem.grid s'))
          = [[]; []; []; []]
        ∧ ¬ in_its_cell (ParticleSystem.grid s') (ParticleSystem.heap s') 0%nat.
Proof.
  eexists. split; [vm_compute; reflexivity|].
  split; [reflexivity|]. split; [reflexivity|]. split; [reflexivity|].
  split; [reflexivity|].
  intros (i & c & Hc & Hp & _).
  do 4 (destruct i as [|i]; [injection Hc as <-; by apply elem_of_nil in Hp|]).
  done.
Qed.

(** The first tick of [pushed_system] completes and leaves it bucketed. *)
Lemma bucket_invariant_preserved_witness :
  ∃ s', ParticleSystem.update (H := exactSqrt) pushed_system = Ok s'
        ∧ system_bucketed s'.
Proof.
  eexists. split; [vm_compute; reflexivity|].
  eapply (bucket_invariant_preserved (H := exactSqrt) pushed_system).
  - exact pushed_system_bucketed.
  - exact pushed_system_callbacks.
  - vm_compute. reflexivity.
Defined.

(** ** Symmetric interactions: the calls *)

Section Calls.
Context {S : Type} (interaction : PId → PId → S → S).

Lemma run_app (c1 c2 : list (PId * PId)) (s : S) :
  run interaction (c1 ++ c2) s = run interaction c2 (run interaction c1 s).
Proof. apply forEach_app. Qed.

Lemma forEach_run (a : PId) (l : list PId) (s : S) :
  forEach (interaction a) l s = run interaction (map (pair a) l) s.
Proof.
  unfold run, forEach. revert s.
  induction l as [|b l IH]; intros s; [done|]. simpl. apply IH.
Qed.

Lemma withinCell_run (l : list PId) (s : S) :
  ParticleSystem.withinCell interaction l s = run interaction (pairsOf l) s.
Proof.
  revert s. induction l as [|a l IH]; intros s; [done|]. simpl.
  by rewrite run_app, IH, forEach_run.
Qed.

Lemma crossCell_run (la lb : list PId) (s : S) :
  ParticleSystem.crossCell interaction la lb s = run interaction (crossOf la lb) s.
Proof.
  unfold ParticleSystem.crossCell, crossOf. revert s.
  induction la as [|a la IH]; intros s; [done|].
  rewrite forEach_cons. simpl. by rewrite run_app, IH, forEach_run.
Qed.

Lemma crossOf_nil_r (la : list PId) : crossOf la [] = [].
Proof. unfold crossOf. induction la as [|a la IH]; [done|]. exact IH. Qed.

Lemma applySymmetricCell_run (g : SpatialGrid.t) (f : Filter)
      (cx1 cy1 cx2 cy2 : Z) (s s' : S) :
  ParticleSystem._applySymmetricCell g interaction f cx1 cy1 cx2 cy2 s
  = Ok s' →
  s' = run interaction (stencil g f cx1 cy1 cx2 cy2) s.
Proof.
  unfold ParticleSystem._applySymmetricCell, stencil, matching.
  destruct (_ || _ || _ || _); [by intros [= <-]|].
  destruct ((cx1 =? cx2) && (cy1 =? cy2)) eqn:Esame.
  - apply andb_true_iff in Esame as [E1 E2].
    apply Z.eqb_eq in E1, E2. subst cx2 cy2.
    destruct (SpatialGrid.getCell g cx1 cy1) as [ca|]; [|by intros [= <-]].
    intros Hr. apply bind_Ok in Hr as (la & Hla & Hr).
    apply bind_Ok in Hr as (lb & Hlb & [= <-]). rewrite Hla.
    apply withinCell_run.
  - destruct (SpatialGrid.getCell g cx1 cy1) as [ca|];
      [|by intros [= <-]].
    destruct (SpatialGrid.getCell g cx2 cy2) as [cb|].
    + intros Hr. apply bind_Ok in Hr as (la & Hla & Hr).
      apply bind_Ok in Hr as (lb & Hlb & [= <-]). rewrite Hla, Hlb.
      apply crossCell_run.
    + intros [= <-]. by rewrite crossOf_nil_r.
Qed.

Lemma symmetricAt_run (g : SpatialGrid.t) (f : Filter) (cx cy : Z)
      (s s' : S) :
  ParticleSystem.symmetricAt g interaction f cx cy s = Ok s' →
  s' = run interaction (callsAt g f cx cy) s.
Proof.
  unfold ParticleSystem.symmetricAt, callsAt. intros Hr.
  apply bind_Ok in Hr as (s1 & H1 & Hr).
  apply bind_Ok in Hr as (s2 & H2 & Hr).
  apply bind_Ok in Hr as (s3 & H3 & Hr).
  apply bind_Ok in Hr as (s4 & H4 & H5).
  apply applySymmetricCell_run in H1, H2, H3, H4, H5.
  rewrite !run_app. by subst.
Qed.

(** The calls of a loop are the calls of its bodies, one after another. *)
Lemma forEachM_run {A : Type} (body : A → S → result S)
      (calls : A → list (PId * PId)) (l : list A) (s s' : S) :
  (∀ a t t', a ∈ l → body a t = Ok t' → t' = run interaction (calls a) t) →
  forEachM body l s = Ok s' → s' = run interaction (l ≫= calls) s.
Proof.
  revert s. induction l as [|a l IH]; intros s Hbody; simpl.
  - by intros [= <-].
  - intros Hr. apply bind_Ok in Hr as (s1 & H1 & Hr).
    rewrite run_app. apply Hbody in H1; [|apply elem_of_cons; by left].
    subst s1. apply IH; [|done].
    intros a' t t' Ha'. apply Hbody. apply elem_of_cons; by right.
Qed.

(** A registered symmetric interaction is applied along
    [symmetricCalls], whatever the interaction does. *)
Lemma symmetricInteraction_run (g : SpatialGrid.t) (f : Filter) (s s' : S) :
  ParticleSystem.symmetricInteraction g interaction f s = Ok s' →
  s' = run interaction (symmetricCalls g f) s.
Proof.
  unfold ParticleSystem.symmetricInteraction, symmetricCalls.
  apply forEachM_run. intros cx t t' _.
  apply forEachM_run. intros cy u u' _. apply symmetricAt_run.
Qed.
End Calls.

(** The recording interaction records the calls. *)
Lemma run_record (calls acc : list (PId * PId)) :
  run record calls acc = acc ++ calls.
Proof.
  unfold run, forEach. revert acc.
  induction calls as [|[a b] calls IH]; intros acc; simpl.
  - by rewrite app_nil_r.
  - rewrite IH. unfold record. by rewrite <- app_assoc.
Qed.

Lemma symmetricInteraction_record (g : SpatialGrid.t) (f : Filter)
      (calls : list (PId * PId)) :
  ParticleSystem.symmetricInteraction g record f [] = Ok calls →
  calls = symmetricCalls g f.
Proof.
  intros Hr. apply symmetricInteraction_run in Hr. by rewrite run_record in Hr.
Qed.

(** ** Counting calls *)

Lemma invocations_app (a b : PId) (l1 l2 : list (PId * PId)) :
  invocations a b (l1 ++ l2)
  = (invocations a b l1 + invocations a b l2)%nat.
Proof. unfold invocations. by rewrite list.filter_app, List.length_app. Qed.

Lemma invocations_not_in (a b : PId) (l : list (PId * PId)) :
  (a, b) ∉ l → invocations a b l = 0%nat.
Proof.
  unfold invocations. induction l as [|c l IH]; [done|].
  intros Hn. apply not_elem_of_cons in Hn as [Hne Hn].
  rewrite filter_cons_False by congruence. by apply IH.
Qed.

Lemma invocations_NoDup_in (a b : PId) (l : list (PId * PId)) :
  NoDup l → (a, b) ∈ l → invocations a b l = 1%nat.
Proof.
  unfold invocations. induction 1 as [|c l Hc Hl IH]; intros Hin.
  - by apply elem_of_nil in Hin.
  - apply elem_of_cons in Hin as [<-|Hin].
    + rewrite filter_cons_True by done. simpl.
      f_equal. by apply (invocations_not_in a b).
    + rewrite filter_cons_False by (intros ->; done). by apply IH.
Qed.

Lemma invocations_bind_0 {A : Type} (a b : PId) (f : A → list (PId * PId))
      (l : list A) :
  (∀ y, y ∈ l → (a, b) ∉ f y) → invocations a b (l ≫= f) = 0%nat.
Proof.
  intros Hn. apply invocations_not_in. intros Hin.
  apply list_elem_of_bind in Hin as (y & Hy & Hl). by apply (Hn y).
Qed.

(** Only one body of the loop makes the call. *)
Lemma invocations_bind_unique {A : Type} (a b : PId)
      (f : A → list (PId * PId)) (l : list A) (x0 : A) :
  NoDup l → x0 ∈ l → (∀ y, y ∈ l → y ≠ x0 → (a, b) ∉ f y) →
  invocations a b (l ≫= f) = invocations a b (f x0).
Proof.
  induction 1 as [|x l Hx Hl IH]; intros Hin Hn.
  - by apply elem_of_nil in Hin.
  - change ((x :: l) ≫= f) with (f x ++ (l ≫= f)).
    rewrite invocations_app.
    apply elem_of_cons in Hin as [->|Hin].
    + rewrite (invocations_bind_0 a b f l); [lia|].
      intros y Hy. apply Hn; [apply elem_of_cons; by right|].
      intros ->. done.
    + rewrite (invocations_not_in a b (f x)).
      * apply IH; [done|]. intros y Hy. apply Hn. apply elem_of_cons; by right.
      * apply Hn; [apply elem_of_cons; by left|]. intros ->. done.
Qed.

(** What [NoDup] of a concatenation of lists says of the lists. *)
Lemma NoDup_bind_one {A B : Type} (f : A → list B) (l : list A) (x : A) :
  NoDup (l ≫= f) → x ∈ l → NoDup (f x).
Proof.
  induction l as [|y l IH]; intros Hnd Hx; [by apply elem_of_nil in Hx|].
  change ((y :: l) ≫= f) with (f y ++ (l ≫= f)) in Hnd.
  apply list.NoDup_app in Hnd as (H1 & _ & H2).
  apply elem_of_cons in Hx as [->|Hx]; [done|by apply IH].
Qed.

Lemma NoDup_bind_two {A B : Type} (f : A → list B) (l : list A)
      (x1 x2 : A) (y : B) :
  NoDup (l ≫= f) → NoDup l → x1 ∈ l → x2 ∈ l → y ∈ f x1 → y ∈ f x2 →
  x1 = x2.
Proof.
  induction l as [|x l IH]; intros Hnd Hl H1 H2 Hy1 Hy2;
    [by apply elem_of_nil in H1|].
  change ((x :: l) ≫= f) with (f x ++ (l ≫= f)) in Hnd.
  apply list.NoDup_app in Hnd as (Hx & Hdisj & Hrest).
  apply list.NoDup_cons in Hl as [Hxl Hl].
  apply elem_of_cons in H1 as [->|H1]; apply elem_of_cons in H2 as [->|H2].
  - done.
  - exfalso. apply (Hdisj y Hy1). apply list_elem_of_bind. by exists x2.
  - exfalso. apply (Hdisj y Hy2). apply list_elem_of_bind. by exists x1.
  - by apply IH.
Qed.

(** ** The pairs of one cell and of two cells *)

Lemma elem_of_map_pair (x a b : PId) (l : list PId) :
  (a, b) ∈ map (pair x) l ↔ a = x ∧ b ∈ l.
Proof.
  rewrite list_elem_of_fmap. split.
  - intros (y & [= -> ->] & Hy). done.
  - intros [-> Hb]. by exists b.
Qed.

Lemma NoDup_map_pair (x : PId) (l : list PId) :
  NoDup l → NoDup (map (pair x) l).
Proof. apply (NoDup_fmap_2 (pair x)). Qed.

Lemma elem_of_pairsOf (a b : PId) (l : list PId) :
  (a, b) ∈ pairsOf l → a ∈ l ∧ b ∈ l.
Proof.
  induction l as [|x l IH]; simpl; [intros H; by apply elem_of_nil in H|].
  rewrite elem_of_app, elem_of_map_pair, !elem_of_cons.
  intros [[-> Hb]|H]; [tauto|]. apply IH in H. tauto.
Qed.

Lemma pairsOf_distinct (a b : PId) (l : list PId) :
  NoDup l → (a, b) ∈ pairsOf l → a ≠ b.
Proof.
  induction 1 as [|x l Hx Hl IH]; simpl; [intros H; by apply elem_of_nil in H|].
  rewrite elem_of_app, elem_of_map_pair.
  intros [[-> Hb]|H]; [|by apply IH]. intros ->. done.
Qed.

Lemma NoDup_pairsOf (l : list PId) : NoDup l → NoDup (pairsOf l).
Proof.
  induction 1 as [|x l Hx Hl IH]; simpl; [constructor|].
  apply list.NoDup_app. split; [by apply NoDup_map_pair|]. split; [|done].
  intros [a b] Hab Hab'. apply elem_of_map_pair in Hab as [-> _].
  apply elem_of_pairsOf in Hab' as [Ha _]. done.
Qed.

(** Two distinct entities of a cell are paired in one order exactly. *)
Lemma pairsOf_one_order (a b : PId) (l : list PId) :
  NoDup l → a ∈ l → b ∈ l → a ≠ b →
  (invocations a b (pairsOf l) + invocations b a (pairsOf l) = 1)%nat.
Proof.
  induction 1 as [|x l Hx Hl IH]; intros Ha Hb Hne;
    [by apply elem_of_nil in Ha|].
  simpl. rewrite !invocations_app.
  apply elem_of_cons in Ha as [->|Ha]; apply elem_of_cons in Hb as [->|Hb].
  - done.
  - rewrite (invocations_NoDup_in x b (map (pair x) l));
      [|by apply NoDup_map_pair|by apply elem_of_map_pair].
    rewrite (invocations_not_in x b (pairsOf l));
      [|intros H; by apply elem_of_pairsOf in H as [? _]].
    rewrite (invocations_not_in b x (map (pair x) l));
      [|intros H; apply elem_of_map_pair in H as [-> _]; done].
    rewrite (invocations_not_in b x (pairsOf l));
      [|intros H; by apply elem_of_pairsOf in H as [_ ?]].
    reflexivity.
  - rewrite (invocations_NoDup_in x a (map (pair x) l));
      [|by apply NoDup_map_pair|by apply elem_of_map_pair].
    rewrite (invocations_not_in x a (pairsOf l));
      [|intros H; by apply elem_of_pairsOf in H as [? _]].
    rewrite (invocations_not_in a x (map (pair x) l));
      [|intros H; apply elem_of_map_pair in H as [-> _]; done].
    rewrite (invocations_not_in a x (pairsOf l));
      [|intros H; by apply elem_of_pairsOf in H as [_ ?]].
    reflexivity.
  - rewrite (invocations_not_in a b (map (pair x) l));
      [|intros H; apply elem_of_map_pair in H as [-> _]; done].
    rewrite (invocations_not_in b a (map (pair x) l));
      [|intros H; apply elem_of_map_pair in H as [-> _]; done].
    by apply IH.
Qed.

Lemma elem_of_crossOf (a b : PId) (la lb : list PId) :
  (a, b) ∈ crossOf la lb ↔ a ∈ la ∧ b ∈ lb.
Proof.
  unfold crossOf. rewrite list_elem_of_bind. split.
  - intros (x & Hab & Hx). apply elem_of_map_pair in Hab as [-> Hb]. done.
  - intros [Ha Hb]. exists a. split; [by apply elem_of_map_pair|done].
Qed.

Lemma NoDup_crossOf (la lb : list PId) :
  NoDup la → NoDup lb → NoDup (crossOf la lb).
Proof.
  intros Ha Hb. unfold crossOf. apply NoDup_bind; [|by intros; apply NoDup_map_pair|done].
  intros x1 x2 [a b] _ _ H1 H2.
  apply elem_of_map_pair in H1 as [-> _]. by apply elem_of_map_pair in H2 as [-> _].
Qed.

Lemma invocations_crossOf (a b : PId) (la lb : list PId) :
  NoDup la → NoDup lb → a ∈ la → b ∈ lb →
  invocations a b (crossOf la lb) = 1%nat.
Proof.
  intros. apply invocations_NoDup_in; [by apply NoDup_crossOf|].
  by apply elem_of_crossOf.
Qed.

(** ** The cells of the grid *)

Lemma in_grid_seqZ (g : SpatialGrid.t) (cx cy : Z) :
  in_grid g cx cy
  ↔ cx ∈ seqZ 0 (SpatialGrid.cols g) ∧ cy ∈ seqZ 0 (SpatialGrid.rows g).
Proof. unfold in_grid. rewrite !elem_of_seqZ. lia. Qed.

Section OneCellEach.
Context (g : SpatialGrid.t) (f : Filter).
Hypothesis one_cell_each : NoDup (all_matching g f).

Lemma matching_NoDup (cx cy : Z) :
  in_grid g cx cy → NoDup (matching g f cx cy).
Proof.
  intros Hin. apply in_grid_seqZ in Hin as [Hx Hy].
  apply (NoDup_bind_one (fun cy => matching g f cx cy)
                        (seqZ 0 (SpatialGrid.rows g))); [|done].
  by apply (NoDup_bind_one _ _ cx one_cell_each).
Qed.

Lemma matching_cell_unique (a : PId) (cx1 cy1 cx2 cy2 : Z) :
  in_grid g cx1 cy1 → in_grid g cx2 cy2 →
  a ∈ matching g f cx1 cy1 → a ∈ matching g f cx2 cy2 →
  cx1 = cx2 ∧ cy1 = cy2.
Proof.
  intros H1 H2 Ha1 Ha2.
  apply in_grid_seqZ in H1 as [Hx1 Hy1]. apply in_grid_seqZ in H2 as [Hx2 Hy2].
  assert (cx1 = cx2) as <-.
  { apply (NoDup_bind_two _ _ cx1 cx2 a one_cell_each);
      [apply NoDup_seqZ|done|done| |].
    - apply list_elem_of_bind. by exists cy1.
    - apply list_elem_of_bind. by exists cy2. }
  split; [done|].
  apply (NoDup_bind_two (fun cy => matching g f cx1 cy)
                        (seqZ 0 (SpatialGrid.rows g)) cy1 cy2 a);
    [|apply NoDup_seqZ|done|done|done|done].
  by apply (NoDup_bind_one _ _ cx1 one_cell_each).
Qed.

(** Who is called by one [_applySymmetricCell]. *)
Lemma elem_of_stencil (x y : PId) (cx cy tx ty : Z) :
  (x, y) ∈ stencil g f cx cy tx ty →
  x ∈ matching g f cx cy ∧ y ∈ matching g f tx ty
  ∧ 0 ≤ tx < SpatialGrid.cols g ∧ 0 ≤ ty < SpatialGrid.rows g.
Proof.
  unfold stencil.
  destruct (_ || _ || _ || _) eqn:E; [intros H; by apply elem_of_nil in H|].
  rewrite !orb_false_iff in E. destruct E as (((E1 & E2) & E3) & E4).
  apply Z.ltb_ge in E1, E2. apply Z.leb_gt in E3, E4.
  destruct ((cx =? tx) && (cy =? ty)) eqn:Esame.
  - apply andb_true_iff in Esame as [Ex Ey]. apply Z.eqb_eq in Ex, Ey.
    subst tx ty. intros H. apply elem_of_pairsOf in H as [? ?].
    repeat split; (done || lia).
  - intros H. apply elem_of_crossOf in H as [? ?].
    repeat split; (done || lia).
Qed.

Lemma elem_of_callsAt (x y : PId) (cx cy : Z) :
  (x, y) ∈ callsAt g f cx cy → x ∈ matching g f cx cy.
Proof.
  unfold callsAt. rewrite !elem_of_app.
  intros [H|[H|[H|[H|H]]]]; by apply elem_of_stencil in H as [? _].
Qed.

(** No entity is paired with itself. *)
Lemma stencil_irreflexive (x : PId) (cx cy tx ty : Z) :
  in_grid g cx cy → (x, x) ∉ stencil g f cx cy tx ty.
Proof.
  intros Hin H. pose proof (elem_of_stencil _ _ _ _ _ _ H)
    as (Hx & Hx' & Htx & Hty).
  unfold stencil in H.
  destruct (_ || _ || _ || _); [by apply elem_of_nil in H|].
  destruct ((cx =? tx) && (cy =? ty)) eqn:Esame.
  - apply pairsOf_distinct in H; [done|by apply matching_NoDup].
  - destruct (matching_cell_unique x cx cy tx ty) as [-> ->];
      [done|by split|done|done|].
    rewrite !Z.eqb_refl in Esame. done.
Qed.

Section OnePair.
Context (a b : PId) (ax ay bx by_ : Z).
Hypothesis a_cell : in_grid g ax ay.
Hypothesis b_cell : in_grid g bx by_.
Hypothesis a_matches : a ∈ matching g f ax ay.
Hypothesis b_matches : b ∈ matching g f bx by_.

(** The calls [(a, b)] are all made for the cell of [a]. *)
Lemma invocations_at_cell :
  invocations a b (symmetricCalls g f)
  = invocations a b (callsAt g f ax ay).
Proof.
  pose proof a_cell as Hin. apply in_grid_seqZ in Hin as [Hx Hy].
  unfold symmetricCalls.
  rewrite (invocations_bind_unique a b _ _ ax); [|apply NoDup_seqZ|done|].
  - rewrite (invocations_bind_unique a b _ _ ay); [done|apply NoDup_seqZ|done|].
    intros cy Hcy Hne Hab. apply elem_of_callsAt in Hab.
    apply Hne. apply (matching_cell_unique a ax cy ax ay); try done.
    by apply in_grid_seqZ.
  - intros cx Hcx Hne Hab. apply list_elem_of_bind in Hab as (cy & Hab & Hcy).
    apply elem_of_callsAt in Hab.
    apply Hne. apply (matching_cell_unique a cx cy ax ay); try done.
    by apply in_grid_seqZ.
Qed.

(** A neighbour cell contributes the call exactly when it is the cell
    of [b]. *)
Lemma invocations_stencil_cross (tx ty : Z) :
  tx ≠ ax ∨ ty ≠ ay →
  invocations a b (stencil g f ax ay tx ty)
  = if decide (tx = bx ∧ ty = by_) then 1%nat else 0%nat.
Proof.
  intros Hother. destruct (decide (tx = bx ∧ ty = by_)) as [[-> ->]|Hne].
  - unfold stencil. destruct b_cell as [Hbx Hby].
    replace (bx <? 0) with false by (symmetry; apply Z.ltb_ge; lia).
    replace (by_ <? 0) with false by (symmetry; apply Z.ltb_ge; lia).
    replace (SpatialGrid.cols g <=? bx) with false
      by (symmetry; apply Z.leb_gt; lia).
    replace (SpatialGrid.rows g <=? by_) with false
      by (symmetry; apply Z.leb_gt; lia).
    cbn [orb].
    replace ((ax =? bx) && (ay =? by_)) with false.
    + apply invocations_crossOf; try done; by apply matching_NoDup.
    + symmetry. apply andb_false_iff.
      destruct Hother as [H|H]; [left|right]; apply Z.eqb_neq; congruence.
  - apply invocations_not_in. intros H.
    apply elem_of_stencil in H as (_ & Hb & Htx & Hty).
    apply Hne. apply (matching_cell_unique b); [by split|done|done|done].
Qed.

Lemma invocations_stencil_self :
  invocations a b (stencil g f ax ay ax ay)
  = invocations a b (pairsOf (matching g f ax ay)).
Proof.
  unfold stencil. destruct a_cell as [Hax Hay].
  replace (ax <? 0) with false by (symmetry; apply Z.ltb_ge; lia).
  replace (ay <? 0) with false by (symmetry; apply Z.ltb_ge; lia).
  replace (SpatialGrid.cols g <=? ax) with false
    by (symmetry; apply Z.leb_gt; lia).
  replace (SpatialGrid.rows g <=? ay) with false
    by (symmetry; apply Z.leb_gt; lia).
  by rewrite !Z.eqb_refl.
Qed.

(** The number of calls [(a, b)]: the own pairs of the cell of [a], and
    one for each forward offset that leads to the cell of [b]. *)
Lemma invocations_forward :
  invocations a b (symmetricCalls g f)
  = (invocations a b (pairsOf (matching g f ax ay))
     + (if decide ((ax + 1 = bx ∧ ay = by_)%Z) then 1 else 0)
     + (if decide ((ax + 1 = bx ∧ ay + 1 = by_)%Z) then 1 else 0)
     + (if decide ((ax = bx ∧ ay + 1 = by_)%Z) then 1 else 0)
     + (if decide ((ax - 1 = bx ∧ ay + 1 = by_)%Z) then 1 else 0))%nat.
Proof.
  rewrite invocations_at_cell. unfold callsAt.
  rewrite !invocations_app, invocations_stencil_self.
  rewrite !invocations_stencil_cross by lia. lia.
Qed.
End OnePair.
End OneCellEach.

(** The calls of one registered symmetric interaction, counted.  When
    every matching entity is returned by one cell only, and once, two
    distinct matching entities are paired once when their cells are within
    Chebyshev distance 1 and never otherwise. *)
Lemma symmetricCalls_pair_count (g : SpatialGrid.t) (f : Filter)
      (a b : PId) (ax ay bx by_ : Z) :
  NoDup (all_matching g f) →
  in_grid g ax ay → in_grid g bx by_ →
  a ∈ matching g f ax ay → b ∈ matching g f bx by_ → a ≠ b →
  (invocations a b (symmetricCalls g f)
   + invocations b a (symmetricCalls g f))%nat
  = if decide (Z.abs (ax - bx) ≤ 1 ∧ Z.abs (ay - by_) ≤ 1)
    then 1%nat else 0%nat.
Proof.
  intros Hnd Ha Hb Hma Hmb Hne.
  rewrite (invocations_forward g f Hnd a b ax ay bx by_) by done.
  rewrite (invocations_forward g f Hnd b a bx by_ ax ay) by done.
  destruct (decide (ax = bx ∧ ay = by_)) as [[-> ->]|Hcell].
  - pose proof (pairsOf_one_order a b (matching g f bx by_)
                  (matching_NoDup g f Hnd bx by_ Hb) Hma Hmb Hne) as Hone.
    repeat case_decide; lia.
  - rewrite (invocations_not_in a b (pairsOf (matching g f ax ay))).
    2:{ intros H. apply elem_of_pairsOf in H as [_ H]. apply Hcell.
        by apply (matching_cell_unique g f Hnd b). }
    rewrite (invocations_not_in b a (pairsOf (matching g f bx by_))).
    2:{ intros H. apply elem_of_pairsOf in H as [_ H]. apply Hcell.
        by apply (matching_cell_unique g f Hnd a). }
    repeat case_decide; lia.
Qed.

(** Under the same condition no entity is paired with itself. *)
Lemma symmetricCalls_no_self (g : SpatialGrid.t) (f : Filter) (a : PId) :
  NoDup (all_matching g f) →
  invocations a a (symmetricCalls g f) = 0%nat.
Proof.
  intros Hnd. apply invocations_not_in. unfold symmetricCalls. intros H.
  apply list_elem_of_bind in H as (cx & H & Hcx).
  apply list_elem_of_bind in H as (cy & H & Hcy).
  assert (Hin : in_grid g cx cy) by by apply in_grid_seqZ.
  unfold callsAt in H. rewrite !elem_of_app in H.
  destruct H as [H|[H|[H|[H|H]]]];
    by apply (stencil_irreflexive g f Hnd) in H.
Qed.

(** C1, for filters whose per-cell results hold each entity once.  A
    registered symmetric interaction is run over the grid with the
    recording interaction.  When every matching entity is returned by one
    cell only, and once, then two distinct matching entities are passed to
    the interaction exactly once, in one order or the other, when their
    cells are within Chebyshev distance 1, and never otherwise; and no
    entity is passed with itself. *)
Theorem symmetric_pairs_once (g : SpatialGrid.t) (f : Filter)
        (calls : list (PId * PId)) :
  ParticleSystem.symmetricInteraction g record f [] = Ok calls →
  NoDup (all_matching g f) →
  (∀ a b ax ay bx by_,
     in_grid g ax ay → in_grid g bx by_ →
     a ∈ matching g f ax ay → b ∈ matching g f bx by_ → a ≠ b →
     (invocations a b calls + invocations b a calls)%nat
     = if decide (Z.abs (ax - bx) ≤ 1 ∧ Z.abs (ay - by_) ≤ 1)
       then 1%nat else 0%nat)
  ∧ (∀ a, invocations a a calls = 0%nat).
Proof.
  intros Hrun Hnd. apply symmetricInteraction_record in Hrun as ->. split.
  - intros a b ax ay bx by_ Ha Hb Hma Hmb Hne.
    by apply symmetricCalls_pair_count.
  - intros a. by apply symmetricCalls_no_self.
Qed.

(** C1 on the specification's scenario: two entities tagged [a] in
    adjacent cells and a symmetric interaction registered for [a]; the
    interaction is called once. *)
Lemma symmetric_pairs_once_witness :
  ∃ calls,
    ParticleSystem.symmetricInteraction tagged_grid record (orFilter ["a"]) []
    = Ok calls
    ∧ (invocations 0%nat 1%nat calls + invocations 1%nat 0%nat calls = 1)%nat.
Proof.
  exists [(0%nat, 1%nat)]. split; [vm_compute; reflexivity|].
  destruct (symmetric_pairs_once tagged_grid (orFilter ["a"])
              [(0%nat, 1%nat)]) as [Hpairs _].
  - vm_compute. reflexivity.
  - apply (bool_decide_unpack (NoDup _)). vm_compute. exact I.
  - apply (Hpairs 0%nat 1%nat 0 0 1 0).
    + done.
    + done.
    + vm_compute. apply list_elem_of_here.
    + vm_compute. apply list_elem_of_here.
    + done.
Defined.

(** C1 with an or-filter over two tags.  Entity [0] carries both tags, so
    its cell returns it twice: the interaction is called with [0] and
    itself, and twice with the pair of [0] and its neighbour [1]. *)
Example symmetric_or_filter_repeats :
  SpatialGrid.particles tagged_grid = [0%nat; 1%nat]
  ∧ matching tagged_grid (orFilter ["a"; "b"]) 0 0 = [0%nat; 0%nat]
  ∧ matching tagged_grid (orFilter ["a"; "b"]) 1 0 = [1%nat]
  ∧ ParticleSystem.symmetricInteraction tagged_grid record
      (orFilter ["a"; "b"]) []
    = Ok [(0%nat, 0%nat); (0%nat, 1%nat); (0%nat, 1%nat)].
Proof. repeat split; vm_compute; reflexivity. Qed.

(** ** Symmetric interactions over all entities of a bucketed grid *)

Lemma matching_noFilter (g : SpatialGrid.t) (h : Heap) (cx cy : Z) (p : PId) :
  bucketed g h → in_grid g cx cy →
  (p ∈ matching g noFilter cx cy
   ↔ p ∈ SpatialGrid.particles g
     ∧ cellOf g h p = cy * SpatialGrid.cols g + cx).
Proof.
  intros (Hlen & Hnd & Hcnd & Hmem) [Hx Hy].
  unfold matching, SpatialGrid.getCell.
  assert (Hidx : 0 ≤ cx + cy * SpatialGrid.cols g
                 < SpatialGrid.rows g * SpatialGrid.cols g) by nia.
  destruct (lookup_lt_is_Some_2 (SpatialGrid.cells g)
              (Z.to_nat (cx + cy * SpatialGrid.cols g))) as [c Hc]; [lia|].
  replace (nth_Z (SpatialGrid.cells g) (cx + cy * SpatialGrid.cols g))
    with (Some c) by (symmetry; apply nth_Z_Some; split; [lia|done]).
  cbn. rewrite (Hmem _ _ p Hc). rewrite Z2Nat.id by lia.
  split; intros [? ?]; split; (done || lia).
Qed.

Lemma cell_coordinates_unique (cols cx1 cy1 cx2 cy2 : Z) :
  0 ≤ cx1 < cols → 0 ≤ cx2 < cols →
  cy1 * cols + cx1 = cy2 * cols + cx2 → cx1 = cx2 ∧ cy1 = cy2.
Proof. intros H1 H2 Heq. assert (cy1 = cy2) by nia. subst. lia. Qed.

(** In a bucketed grid the unfiltered cell lists hold each entity once. *)
Lemma bucketed_one_cell_each (g : SpatialGrid.t) (h : Heap) :
  bucketed g h → NoDup (all_matching g noFilter).
Proof.
  intros Hb. unfold all_matching.
  apply NoDup_bind; [| |apply NoDup_seqZ].
  - intros cx1 cx2 p Hx1 Hx2 H1 H2.
    apply list_elem_of_bind in H1 as (cy1 & H1 & Hy1).
    apply list_elem_of_bind in H2 as (cy2 & H2 & Hy2).
    apply (matching_noFilter g h) in H1 as [_ H1];
      [|done|by apply in_grid_seqZ].
    apply (matching_noFilter g h) in H2 as [_ H2];
      [|done|by apply in_grid_seqZ].
    apply elem_of_seqZ in Hx1, Hx2.
    apply (cell_coordinates_unique (SpatialGrid.cols g) cx1 cy1 cx2 cy2);
      [lia|lia|congruence].
  - intros cx Hx. apply NoDup_bind; [| |apply NoDup_seqZ].
    + intros cy1 cy2 p Hy1 Hy2 H1 H2.
      apply (matching_noFilter g h) in H1 as [_ H1];
        [|done|by apply in_grid_seqZ].
      apply (matching_noFilter g h) in H2 as [_ H2];
        [|done|by apply in_grid_seqZ].
      apply elem_of_seqZ in Hx.
      apply (cell_coordinates_unique (SpatialGrid.cols g) cx cy1 cx cy2);
        [lia|lia|congruence].
    + intros cy Hy. unfold matching, SpatialGrid.getCell.
      destruct (nth_Z _ _) as [c|] eqn:Ec; [|constructor].
      apply nth_Z_Some in Ec as [_ Ec]. cbn.
      destruct Hb as (_ & _ & Hcnd & _). by eapply Hcnd.
Qed.

(** The pairwise-dedup property of the specification: for a symmetric
    interaction registered over all entities of a bucketed grid, two
    distinct live entities in the cells [(ax, ay)] and [(bx, by)] are
    passed to the interaction exactly once when the cells are within
    Chebyshev distance 1 and never otherwise, and no entity is passed with
    itself. *)
Theorem symmetric_all_entities_once (g : SpatialGrid.t) (h : Heap)
        (calls : list (PId * PId)) :
  bucketed g h →
  ParticleSystem.symmetricInteraction g record noFilter [] = Ok calls →
  (∀ a b ax ay bx by_,
     in_grid g ax ay → in_grid g bx by_ →
     a ∈ SpatialGrid.particles g → b ∈ SpatialGrid.particles g →
     cellOf g h a = ay * SpatialGrid.cols g + ax →
     cellOf g h b = by_ * SpatialGrid.cols g + bx →
     a ≠ b →
     (invocations a b calls + invocations b a calls)%nat
     = if decide (Z.abs (ax - bx) ≤ 1 ∧ Z.abs (ay - by_) ≤ 1)
       then 1%nat else 0%nat)
  ∧ (∀ a, invocations a a calls = 0%nat).
Proof.
  intros Hb Hrun. apply symmetricInteraction_record in Hrun as ->.
  pose proof (bucketed_one_cell_each g h Hb) as Hnd. split.
  - intros a b ax ay bx by_ Ha Hb' Hla Hlb Hca Hcb Hne.
    apply symmetricCalls_pair_count; try done;
      by apply (matching_noFilter g h).
  - intros a. by apply symmetricCalls_no_self.
Qed.

(** ** Further properties *)

(** A grid with no live particle and no member in any cell is bucketed. *)
Lemma bucketed_empty (g : SpatialGrid.t) (h : Heap) :
  length (SpatialGrid.cells g)
  = Z.to_nat (SpatialGrid.rows g * SpatialGrid.cols g) →
  SpatialGrid.particles g = [] →
  Forall (fun c => TagIndex.particles c = []) (SpatialGrid.cells g) →
  bucketed g h.
Proof.
  intros Hlen Hparts Hcells. split; [done|]. rewrite Hparts.
  split; [constructor|]. split.
  - intros i c Hc. rewrite (proj1 (Forall_lookup _ _) Hcells i c Hc).
    constructor.
  - intros i c p Hc. rewrite (proj1 (Forall_lookup _ _) Hcells i c Hc).
    split; [intros Hp|intros [Hp _]]; by apply elem_of_nil in Hp.
Qed.

Lemma tagged_system_bucketed : system_bucketed tagged_system.
Proof.
  split.
  - apply bucketed_empty.
    + vm_compute. reflexivity.
    + vm_compute. reflexivity.
    + apply (bool_decide_unpack (Forall _ _)). vm_compute. exact I.
  - apply (bool_decide_unpack (NoDup _)). vm_compute. exact I.
Defined.

Lemma tagged_system_callbacks : callbacks_keep_positions tagged_system.
Proof.
  split; [|split].
  - intros b f p Hin. by apply elem_of_nil in Hin.
  - intros i f nf p ns Hin. by apply elem_of_nil in Hin.
  - intros i f a b Hin. by apply elem_of_nil in Hin.
Defined.

Lemma tagged_after_bucketed :
  bucketed tagged_grid (ParticleSystem.heap tagged_after).
Proof.
  destruct (update_bucketed (H := exactSqrt) tagged_system
              tagged_after) as [[Hb _] _].
  - exact tagged_system_bucketed.
  - exact tagged_system_callbacks.
  - vm_compute. reflexivity.
  - exact Hb.
Defined.

(** The scenario of the specification: the entities [0] and [1] of
    [tagged_grid] sit in the adjacent cells (0, 0) and (1, 0); a symmetric
    interaction registered over all entities is called once. *)
Lemma symmetric_all_entities_once_witness :
  ∃ calls,
    ParticleSystem.symmetricInteraction tagged_grid record noFilter []
    = Ok calls
    ∧ (invocations 0%nat 1%nat calls + invocations 1%nat 0%nat calls = 1)%nat.
Proof.
  exists [(0%nat, 1%nat)]. split; [vm_compute; reflexivity|].
  destruct (symmetric_all_entities_once tagged_grid
              (ParticleSystem.heap tagged_after) [(0%nat, 1%nat)])
    as [Hpairs _].
  - exact tagged_after_bucketed.
  - vm_compute. reflexivity.
  - apply (Hpairs 0%nat 1%nat 0 0 1 0).
    + done.
    + done.
    + vm_compute. apply list_elem_of_here.
    + vm_compute. apply list_elem_of_further, list_elem_of_here.
    + vm_compute. reflexivity.
    + vm_compute. reflexivity.
    + done.
Defined.

(** [createParticle] defers: whatever it answers, the grid is left as it
    was, so every query answers as before; an accepted particle is new, it
    is appended to the creation queue, and it is in the flat list of the
    grid once the commit phase of the next tick has run. *)
Theorem createParticle_defers (s s' : ParticleSystem.t) (pos : Vector3.t)
        (allowOutside : bool) (r : option PId) :
  ParticleSystem.createParticle pos allowOutside s = Ok (r, s') →
  ParticleSystem.grid s' = ParticleSystem.grid s
  ∧ (∀ q, ParticleSystem.query s' q = ParticleSystem.query s q)
  ∧ (∀ p, r = Some p →
          p = ParticleSystem.nextParticle s
          ∧ ParticleSystem.particleCreationQueue s'
            = ParticleSystem.particleCreationQueue s ++ [p]
          ∧ ∀ g1, forEachM (SpatialGrid.addParticle (ParticleSystem.heap s'))
                           (ParticleSystem.particleCreationQueue s')
                           (ParticleSystem.grid s') = Ok g1 →
                  p ∈ SpatialGrid.particles g1).
Proof.
  unfold ParticleSystem.createParticle. intros Hc.
  apply bind_Ok in Hc as (ok & _ & Hc).
  destruct ok; injection Hc as <- <-; cbn [ParticleSystem.grid].
  - split; [done|]. split; [done|]. intros p [= <-].
    cbn [ParticleSystem.particleCreationQueue ParticleSystem.heap].
    split; [done|]. split; [done|]. intros g1.
    rewrite forEachM_app. intros Hg1.
    apply bind_Ok in Hg1 as (g0 & _ & Hg1). simpl in Hg1.
    apply bind_Ok in Hg1 as (g2 & Hg2 & [= <-]).
    unfold SpatialGrid.addParticle in Hg2.
    destruct (negb _); [done|].
    destruct (nth_Z _ _); [|done]. injection Hg2 as <-.
    cbn [SpatialGrid.particles SpatialGrid.set_globalTagIndex
         SpatialGrid.set_cell SpatialGrid.set_particles].
    apply elem_of_app. right. apply list_elem_of_here.
  - split; [done|]. split; [done|]. intros p [=].
Qed.

Lemma createParticle_defers_witness :
  ParticleSystem.createParticle (Vector3.mk 5 5 0) false system200
  = Ok (Some 0%nat, created200)
  ∧ ParticleSystem.query created200 (mkQuery noFilter None) = Ok [].
Proof.
  assert (Hc : ParticleSystem.createParticle (Vector3.mk 5 5 0) false system200
               = Ok (Some 0%nat, created200)) by (vm_compute; reflexivity).
  split; [exact Hc|].
  destruct (createParticle_defers system200 created200 _ _ _ Hc)
    as (_ & Hq & _).
  rewrite Hq. reflexivity.
Defined.

(** The bucket invariant does not survive a callback that moves a
    particle.  In [bounce_system] particle [0] starts at (9, 5) with
    velocity (3, 0, 0).  The first tick takes it to (12, 5), outside the
    box but inside the grid, and into cell [1].  In the second tick the
    boundary bounce puts it back to (9, 5) before the integration step, so
    [updateParticles] captures cell [0] as the old cell, finds the same
    cell after the step, and leaves the particle in the member list of
    cell [1]. *)
Example bounce_leaves_stale_cell :
  ∃ s1 s2,
    ParticleSystem.update (H := exactSqrt) bounce_system = Ok s1
    ∧ ParticleSystem.update (H := exactSqrt) s1 = Ok s2
    ∧ Particle.position (particle (ParticleSystem.heap s2) 0%nat)
      = Vector3.mk 6 5 0
    ∧ cellOf (ParticleSystem.grid s2) (ParticleSystem.heap s2) 0%nat = 0
    ∧ map TagIndex.particles (SpatialGrid.cells (ParticleSystem.grid s2))
      = [[]; [0%nat]; []; []].
Proof.
  eexists _, _. split; [vm_compute; reflexivity|].
  split; [vm_compute; reflexivity|]. repeat split.
Qed.

(** ** The bucket invariant on every reachable system *)

Lemma members_ok_live (cells : list TagIndex.t) (live : list PId)
      (w w' : PId → Z) :
  (∀ q, q ∈ live → w' q = w q) →
  members_ok cells live w → members_ok cells live w'.
Proof.
  intros Hw [Hnd Hmem]. split; [done|].
  intros i c q Hc. rewrite (Hmem i c q Hc). split.
  - intros [Hq Hi]. split; [done|]. by rewrite Hw.
  - intros [Hq Hi]. split; [done|]. by rewrite <- Hw.
Qed.

Lemma bucketed_positions_live (g : SpatialGrid.t) (h h' : Heap) :
  (∀ q, q ∈ SpatialGrid.particles g →
        Particle.position (particle h' q) = Particle.position (particle h q)) →
  bucketed g h → bucketed g h'.
Proof.
  intros Hpos (Hlen & Hnd & Hok). split; [done|]. split; [done|].
  eapply members_ok_live; [|exact Hok].
  intros q Hq. by apply cellOf_same; [..|apply Hpos].
Qed.

(** Cells that keep their member lists keep the invariant. *)
Lemma members_ok_insert (cells : list TagIndex.t) (live : list PId)
      (w : PId → Z) (i : nat) (c c' : TagIndex.t) :
  cells !! i = Some c → TagIndex.particles c' = TagIndex.particles c →
  members_ok cells live w → members_ok (<[i := c']> cells) live w.
Proof.
  intros Hc Hsame [Hnd Hmem]. split.
  - intros j d Hd. apply list_lookup_insert_Some in Hd
      as [(<- & <- & _)|(Hne & Hd)]; [|by eapply Hnd].
    rewrite Hsame. by eapply Hnd.
  - intros j d q Hd. apply list_lookup_insert_Some in Hd
      as [(<- & <- & _)|(Hne & Hd)]; [|by apply Hmem].
    rewrite Hsame. by apply Hmem.
Qed.

Lemma addTag_bucketed (h h' : Heap) (p : PId) (tag : Tag) (g : SpatialGrid.t) :
  bucketed g h' → bucketed (SpatialGrid.addTag h p tag g) h'.
Proof.
  intros (Hlen & Hnd & Hok). unfold SpatialGrid.addTag.
  set (idx := SpatialGrid.hashPosition g (Particle.position (particle h p))).
  destruct ((0 <=? idx) && (idx <? Z.of_nat (length (SpatialGrid.cells g))));
    [|done].
  destruct (nth_Z (SpatialGrid.cells g) idx) as [c|] eqn:Ec; [|done].
  apply nth_Z_Some in Ec as [_ Ec].
  split; [|split; [done|]].
  - cbn. by rewrite length_insert.
  - cbn. eapply members_ok_insert; [done|apply addTag_particles|exact Hok].
Qed.

Lemma removeTag_bucketed (h h' : Heap) (p : PId) (tag : Tag)
      (g : SpatialGrid.t) :
  bucketed g h' → bucketed (SpatialGrid.removeTag h p tag g) h'.
Proof.
  intros (Hlen & Hnd & Hok). unfold SpatialGrid.removeTag.
  set (idx := SpatialGrid.hashPosition g (Particle.position (particle h p))).
  destruct ((0 <=? idx) && (idx <? Z.of_nat (length (SpatialGrid.cells g))));
    [|done].
  destruct (nth_Z (SpatialGrid.cells g) idx) as [c|] eqn:Ec; [|done].
  apply nth_Z_Some in Ec as [_ Ec].
  split; [|split; [done|]].
  - cbn. by rewrite length_insert.
  - cbn. eapply members_ok_insert; [done|apply removeTag_particles|exact Hok].
Qed.

(** The flat list through the phases of a tick. *)
Lemma commit_particles (h : Heap) (queue : list PId) (g g' : SpatialGrid.t) :
  forEachM (SpatialGrid.addParticle h) queue g = Ok g' →
  SpatialGrid.particles g' = SpatialGrid.particles g ++ queue.
Proof.
  revert g. induction queue as [|p queue IH]; intros g; simpl.
  - intros [= <-]. by rewrite app_nil_r.
  - intros Hq. apply bind_Ok in Hq as (g1 & Hg1 & Hq).
    rewrite (IH g1 Hq). unfold SpatialGrid.addParticle in Hg1.
    destruct (negb _); [done|]. destruct (nth_Z _ _); [|done].
    injection Hg1 as <-. cbn. by rewrite <- app_assoc.
Qed.

Lemma updateParticles_particles `{MathSqrt} (maxForce : Q)
      (g : SpatialGrid.t) (h : Heap) :
  SpatialGrid.particles (fst (ParticleSystem.updateParticles maxForce (g, h)))
  = SpatialGrid.particles g.
Proof.
  unfold ParticleSystem.updateParticles. cbn [fst].
  apply (forEach_invariant
           (fun gh => SpatialGrid.particles (fst gh) = SpatialGrid.particles g));
    [|done].
  intros p [g1 h1] _ Hg1. cbn [fst] in *.
  cbn [ParticleSystem.updateParticle fst].
  by destruct (updateCell_frame
                 (upd_particle p (Particle.update maxForce) h1) p
                 (SpatialGrid.hashPosition g1
                    (Particle.position (particle h1 p))) g1)
    as (_ & _ & _ & -> & _).
Qed.

Lemma removeParticle_particles (p : PId) (g g' : SpatialGrid.t) (h h' : Heap) :
  SpatialGrid.removeParticle p (g, h) = Ok (g', h') →
  ∀ q, q ∈ SpatialGrid.particles g' → q ∈ SpatialGrid.particles g.
Proof.
  unfold SpatialGrid.removeParticle. intros Hr.
  apply bind_Ok in Hr as (g1 & Hg1 & [= <- <-]). intros q. cbn.
  intros Hq. apply elem_of_spliceOut in Hq.
  destruct (0 <=? _); [|by injection Hg1 as <-].
  destruct (nth_Z _ _); [|done]. by injection Hg1 as <-.
Qed.

Lemma update_particles `{MathSqrt} (s s' : ParticleSystem.t) :
  ParticleSystem.update s = Ok s' →
  ∀ q, q ∈ SpatialGrid.particles (ParticleSystem.grid s') →
       q ∈ SpatialGrid.particles (ParticleSystem.grid s)
           ++ ParticleSystem.particleCreationQueue s.
Proof.
  intros Hup.
  destruct (update_phases s s' Hup)
    as (g1 & h4 & g6 & h6 & Hcommit & _ & Hclean & Hgrid & _).
  cbv zeta in Hclean. rewrite Hgrid.
  rewrite <- (commit_particles _ _ _ _ Hcommit).
  rewrite <- (updateParticles_particles (ParticleSystem.maxForce s) g1 h4).
  destruct (ParticleSystem.updateParticles (ParticleSystem.maxForce s) (g1, h4))
    as [g5 h5]. cbn [fst snd] in *.
  change g6 with (fst (g6, h6)).
  eapply (forEachM_invariant
            (fun gh => ∀ q, q ∈ SpatialGrid.particles (fst gh) →
                            q ∈ SpatialGrid.particles g5) _ _ (g5, h5));
    [|done|exact Hclean].
  intros p [ga ha] [gb hb] _ Ha Hrem q Hq. cbn [fst] in *.
  apply Ha. by eapply removeParticle_particles.
Qed.

Lemma addTag_frame (h : Heap) (p : PId) (tag : Tag) (g : SpatialGrid.t) :
  SpatialGrid.particles (SpatialGrid.addTag h p tag g)
  = SpatialGrid.particles g.
Proof.
  unfold SpatialGrid.addTag.
  by repeat (destruct (_ && _) || destruct (nth_Z _ _)).
Qed.

Lemma removeTag_frame (h : Heap) (p : PId) (tag : Tag) (g : SpatialGrid.t) :
  SpatialGrid.particles (SpatialGrid.removeTag h p tag g)
  = SpatialGrid.particles g.
Proof.
  unfold SpatialGrid.removeTag.
  by repeat (destruct (_ && _) || destruct (nth_Z _ _)).
Qed.

Lemma set_tags_keeps_positions (p : PId) (tags : list Tag) :
  keeps_positions (upd_particle p (Particle.set_tags tags)).
Proof. by apply upd_particle_position. Qed.

(** Every reachable system is bucketed, its callbacks move no particle, and
    its identifiers are fresh. *)
Theorem reachable_bucketed `{MathSqrt} (s : ParticleSystem.t) :
  reachable s →
  system_bucketed s ∧ callbacks_keep_positions s ∧ ids_fresh s.
Proof.
  induction 1 as [b cs mp md
                 |s pos allow r s' Hr IH Hc
                 |s a b len k Hr IH
                 |s p tag Hr IH
                 |s p tag Hr IH
                 |s fn f Hfn Hr IH
                 |s fn f nf Hfn Hr IH
                 |s fn f Hfn Hr IH
                 |s n Hr IH
                 |s n Hr IH
                 |s d Hr IH
                 |s f Hf Hr IH
                 |s s' Hr IH Hup].
  - (* the constructor *)
    split; [split|split].
    + apply bucketed_new.
    + constructor.
    + split; [|split]; intros; by match goal with
                                  | Hin : _ ∈ _ |- _ => apply elem_of_nil in Hin
                                  end.
    + constructor.
  - (* createParticle *)
    destruct IH as ([Hb Hq] & Hcb & Hfresh).
    unfold ParticleSystem.createParticle in Hc.
    apply bind_Ok in Hc as (ok & _ & Hc).
    destruct ok; injection Hc as <- <-; [|done].
    set (p := ParticleSystem.nextParticle s) in *.
    assert (Hnew : p ∉ SpatialGrid.particles (ParticleSystem.grid s)
                       ++ ParticleSystem.particleCreationQueue s).
    { intros Hin. apply (proj1 (list.Forall_forall _ _) Hfresh) in Hin.
      unfold p in Hin. lia. }
    split; [split|split].
    + cbn [ParticleSystem.grid ParticleSystem.heap].
      eapply bucketed_positions_live; [|exact Hb].
      intros q Hq'. cbn. rewrite fn_lookup_insert_ne; [done|].
      intros <-. apply Hnew. apply elem_of_app. by left.
    + cbn [ParticleSystem.grid ParticleSystem.particleCreationQueue].
      rewrite app_assoc. apply list.NoDup_app. split; [done|].
      split; [|apply NoDup_singleton].
      intros x Hx Hx'. apply list_elem_of_singleton in Hx' as ->. done.
    + exact Hcb.
    + unfold ids_fresh.
      cbn [ParticleSystem.grid ParticleSystem.particleCreationQueue
           ParticleSystem.nextParticle].
      rewrite app_assoc. apply Forall_app. split.
      * apply list.Forall_forall. intros x Hx.
        apply (proj1 (list.Forall_forall _ _) Hfresh) in Hx. fold p in Hx. lia.
      * apply Forall_singleton. lia.
  - (* createSpring *)
    destruct IH as ([Hb Hq] & Hcb & Hfresh).
    split; [split|split]; try done.
    cbn [ParticleSystem.createSpring snd ParticleSystem.grid ParticleSystem.heap].
    eapply bucketed_positions; [|exact Hb]. intros q.
    rewrite !upd_particle_position by done. reflexivity.
  - (* addTag *)
    destruct IH as ([Hb Hq] & Hcb & Hfresh).
    unfold ParticleSystem.particle_addTag.
    set (tags' := if bool_decide _ then _ else _).
    set (h1 := upd_particle p (Particle.set_tags tags') (ParticleSystem.heap s)).
    assert (Hb1 : bucketed (ParticleSystem.grid s) h1).
    { eapply bucketed_positions; [|exact Hb]. intros q.
      apply set_tags_keeps_positions. }
    cbn [ParticleSystem.heap ParticleSystem.set_heap].
    destruct (Particle.system (particle h1 p));
      [|split; [split; [exact Hb1|exact Hq]|split; [exact Hcb|exact Hfresh]]].
    split; [split|split]; try done.
    + unfold ParticleSystem.addTag. cbn [ParticleSystem.grid ParticleSystem.set_grid ParticleSystem.heap ParticleSystem.set_heap
           ParticleSystem.particleCreationQueue ParticleSystem.nextParticle].
      by apply addTag_bucketed.
    + unfold ParticleSystem.addTag. cbn [ParticleSystem.grid ParticleSystem.set_grid ParticleSystem.heap ParticleSystem.set_heap
           ParticleSystem.particleCreationQueue ParticleSystem.nextParticle].
      by rewrite addTag_frame.
    + unfold ids_fresh, ParticleSystem.addTag. cbn [ParticleSystem.grid ParticleSystem.set_grid ParticleSystem.heap ParticleSystem.set_heap
           ParticleSystem.particleCreationQueue ParticleSystem.nextParticle].
      by rewrite addTag_frame.
  - (* removeTag *)
    destruct IH as ([Hb Hq] & Hcb & Hfresh).
    unfold ParticleSystem.particle_removeTag.
    set (tags' := filter _ _).
    set (h1 := upd_particle p (Particle.set_tags tags') (ParticleSystem.heap s)).
    assert (Hb1 : bucketed (ParticleSystem.grid s) h1).
    { eapply bucketed_positions; [|exact Hb]. intros q.
      apply set_tags_keeps_positions. }
    cbn [ParticleSystem.heap ParticleSystem.set_heap].
    destruct (Particle.system (particle h1 p));
      [|split; [split; [exact Hb1|exact Hq]|split; [exact Hcb|exact Hfresh]]].
    split; [split|split]; try done.
    + unfold ParticleSystem.removeTag. cbn [ParticleSystem.grid ParticleSystem.set_grid ParticleSystem.heap ParticleSystem.set_heap
           ParticleSystem.particleCreationQueue ParticleSystem.nextParticle].
      by apply removeTag_bucketed.
    + unfold ParticleSystem.removeTag. cbn [ParticleSystem.grid ParticleSystem.set_grid ParticleSystem.heap ParticleSystem.set_heap
           ParticleSystem.particleCreationQueue ParticleSystem.nextParticle].
      by rewrite removeTag_frame.
    + unfold ids_fresh, ParticleSystem.removeTag. cbn [ParticleSystem.grid ParticleSystem.set_grid ParticleSystem.heap ParticleSystem.set_heap
           ParticleSystem.particleCreationQueue ParticleSystem.nextParticle].
      by rewrite removeTag_frame.
  - (* addParticleBehavior *)
    destruct IH as (Hsb & (Hb & Hi & Hs) & Hfresh).
    split; [done|split; [|done]]. split; [|by split].
    intros b f' p Hin. cbn in Hin.
    apply elem_of_app in Hin as [Hin|Hin]; [by eapply Hb|].
    apply list_elem_of_singleton in Hin as [= -> ->]. apply Hfn.
  - (* addParticleInteraction *)
    destruct IH as (Hsb & (Hb & Hi & Hs) & Hfresh).
    split; [done|split; [|done]]. split; [done|split; [|done]].
    intros i f' nf' p ns Hin. cbn in Hin.
    apply elem_of_app in Hin as [Hin|Hin]; [by eapply Hi|].
    apply list_elem_of_singleton in Hin as [= -> -> ->]. apply Hfn.
  - (* addSymmetricParticleInteraction *)
    destruct IH as (Hsb & (Hb & Hi & Hs) & Hfresh).
    split; [done|split; [|done]]. split; [done|split; [done|]].
    intros i f' a b Hin. cbn in Hin.
    apply elem_of_app in Hin as [Hin|Hin]; [by eapply Hs|].
    apply list_elem_of_singleton in Hin as [= -> ->]. apply Hfn.
  - exact IH.
  - exact IH.
  - exact IH.
  - (* access to the objects *)
    destruct IH as ([Hb Hq] & Hcb & Hfresh).
    split; [split|split]; try done.
    cbn. eapply bucketed_positions; [|exact Hb]. intros q. apply Hf.
  - (* a tick *)
    destruct IH as (Hsb & Hcb & Hfresh).
    destruct (update_bucketed s s' Hsb Hcb Hup) as (Hsb' & Hcb').
    split; [done|split; [done|]].
    destruct (update_phases s s' Hup)
      as (g1 & h4 & g6 & h6 & _ & _ & _ & _ & _ & _ & Hqueue & _ & _ & _ & _
          & Hnext & _).
    unfold ids_fresh. rewrite Hqueue, app_nil_r, Hnext.
    apply list.Forall_forall. intros q Hq.
    apply (proj1 (list.Forall_forall _ _) Hfresh).
    by apply (update_particles s s' Hup).
Qed.

(** The bucket invariant in the words of the specification, for every
    system a program can reach with callbacks that move no particle: a live
    entity whose position hashes to a cell is a member of that cell and of
    no other, and a live entity whose position hashes outside the grid is a
    member of no cell. *)
Theorem reachable_in_its_cell `{MathSqrt} (s : ParticleSystem.t) (p : PId) :
  reachable s →
  p ∈ SpatialGrid.particles (ParticleSystem.grid s) →
  let g := ParticleSystem.grid s in
  let h := ParticleSystem.heap s in
  (cellOf g h p ≠ -1 → in_its_cell g h p)
  ∧ (cellOf g h p = -1 →
     ∀ i c, SpatialGrid.cells g !! i = Some c → p ∉ TagIndex.particles c).
Proof.
  intros Hr Hp g h.
  destruct (reachable_bucketed s Hr) as ([Hb _] & _ & _). split.
  - by apply bucketed_in_its_cell.
  - intros Hout i c Hc Hin. destruct Hb as (_ & _ & _ & Hmem).
    apply (Hmem i c p Hc) in Hin as [_ Hin]. fold g h in Hin. lia.
Qed.

Lemma ticked200_reachable : reachable (H := exactSqrt) ticked200.
Proof.
  apply (reachable_update (H := exactSqrt)
           (ParticleSystem.particle_addTag 0%nat "a" created200) ticked200).
  - apply (reachable_addTag (H := exactSqrt) created200 0%nat "a").
    apply (reachable_createParticle (H := exactSqrt) system200
             (Vector3.mk 5 5 0) false (Some 0%nat) created200).
    + apply reachable_new.
    + vm_compute. reflexivity.
  - vm_compute. reflexivity.
Defined.

(** After its first tick the particle of [ticked200] is in its cell. *)
Lemma reachable_in_its_cell_witness :
  in_its_cell (ParticleSystem.grid ticked200) (ParticleSystem.heap ticked200)
              0%nat.
Proof.
  apply (reachable_in_its_cell (H := exactSqrt) ticked200 0%nat).
  - exact ticked200_reachable.
  - vm_compute. apply list_elem_of_here.
  - vm_compute. discriminate.
Defined.

(** ** The errors of a tick *)

Lemma same_shape_refl (g : SpatialGrid.t) : same_shape g g.
Proof. by repeat split. Qed.

Lemma same_shape_trans (g1 g2 g3 : SpatialGrid.t) :
  same_shape g1 g2 → same_shape g2 g3 → same_shape g1 g3.
Proof.
  intros (?&?&?&?&?) (?&?&?&?&?). repeat split; congruence.
Qed.

Lemma geometry_shape (g g' : SpatialGrid.t) :
  same_shape g g' →
  geometry (SpatialGrid.bounds g) g → geometry (SpatialGrid.bounds g') g'.
Proof.
  intros (Hb & Hcs & Hr & Hc & Hl) (H0 & Hpos & Hrows & Hcols & Hlen).
  unfold geometry. rewrite Hb, Hcs, Hr, Hc, Hl. done.
Qed.

Lemma set_cell_shape (idx : Z) (c : TagIndex.t) (g : SpatialGrid.t) :
  same_shape g (SpatialGrid.set_cell idx c g).
Proof.
  unfold same_shape. cbn. by rewrite length_insert.
Qed.

Lemma bind_Ok_l {A B : Type} (a : A) (f : A → result B) :
  (Ok a ≫= f) = f a.
Proof. reflexivity. Qed.

(** A loop whose every step succeeds and keeps an invariant succeeds. *)
Lemma forEachM_ok {A S : Type} (P : S → Prop) (f : A → S → result S)
      (l : list A) (s : S) :
  (∀ a s1, a ∈ l → P s1 → ∃ s2, f a s1 = Ok s2 ∧ P s2) →
  P s → ∃ s', forEachM f l s = Ok s' ∧ P s'.
Proof.
  revert s. induction l as [|a l IH]; intros s Hstep Hs; simpl.
  - by exists s.
  - destruct (Hstep a s) as (s2 & -> & Hs2); [apply list_elem_of_here|done|].
    cbn. apply IH; [|done].
    intros b s1 Hb. apply Hstep. by apply list_elem_of_further.
Qed.

Lemma forEachM_total {A S : Type} (f : A → S → result S) (l : list A)
      (s : S) :
  (∀ a s1, a ∈ l → ∃ s2, f a s1 = Ok s2) → ∃ s', forEachM f l s = Ok s'.
Proof.
  intros Hstep.
  destruct (forEachM_ok (fun _ => True) f l s) as (s' & Hs' & _);
    [|done|by exists s'].
  intros a s1 Ha _. destruct (Hstep a s1 Ha) as [s2 ->]. eauto.
Qed.

(** [TagIndex.query] throws on the empty [and] list and on nothing else. *)
Lemma TagIndex_query_ok (c : TagIndex.t) (f : Filter) :
  filter_ok f → ∃ r, TagIndex.query c f = Ok r.
Proof.
  unfold filter_ok, TagIndex.query.
  destruct f as [[[|t ts]|] o]; cbn; intros Hf.
  - done.
  - eauto.
  - destruct o; eauto.
Qed.

Lemma visited_range (g : SpatialGrid.t) (cellX cellY radius idx : Z) :
  idx ∈ SpatialGrid.visited g cellX cellY radius →
  0 ≤ idx < SpatialGrid.rows g * SpatialGrid.cols g.
Proof.
  unfold SpatialGrid.visited. intros Hin.
  apply list_elem_of_bind in Hin as (x & Hin & _).
  apply list_elem_of_bind in Hin as (y & Hin & _).
  destruct (_ && _) eqn:E; [|by apply elem_of_nil in Hin].
  apply list_elem_of_singleton in Hin as ->.
  apply andb_true_iff in E as [E Hy2]. apply andb_true_iff in E as [E Hy1].
  apply andb_true_iff in E as [Hx1 Hx2]. nia.
Qed.

Lemma cells_lookup_ok (g : SpatialGrid.t) (idx : Z) :
  length (SpatialGrid.cells g)
  = Z.to_nat (SpatialGrid.rows g * SpatialGrid.cols g) →
  0 ≤ idx < SpatialGrid.rows g * SpatialGrid.cols g →
  ∃ c, nth_Z (SpatialGrid.cells g) idx = Some c.
Proof.
  intros Hlen Hidx.
  destruct (lookup_lt_is_Some_2 (SpatialGrid.cells g) (Z.to_nat idx))
    as [c Hc]; [lia|].
  exists c. apply nth_Z_Some. split; [lia|done].
Qed.

Lemma grid_query_ok (g : SpatialGrid.t) (q : Query) :
  length (SpatialGrid.cells g)
  = Z.to_nat (SpatialGrid.rows g * SpatialGrid.cols g) →
  filter_ok (q_tags q) → ∃ r, SpatialGrid.query g q = Ok r.
Proof.
  intros Hlen Hf. unfold SpatialGrid.query.
  destruct (q_position q) as [pos|]; [|by apply TagIndex_query_ok].
  apply forEachM_total.
  intros idx out Hidx. apply visited_range in Hidx.
  destruct (cells_lookup_ok g idx Hlen Hidx) as [c ->].
  destruct (TagIndex_query_ok c (q_tags q) Hf) as [r ->]. rewrite bind_Ok_l; cbn beta. eauto.
Qed.

Lemma interactionPhase_ok (g : SpatialGrid.t)
      (registered : list (ParticleSystem.Interaction * Filter * Filter))
      (h : Heap) :
  length (SpatialGrid.cells g)
  = Z.to_nat (SpatialGrid.rows g * SpatialGrid.cols g) →
  (∀ i f nf, (i, f, nf) ∈ registered → filter_ok f ∧ filter_ok nf) →
  ∃ h', ParticleSystem.interactionPhase g registered h = Ok h'.
Proof.
  intros Hlen Hf. unfold ParticleSystem.interactionPhase.
  apply forEachM_total.
  intros [[i f] nf] h1 Hin. destruct (Hf i f nf Hin) as [Hf1 Hf2].
  destruct (grid_query_ok g (mkQuery f None) Hlen Hf1) as [ps ->]. rewrite bind_Ok_l; cbn beta.
  apply forEachM_total.
  intros p h3 _. cbn beta.
  destruct (grid_query_ok g
              (mkQuery nf (Some (mkPosition (Particle.position (particle h3 p)) 1)))
              Hlen Hf2) as [ns ->].
  rewrite bind_Ok_l. eauto.
Qed.

Lemma applySymmetricCell_ok {S : Type} (g : SpatialGrid.t)
      (interaction : PId → PId → S → S) (f : Filter)
      (cx1 cy1 cx2 cy2 : Z) (s : S) :
  filter_ok f →
  ∃ s', ParticleSystem._applySymmetricCell g interaction f cx1 cy1 cx2 cy2 s
        = Ok s'.
Proof.
  intros Hf. unfold ParticleSystem._applySymmetricCell.
  destruct (_ || _ || _ || _); [eauto|].
  destruct (SpatialGrid.getCell g cx1 cy1) as [cA|]; [|eauto].
  destruct (SpatialGrid.getCell g cx2 cy2) as [cB|]; [|eauto].
  destruct (TagIndex_query_ok cA f Hf) as [la ->].
  destruct (TagIndex_query_ok cB f Hf) as [lb ->]. rewrite bind_Ok_l; cbn beta.
  destruct (_ && _); eauto.
Qed.

Lemma symmetricInteraction_ok {S : Type} (g : SpatialGrid.t)
      (interaction : PId → PId → S → S) (f : Filter) (s : S) :
  filter_ok f →
  ∃ s', ParticleSystem.symmetricInteraction g interaction f s = Ok s'.
Proof.
  intros Hf. unfold ParticleSystem.symmetricInteraction.
  apply forEachM_total. intros cx s1 _.
  apply forEachM_total. intros cy s3 _.
  unfold ParticleSystem.symmetricAt.
  destruct (applySymmetricCell_ok g interaction f cx cy cx cy s3 Hf)
    as [t1 ->]. rewrite bind_Ok_l; cbn beta.
  destruct (applySymmetricCell_ok g interaction f cx cy (cx + 1) cy t1 Hf)
    as [t2 ->]. rewrite bind_Ok_l; cbn beta.
  destruct (applySymmetricCell_ok g interaction f cx cy (cx + 1) (cy + 1) t2 Hf)
    as [t3 ->]. rewrite bind_Ok_l; cbn beta.
  destruct (applySymmetricCell_ok g interaction f cx cy cx (cy + 1) t3 Hf)
    as [t4 ->]. rewrite bind_Ok_l; cbn beta.
  apply applySymmetricCell_ok, Hf.
Qed.

Lemma updateBehaviors_ok (s : ParticleSystem.t) :
  length (SpatialGrid.cells (ParticleSystem.grid s))
  = Z.to_nat (SpatialGrid.rows (ParticleSystem.grid s)
              * SpatialGrid.cols (ParticleSystem.grid s)) →
  filters_ok s →
  ∃ h, ParticleSystem.updateBehaviors s = Ok h.
Proof.
  intros Hlen (Hb & Hi & Hs). unfold ParticleSystem.updateBehaviors.
  destruct (interactionPhase_ok (ParticleSystem.grid s)
              (ParticleSystem.interactions s) (ParticleSystem.heap s) Hlen Hi)
    as [h1 ->]. rewrite bind_Ok_l; cbn beta.
  assert (∃ h2, ParticleSystem.symmetricPhase (ParticleSystem.grid s)
                  (ParticleSystem.symmetricInteractions s) h1 = Ok h2)
    as [h2 ->].
  { unfold ParticleSystem.symmetricPhase. apply forEachM_total.
    intros [i f] h3 Hin. apply symmetricInteraction_ok. by eapply Hs. }
  rewrite bind_Ok_l. unfold ParticleSystem.behaviorPhase. apply forEachM_total.
  intros [b f] h4 Hin.
  destruct (grid_query_ok (ParticleSystem.grid s) (mkQuery f None) Hlen)
    as [ps ->]; [by eapply Hb|]. cbn. eauto.
Qed.

Lemma addParticle_ok (h : Heap) (p : PId) (g : SpatialGrid.t) :
  geometry (SpatialGrid.bounds g) g → in_bounds g h p = true →
  ∃ g', SpatialGrid.addParticle h p g = Ok g' ∧ same_shape g g'.
Proof.
  intros Hgeo Hin. unfold SpatialGrid.addParticle. unfold in_bounds in Hin.
  rewrite Hin. cbn [negb SpatialGrid.cells SpatialGrid.set_particles].
  destruct (inside_cell _ g _ Hgeo Hin) as (_ & _ & _ & cell & _ & ->).
  eexists. split; [reflexivity|].
  unfold same_shape. cbn. by rewrite length_insert.
Qed.

Lemma addParticle_throws (h : Heap) (p : PId) (g : SpatialGrid.t) :
  in_bounds g h p = false →
  SpatialGrid.addParticle h p g = Throw OutOfBounds.
Proof.
  unfold in_bounds, SpatialGrid.addParticle. by intros ->.
Qed.

Lemma in_bounds_shape (g g' : SpatialGrid.t) (h : Heap) (p : PId) :
  same_shape g g' → in_bounds g' h p = in_bounds g h p.
Proof. intros (Hb & _). unfold in_bounds. by rewrite Hb. Qed.

(** The commit phase succeeds when every queued particle is within the
    bounds, and throws [OutOfBounds] otherwise. *)
Lemma commit_ok (h : Heap) (queue : list PId) (g : SpatialGrid.t) :
  geometry (SpatialGrid.bounds g) g →
  Forall (fun p => in_bounds g h p = true) queue →
  ∃ g', forEachM (SpatialGrid.addParticle h) queue g = Ok g'
        ∧ same_shape g g'.
Proof.
  intros Hgeo Hq.
  apply (forEachM_ok (fun g1 => same_shape g g1)); [|apply same_shape_refl].
  intros p g1 Hp Hs1.
  destruct (addParticle_ok h p g1) as (g2 & Hg2 & Hs2).
  - by apply (geometry_shape g).
  - rewrite (in_bounds_shape g g1 h p Hs1).
    by apply (proj1 (list.Forall_forall _ _) Hq).
  - exists g2. split; [done|]. by eapply same_shape_trans.
Qed.

Lemma commit_throws (h : Heap) (queue : list PId) (g : SpatialGrid.t) :
  geometry (SpatialGrid.bounds g) g →
  ¬ Forall (fun p => in_bounds g h p = true) queue →
  forEachM (SpatialGrid.addParticle h) queue g = Throw OutOfBounds.
Proof.
  revert g. induction queue as [|p queue IH]; intros g Hgeo Hq.
  - destruct Hq. constructor.
  - simpl. destruct (in_bounds g h p) eqn:Hp.
    + destruct (addParticle_ok h p g Hgeo Hp) as (g1 & -> & Hs1).
      rewrite bind_Ok_l. apply IH; [by apply (geometry_shape g)|].
      intros Hall. apply Hq. constructor; [done|].
      eapply list.Forall_impl; [exact Hall|]. intros q. cbn beta.
      by rewrite (in_bounds_shape g g1 h q Hs1).
    + by rewrite (addParticle_throws h p g Hp).
Qed.

Lemma updateCell_shape (h : Heap) (p : PId) (old : Z) (g : SpatialGrid.t) :
  same_shape g (SpatialGrid.updateCell h p old g).
Proof.
  unfold SpatialGrid.updateCell. destruct (decide _); [apply same_shape_refl|].
  cbv zeta.
  set (g1 := if (0 <=? old) && _ then _ else g).
  assert (Hs1 : same_shape g g1).
  { subst g1. destruct (_ && _); [|apply same_shape_refl].
    destruct (nth_Z _ _); [apply set_cell_shape|apply same_shape_refl]. }
  clearbody g1. eapply same_shape_trans; [exact Hs1|].
  destruct (_ && _); [|apply same_shape_refl].
  destruct (nth_Z _ _); [apply set_cell_shape|apply same_shape_refl].
Qed.

Lemma updateParticles_shape `{MathSqrt} (maxForce : Q) (g : SpatialGrid.t)
      (h : Heap) :
  same_shape g (fst (ParticleSystem.updateParticles maxForce (g, h))).
Proof.
  unfold ParticleSystem.updateParticles. cbn [fst].
  apply (forEach_invariant (fun gh => same_shape g (fst gh)));
    [|apply same_shape_refl].
  intros p [g1 h1] _ Hs1. cbn [fst ParticleSystem.updateParticle] in *.
  eapply same_shape_trans; [exact Hs1|apply updateCell_shape].
Qed.

Lemma removeParticle_ok (p : PId) (g : SpatialGrid.t) (h : Heap) :
  length (SpatialGrid.cells g)
  = Z.to_nat (SpatialGrid.rows g * SpatialGrid.cols g) →
  ∃ g' h', SpatialGrid.removeParticle p (g, h) = Ok (g', h')
           ∧ same_shape g g'.
Proof.
  intros Hlen. unfold SpatialGrid.removeParticle.
  set (idx := SpatialGrid.hashPosition g (Particle.position (particle h p))).
  destruct (0 <=? idx) eqn:E.
  - destruct (hashPosition_range g (Particle.position (particle h p)))
      as [Hneg|Hr]; [fold idx in Hneg; lia|]. fold idx in Hr.
    destruct (cells_lookup_ok g idx Hlen Hr) as [c ->].
    rewrite bind_Ok_l. do 2 eexists. split; [reflexivity|].
    unfold same_shape. cbn. by rewrite length_insert.
  - rewrite bind_Ok_l. do 2 eexists. split; [reflexivity|].
    by unfold same_shape.
Qed.

Lemma shape_length (g g' : SpatialGrid.t) :
  same_shape g g' →
  length (SpatialGrid.cells g)
  = Z.to_nat (SpatialGrid.rows g * SpatialGrid.cols g) →
  length (SpatialGrid.cells g')
  = Z.to_nat (SpatialGrid.rows g' * SpatialGrid.cols g').
Proof. intros (_ & _ & -> & -> & ->). done. Qed.

(** *** The cleanup phase *)

(** On a grid with one cell per index the removal of particles never
    throws; it touches no particle object. *)
Lemma removal_ok (dead : list PId) (g : SpatialGrid.t) (h : Heap) :
  length (SpatialGrid.cells g)
  = Z.to_nat (SpatialGrid.rows g * SpatialGrid.cols g) →
  ∃ g6 h6, forEachM SpatialGrid.removeParticle dead (g, h) = Ok (g6, h6)
           ∧ same_shape g g6.
Proof.
  intros Hlen.
  destruct (forEachM_ok
              (fun gh => same_shape g (fst gh))
              SpatialGrid.removeParticle dead (g, h))
    as ([g6 h6] & -> & Hs6); [|apply same_shape_refl|by exists g6, h6].
  intros p [g1 h1] _ Hs1. cbn [fst] in Hs1.
  destruct (removeParticle_ok p g1 h1) as (g2 & h2 & -> & Hs2);
    [by apply (shape_length g)|].
  eexists. split; [reflexivity|]. cbn [fst].
  by eapply same_shape_trans.
Qed.

Lemma removal_particle (dead : list PId) (g g' : SpatialGrid.t)
      (h h' : Heap) :
  forEachM SpatialGrid.removeParticle dead (g, h) = Ok (g', h') →
  particle h' = particle h.
Proof.
  revert g h. induction dead as [|p dead IH]; intros g h; simpl.
  - by intros [= <- <-].
  - intros Hr. apply bind_Ok in Hr as ([g1 h1] & H1 & Hr).
    apply removeParticle_heap in H1 as ->.
    rewrite (IH _ _ Hr). apply detachSprings_particle.
Qed.

(** The springs flagged after the removal of [dead]: those flagged
    before, and the connections of the removed particles. *)
Lemma removal_flags (dead : list PId) (g g' : SpatialGrid.t) (h h' : Heap)
      (sp : SId) :
  forEachM SpatialGrid.removeParticle dead (g, h) = Ok (g', h') →
  SpringObj.removeFlag (spring h' sp) = true
  ↔ SpringObj.removeFlag (spring h sp) = true
    ∨ ∃ p, p ∈ dead ∧ sp ∈ Particle.connections (particle h p).
Proof.
  revert g h. induction dead as [|p dead IH]; intros g h; simpl.
  - intros [= <- <-]. split; [by left|].
    intros [?|(p & Hp & _)]; [done|by apply elem_of_nil in Hp].
  - intros Hr. apply bind_Ok in Hr as ([g1 h1] & H1 & Hr).
    apply removeParticle_heap in H1 as ->.
    rewrite (IH _ _ Hr), detachSprings_flags, detachSprings_particle.
    split.
    + intros [[?|?]|(q & Hq & Hsp)]; [by left| |].
      * right. exists p. split; [apply list_elem_of_here|done].
      * right. exists q. split; [by apply list_elem_of_further|done].
    + intros [?|(q & Hq & Hsp)]; [by left; left|].
      apply elem_of_cons in Hq as [->|Hq]; [by left; right|].
      right. by exists q.
Qed.

(** The cleanup phase on a grid with one cell per index: it throws a
    TypeError when it finds a spring to collect, and otherwise completes
    and leaves the springs and the particle objects as they are. *)
Lemma cleanUpParticles_outcome (s : ParticleSystem.t) :
  length (SpatialGrid.cells (ParticleSystem.grid s))
  = Z.to_nat (SpatialGrid.rows (ParticleSystem.grid s)
              * SpatialGrid.cols (ParticleSystem.grid s)) →
  ((∃ sp, collected s sp) →
   ParticleSystem.cleanUpParticles s = Throw TypeError)
  ∧ ((¬ ∃ sp, collected s sp) →
     ∃ s', ParticleSystem.cleanUpParticles s = Ok s'
           ∧ same_shape (ParticleSystem.grid s) (ParticleSystem.grid s')
           ∧ ParticleSystem.behaviors s' = ParticleSystem.behaviors s
           ∧ ParticleSystem.interactions s' = ParticleSystem.interactions s
           ∧ ParticleSystem.symmetricInteractions s'
             = ParticleSystem.symmetricInteractions s
           ∧ ParticleSystem.particleCreationQueue s'
             = ParticleSystem.particleCreationQueue s
           ∧ ParticleSystem.bounds s' = ParticleSystem.bounds s
           ∧ ParticleSystem.springs s' = ParticleSystem.springs s
           ∧ ParticleSystem.springCreationQueue s'
             = ParticleSystem.springCreationQueue s
           ∧ particle (ParticleSystem.heap s')
             = particle (ParticleSystem.heap s)).
Proof.
  intros Hlen. unfold ParticleSystem.cleanUpParticles.
  change (SpatialGrid.query (ParticleSystem.grid s) (mkQuery noFilter None))
    with (Ok (TagIndex.particles
                (SpatialGrid.globalTagIndex (ParticleSystem.grid s)))).
  rewrite bind_Ok_l.
  set (dead := filter _ _).
  destruct (removal_ok dead (ParticleSystem.grid s) (ParticleSystem.heap s)
              Hlen) as (g6 & h6 & Hrem & Hs6).
  rewrite Hrem, bind_Ok_l.
  pose proof (fun sp => removal_flags _ _ _ _ _ sp Hrem) as Hflags.
  assert (Hcol : ∀ sp, sp ∈ ParticleSystem.springs s →
                       (Spring.shouldRemove h6 sp = true ↔ collected s sp)).
  { intros sp Hin. unfold Spring.shouldRemove, collected.
    rewrite Hflags. unfold Spring.shouldRemove. split.
    - intros [Hf|(p & Hp & Hc)]; (split; [done|]); [by left|].
      right. exists p. apply list_elem_of_filter in Hp as [Hd Hp]. done.
    - intros [_ [Hf|(p & Hp & Hd & Hc)]]; [by left|].
      right. exists p. split; [|done]. apply list_elem_of_filter. done. }
  split.
  - intros [sp Hsp].
    rewrite (cleanUpSprings_flagged _ h6 sp); [done|by destruct Hsp|].
    apply Hcol; [by destruct Hsp|done].
  - intros Hnone. rewrite cleanUpSprings_unflagged.
    + rewrite bind_Ok_l. eexists. split; [reflexivity|]. cbn.
      split; [exact Hs6|]. repeat split. by eapply removal_particle.
    + intros sp Hin. destruct (Spring.shouldRemove h6 sp) eqn:Ef; [|done].
      exfalso. apply Hnone. exists sp. by apply Hcol.
Qed.

(** *** The tick *)

(** With the queued particles within the bounds, the first five phases of
    a tick complete. *)
Lemma before_cleanup_ok `{MathSqrt} (s : ParticleSystem.t) :
  geometry (SpatialGrid.bounds (ParticleSystem.grid s)) (ParticleSystem.grid s) →
  filters_ok s → queue_in_bounds s →
  ∃ s5, before_cleanup s = Ok s5
        ∧ same_shape (ParticleSystem.grid s) (ParticleSystem.grid s5)
        ∧ ParticleSystem.bounds s5 = ParticleSystem.bounds s
        ∧ ParticleSystem.behaviors s5 = ParticleSystem.behaviors s
        ∧ ParticleSystem.interactions s5 = ParticleSystem.interactions s
        ∧ ParticleSystem.symmetricInteractions s5
          = ParticleSystem.symmetricInteractions s
        ∧ ParticleSystem.particleCreationQueue s5 = []
        ∧ ParticleSystem.springCreationQueue s5 = []
        ∧ ParticleSystem.springs s5
          = ParticleSystem.springs s ++ ParticleSystem.springCreationQueue s.
Proof.
  intros Hgeo Hf Hq. unfold before_cleanup.
  destruct (commit_ok (ParticleSystem.heap s)
              (ParticleSystem.particleCreationQueue s)
              (ParticleSystem.grid s) Hgeo Hq) as (g1 & -> & Hs1).
  rewrite bind_Ok_l. cbv zeta.
  set (s3 := ParticleSystem.set_heap _ _).
  assert (Hlen1 : length (SpatialGrid.cells g1)
                  = Z.to_nat (SpatialGrid.rows g1 * SpatialGrid.cols g1)).
  { apply (shape_length (ParticleSystem.grid s)); [done|].
    by destruct Hgeo as (_ & _ & _ & _ & ?). }
  destruct (updateBehaviors_ok s3) as [h4 ->]; [exact Hlen1|exact Hf|].
  rewrite bind_Ok_l.
  pose proof (updateParticles_shape (ParticleSystem.maxForce s3) g1 h4)
    as Hs5.
  change (ParticleSystem.grid s3) with g1.
  destruct (ParticleSystem.updateParticles (ParticleSystem.maxForce s3)
              (g1, h4)) as [g5 h5].
  cbn [fst snd] in *.
  eexists. split; [reflexivity|]. cbn.
  split; [eapply same_shape_trans; [exact Hs1|exact Hs5]|].
  repeat split.
Qed.

(** The outcome of a tick whose queued particles are within the bounds. *)
Lemma update_outcome `{MathSqrt} (s : ParticleSystem.t) :
  geometry (SpatialGrid.bounds (ParticleSystem.grid s)) (ParticleSystem.grid s) →
  filters_ok s → queue_in_bounds s →
  ∃ s5, before_cleanup s = Ok s5
        ∧ ((∃ sp, collected s5 sp) →
           ParticleSystem.update s = Throw TypeError)
        ∧ ((¬ ∃ sp, collected s5 sp) →
           ∃ s', ParticleSystem.update s = Ok s'
                 ∧ same_shape (ParticleSystem.grid s) (ParticleSystem.grid s')
                 ∧ ParticleSystem.bounds s' = ParticleSystem.bounds s
                 ∧ filters_ok s'
                 ∧ ParticleSystem.particleCreationQueue s' = []
                 ∧ ParticleSystem.springCreationQueue s' = []
                 ∧ ParticleSystem.springs s'
                   = ParticleSystem.springs s
                     ++ ParticleSystem.springCreationQueue s).
Proof.
  intros Hgeo Hf Hq.
  destruct (before_cleanup_ok s Hgeo Hf Hq)
    as (s5 & Hs5 & Hshape & Hbounds & Hbs & His & Hss & Hqueue & Hsq & Hsp).
  exists s5. split; [done|].
  rewrite update_before_cleanup, Hs5, bind_Ok_l.
  assert (Hlen5 : length (SpatialGrid.cells (ParticleSystem.grid s5))
                  = Z.to_nat (SpatialGrid.rows (ParticleSystem.grid s5)
                              * SpatialGrid.cols (ParticleSystem.grid s5))).
  { apply (shape_length (ParticleSystem.grid s)); [done|].
    by destruct Hgeo as (_ & _ & _ & _ & ?). }
  destruct (cleanUpParticles_outcome s5 Hlen5) as [Hthrow Hdone].
  split; [exact Hthrow|].
  intros Hnone.
  destruct (Hdone Hnone)
    as (s' & Hs' & Hs6 & Hbs' & His' & Hss' & Hq' & Hb' & Hsp' & Hsq' & _).
  exists s'. split; [done|]. split; [|split; [|split; [|split; [|split]]]].
  - eapply same_shape_trans; [exact Hshape|exact Hs6].
  - by rewrite Hb'.
  - unfold filters_ok. rewrite Hbs', His', Hss', Hbs, His, Hss. exact Hf.
  - by rewrite Hq'.
  - by rewrite Hsq'.
  - by rewrite Hsp'.
Qed.

(** The three outcomes of a tick.  For a system with the constructor's
    geometry and well-formed registered filters, [update()] throws
    [OutOfBounds], from [SpatialGrid.addParticle], exactly when a queued
    particle lies outside the bounds.  Otherwise its first five phases
    complete, and the cleanup phase decides: the tick throws a TypeError
    when the cleanup finds a spring to collect (an active spring that is
    flagged, or one in the connection list of a live particle flagged for
    removal), and it returns when there is none; the system it leaves is
    then ready for the next tick and holds every spring that was active or
    queued. *)
Theorem tick_outcomes `{MathSqrt} (s : ParticleSystem.t) :
  geometry (SpatialGrid.bounds (ParticleSystem.grid s)) (ParticleSystem.grid s) →
  filters_ok s →
  ParticleSystem.update s
  = before_cleanup s ≫= ParticleSystem.cleanUpParticles
  ∧ (¬ queue_in_bounds s → ParticleSystem.update s = Throw OutOfBounds)
  ∧ (queue_in_bounds s →
     ∃ s5, before_cleanup s = Ok s5
           ∧ ((∃ sp, collected s5 sp) →
              ParticleSystem.update s = Throw TypeError)
           ∧ ((¬ ∃ sp, collected s5 sp) →
              ∃ s', ParticleSystem.update s = Ok s'
                    ∧ geometry (SpatialGrid.bounds (ParticleSystem.grid s'))
                               (ParticleSystem.grid s')
                    ∧ filters_ok s'
                    ∧ ParticleSystem.particleCreationQueue s' = []
                    ∧ ParticleSystem.springs s'
                      = ParticleSystem.springs s
                        ++ ParticleSystem.springCreationQueue s)).
Proof.
  intros Hgeo Hf. split; [apply update_before_cleanup|]. split.
  - intros Hq. unfold ParticleSystem.update.
    by rewrite (commit_throws (ParticleSystem.heap s)
                  (ParticleSystem.particleCreationQueue s)
                  (ParticleSystem.grid s) Hgeo Hq).
  - intros Hq.
    destruct (update_outcome s Hgeo Hf Hq) as (s5 & Hs5 & Hthrow & Hdone).
    exists s5. split; [done|]. split; [exact Hthrow|].
    intros Hnone.
    destruct (Hdone Hnone)
      as (s' & Hs' & Hshape & _ & Hf' & Hq' & _ & Hsp').
    exists s'. split; [done|]. split; [|done].
    by apply (geometry_shape (ParticleSystem.grid s)).
Qed.

Lemma system200_geometry (s : ParticleSystem.t) :
  ParticleSystem.grid s = ParticleSystem.grid system200 →
  geometry (SpatialGrid.bounds (ParticleSystem.grid s))
           (ParticleSystem.grid s).
Proof.
  intros ->. unfold geometry. split; [reflexivity|]. split; [reflexivity|].
  split; [reflexivity|]. split; reflexivity.
Defined.

Lemma no_callbacks_filters (s : ParticleSystem.t) :
  ParticleSystem.behaviors s = [] → ParticleSystem.interactions s = [] →
  ParticleSystem.symmetricInteractions s = [] → filters_ok s.
Proof.
  intros Hb Hi Hs. unfold filters_ok. rewrite Hb, Hi, Hs.
  split; [|split]; intros; exfalso; eapply not_elem_of_nil; eassumption.
Defined.

(** In [spring_system] the two queued particles are within the bounds and
    the queued spring is flagged: the tick reaches its cleanup phase and
    throws a TypeError there. *)
Lemma tick_outcomes_witness :
  ParticleSystem.update (H := exactSqrt) spring_system = Throw TypeError.
Proof.
  destruct (tick_outcomes (H := exactSqrt) spring_system)
    as (_ & _ & Hin).
  - apply system200_geometry. reflexivity.
  - apply no_callbacks_filters; reflexivity.
  - destruct Hin as (s5 & Hs5 & Hthrow & _).
    + repeat constructor.
    + apply Hthrow. exists 0%nat.
      vm_compute in Hs5. injection Hs5 as <-.
      split; [apply list_elem_of_here|]. left. reflexivity.
Defined.

(** ** BoundingBox *)

Lemma contains_spec (b : BoundingBox.t) (x y z : Q) :
  BoundingBox.contains b x y z = true
  ↔ (Vector3.x (BoundingBox.topBackLeft b) <= x
     ∧ x <= Vector3.x (BoundingBox.bottomFrontRight b))%Q
    ∧ (Vector3.y (BoundingBox.topBackLeft b) <= y
       ∧ y <= Vector3.y (BoundingBox.bottomFrontRight b))%Q
    ∧ (Vector3.z (BoundingBox.topBackLeft b) <= z
       ∧ z <= Vector3.z (BoundingBox.bottomFrontRight b))%Q.
Proof.
  unfold BoundingBox.contains. rewrite !andb_true_iff, !Qle_bool_iff. tauto.
Qed.

Lemma Qmax_spec (a b : Q) :
  (a <= BoundingBox.Qmax a b ∧ b <= BoundingBox.Qmax a b
   ∧ (BoundingBox.Qmax a b == a ∨ BoundingBox.Qmax a b == b))%Q.
Proof.
  unfold BoundingBox.Qmax. destruct (Qlt_le_dec a b); repeat split;
    try lra; (by left) || (by right).
Qed.

Lemma Qmin_spec (a b : Q) :
  (BoundingBox.Qmin a b <= a ∧ BoundingBox.Qmin a b <= b
   ∧ (BoundingBox.Qmin a b == a ∨ BoundingBox.Qmin a b == b))%Q.
Proof.
  unfold BoundingBox.Qmin. destruct (Qlt_le_dec b a); repeat split;
    try lra; (by left) || (by right).
Qed.

Lemma clamp_axis (lo hi v : Q) :
  let c := BoundingBox.Qmax lo (BoundingBox.Qmin hi v) in
  (lo <= c)%Q
  ∧ ((lo <= hi)%Q → (c <= hi)%Q)
  ∧ ((c <= hi)%Q → (lo <= hi)%Q)
  ∧ ((lo <= v)%Q → (v <= hi)%Q → (c == v)%Q).
Proof.
  cbv zeta.
  destruct (Qmax_spec lo (BoundingBox.Qmin hi v)) as (H1 & H2 & H3).
  destruct (Qmin_spec hi v) as (H4 & H5 & H6).
  repeat split; intros; destruct H3 as [H3|H3], H6 as [H6|H6]; lra.
Qed.

Lemma constrained_contained (b : BoundingBox.t) (v : Vector3.t) :
  BoundingBox.containsVector b (BoundingBox.constrained b v) = true
  ↔ box_ok b.
Proof.
  destruct b as [[lx ly lz] [hx hy hz]], v as [vx vy vz].
  unfold BoundingBox.containsVector, box_ok, BoundingBox.constrained.
  cbn [Vector3.x Vector3.y Vector3.z BoundingBox.topBackLeft
       BoundingBox.bottomFrontRight].
  rewrite contains_spec.
  cbn [Vector3.x Vector3.y Vector3.z BoundingBox.topBackLeft
       BoundingBox.bottomFrontRight].
  destruct (clamp_axis lx hx vx) as (X1 & X2 & X3 & X4).
  destruct (clamp_axis ly hy vy) as (Y1 & Y2 & Y3 & Y4).
  destruct (clamp_axis lz hz vz) as (Z1 & Z2 & Z3 & Z4).
  cbv zeta in *. split.
  - intros ((_ & ?) & (_ & ?) & (_ & ?)). auto.
  - intros (? & ? & ?). auto 10.
Qed.

(** [constrained] clamps into the box.  The clamped vector is contained in
    the box exactly when the corners of the box are in order; a vector that
    is contained is left as it is; clamping twice is clamping once. *)
Theorem constrained_inside (b : BoundingBox.t) (v : Vector3.t) :
  (BoundingBox.containsVector b (BoundingBox.constrained b v) = true
   ↔ box_ok b)
  ∧ (BoundingBox.containsVector b v = true →
     same_vector (BoundingBox.constrained b v) v)
  ∧ (box_ok b →
     same_vector (BoundingBox.constrained b (BoundingBox.constrained b v))
                 (BoundingBox.constrained b v)).
Proof.
  split; [apply constrained_contained|].
  destruct b as [[lx ly lz] [hx hy hz]], v as [vx vy vz].
  unfold BoundingBox.containsVector, box_ok, same_vector,
    BoundingBox.constrained.
  cbn [Vector3.x Vector3.y Vector3.z BoundingBox.topBackLeft
       BoundingBox.bottomFrontRight].
  rewrite !contains_spec.
  cbn [Vector3.x Vector3.y Vector3.z BoundingBox.topBackLeft
       BoundingBox.bottomFrontRight].
  destruct (clamp_axis lx hx vx) as (X1 & X2 & X3 & X4).
  destruct (clamp_axis ly hy vy) as (Y1 & Y2 & Y3 & Y4).
  destruct (clamp_axis lz hz vz) as (Z1 & Z2 & Z3 & Z4).
  cbv zeta in *. split.
  - intros ((? & ?) & (? & ?) & (? & ?)). auto.
  - intros (? & ? & ?).
    destruct (clamp_axis lx hx (BoundingBox.Qmax lx (BoundingBox.Qmin hx vx)))
      as (_ & _ & _ & X5).
    destruct (clamp_axis ly hy (BoundingBox.Qmax ly (BoundingBox.Qmin hy vy)))
      as (_ & _ & _ & Y5).
    destruct (clamp_axis lz hz (BoundingBox.Qmax lz (BoundingBox.Qmin hz vz)))
      as (_ & _ & _ & Z5).
    cbv zeta in *. auto 10.
Qed.

Lemma box_ok_new (width height depth : Q) :
  (0 <= width)%Q → (0 <= height)%Q → (0 <= depth)%Q →
  box_ok (BoundingBox.new width height depth).
Proof. intros. unfold box_ok. cbn. auto. Qed.

(** The centre of a box whose corners are in order is inside it, and so is
    every point [getRandomPointInside] builds from random numbers of
    [0, 1); for [dim] other than 3 the point has [z = 0], which is inside
    when the box spans [z = 0], as every box of the constructor does. *)
Theorem box_points_inside (b : BoundingBox.t) :
  box_ok b →
  BoundingBox.containsVector b (BoundingBox.getCenter b) = true
  ∧ ∀ dim r1 r2 r3,
      (0 <= r1 < 1)%Q → (0 <= r2 < 1)%Q →
      (if decide (dim = 3) then (0 <= r3 < 1)%Q
       else (Vector3.z (BoundingBox.topBackLeft b) <= 0
             ∧ 0 <= Vector3.z (BoundingBox.bottomFrontRight b))%Q) →
      BoundingBox.containsVector b
        (BoundingBox.getRandomPointInside b dim r1 r2 r3) = true.
Proof.
  destruct b as [[lx ly lz] [hx hy hz]].
  unfold box_ok, BoundingBox.containsVector, BoundingBox.getCenter,
    BoundingBox.getRandomPointInside, BoundingBox.getWidth,
    BoundingBox.getHeight, BoundingBox.getDepth.
  cbn [Vector3.x Vector3.y Vector3.z BoundingBox.topBackLeft
       BoundingBox.bottomFrontRight].
  intros (Hx & Hy & Hz). split.
  - apply contains_spec.
    cbn [Vector3.x Vector3.y Vector3.z BoundingBox.topBackLeft
         BoundingBox.bottomFrontRight].
    unfold Qdiv. change (/ 2)%Q with (1 # 2)%Q. repeat split; lra.
  - intros dim r1 r2 r3 H1 H2 H3. apply contains_spec.
    cbn [Vector3.x Vector3.y Vector3.z BoundingBox.topBackLeft
         BoundingBox.bottomFrontRight].
    split; [split; nra|]. split; [split; nra|].
    destruct (decide (dim = 3)); [split; nra|lra].
Qed.

(** The centre of the 200 x 200 box and a point drawn in it. *)
Lemma box_points_inside_witness :
  BoundingBox.containsVector (BoundingBox.new 200 200 0)
    (BoundingBox.getCenter (BoundingBox.new 200 200 0)) = true
  ∧ BoundingBox.containsVector (BoundingBox.new 200 200 0)
      (BoundingBox.getRandomPointInside (BoundingBox.new 200 200 0) 2
         (1 # 4) (3 # 4) 0) = true.
Proof.
  destruct (box_points_inside (BoundingBox.new 200 200 0)) as [Hc Hr].
  - apply box_ok_new; discriminate.
  - split; [exact Hc|]. apply Hr.
    + split; [discriminate|reflexivity].
    + split; [discriminate|reflexivity].
    + cbn. split; discriminate.
Defined.

(** ** Ticks of reachable systems *)

Lemma same_shape_sym (g g' : SpatialGrid.t) :
  same_shape g g' → same_shape g' g.
Proof. intros (?&?&?&?&?). repeat split; congruence. Qed.

Lemma geometry_shape_box (b : BoundingBox.t) (g g' : SpatialGrid.t) :
  same_shape g g' → geometry b g → geometry b g'.
Proof.
  intros (Hb & Hcs & Hr & Hc & Hl) (H0 & Hpos & Hrows & Hcols & Hlen).
  unfold geometry. rewrite Hcs, Hr, Hc, Hl. done.
Qed.

Lemma well_formed_frame (s s' : ParticleSystem.t) :
  ParticleSystem.bounds s' = ParticleSystem.bounds s →
  same_shape (ParticleSystem.grid s) (ParticleSystem.grid s') →
  well_formed s' → well_formed s.
Proof.
  intros Hb Hs (Hgeo & Hgb & Hbox). unfold well_formed.
  rewrite <- Hb. split; [|split; [|done]].
  - eapply geometry_shape_box; [apply same_shape_sym, Hs|done].
  - destruct Hs as (<- & _). done.
Qed.

Lemma grid_addTag_shape (h : Heap) (p : PId) (tag : Tag) (g : SpatialGrid.t) :
  same_shape g (SpatialGrid.addTag h p tag g).
Proof.
  unfold SpatialGrid.addTag. cbv zeta.
  set (g1 := if _ && _ then _ else g).
  assert (Hs1 : same_shape g g1).
  { subst g1. destruct (_ && _); [|apply same_shape_refl].
    destruct (nth_Z _ _); [apply set_cell_shape|apply same_shape_refl]. }
  clearbody g1. destruct Hs1 as (?&?&?&?&?). by repeat split.
Qed.

Lemma grid_removeTag_shape (h : Heap) (p : PId) (tag : Tag)
      (g : SpatialGrid.t) :
  same_shape g (SpatialGrid.removeTag h p tag g).
Proof.
  unfold SpatialGrid.removeTag. cbv zeta.
  set (g1 := if _ && _ then _ else g).
  assert (Hs1 : same_shape g g1).
  { subst g1. destruct (_ && _); [|apply same_shape_refl].
    destruct (nth_Z _ _); [apply set_cell_shape|apply same_shape_refl]. }
  clearbody g1. destruct Hs1 as (?&?&?&?&?). by repeat split.
Qed.

Lemma queue_in_bounds_frame (s s' : ParticleSystem.t) :
  same_shape (ParticleSystem.grid s) (ParticleSystem.grid s') →
  ParticleSystem.particleCreationQueue s'
  = ParticleSystem.particleCreationQueue s →
  (∀ q, q ∈ ParticleSystem.particleCreationQueue s →
        Particle.position (particle (ParticleSystem.heap s') q)
        = Particle.position (particle (ParticleSystem.heap s) q)) →
  queue_in_bounds s → queue_in_bounds s'.
Proof.
  intros (Hb & _) Hq Hpos Hin. unfold queue_in_bounds, in_bounds in *.
  rewrite Hq, Hb. apply list.Forall_forall. intros q Hq'.
  rewrite (Hpos q Hq'). by apply (proj1 (list.Forall_forall _ _) Hin).
Qed.

(** In a reachable, well-formed system every queued particle is within the
    bounds: [createParticle] clamps the requested position into the box. *)
Lemma reachable_queue_in_bounds `{MathSqrt} (s : ParticleSystem.t) :
  reachable s → well_formed s → queue_in_bounds s.
Proof.
  induction 1 as [b cs mp md
                 |s pos allow r s' Hr IH Hc
                 |s a b len k Hr IH
                 |s p tag Hr IH
                 |s p tag Hr IH
                 |s fn f Hfn Hr IH
                 |s fn f nf Hfn Hr IH
                 |s fn f Hfn Hr IH
                 |s n Hr IH
                 |s n Hr IH
                 |s d Hr IH
                 |s f Hf Hr IH
                 |s s' Hr IH Hup]; intros Hwf.
  - constructor.
  - (* createParticle *)
    destruct (reachable_bucketed s Hr) as (_ & _ & Hfresh).
    unfold ParticleSystem.createParticle in Hc.
    apply bind_Ok in Hc as (ok & _ & Hc).
    destruct ok; injection Hc as <- <-; [|by apply IH].
    set (p := ParticleSystem.nextParticle s) in *.
    assert (Hwf0 : well_formed s) by exact Hwf.
    specialize (IH Hwf0). destruct Hwf0 as (_ & Hgb & Hbox).
    unfold queue_in_bounds, in_bounds in *.
    cbn [ParticleSystem.grid ParticleSystem.heap
         ParticleSystem.particleCreationQueue particle].
    apply Forall_app. split.
    + apply list.Forall_forall. intros q Hq.
      rewrite fn_lookup_insert_ne.
      * by apply (proj1 (list.Forall_forall _ _) IH).
      * intros <-.
        assert (Hlt : (p < p)%nat); [|lia].
        apply (proj1 (list.Forall_forall _ _) Hfresh p).
        apply elem_of_app. by right.
    + apply Forall_singleton. rewrite fn_lookup_insert, Hgb.
      cbn [Particle.new Particle.position].
      apply (constrained_contained (ParticleSystem.bounds s) pos) in Hbox.
      by destruct (BoundingBox.constrained (ParticleSystem.bounds s) pos).
  - (* createSpring *)
    eapply (queue_in_bounds_frame s); [apply same_shape_refl|reflexivity| |].
    + intros q _. cbn [ParticleSystem.createSpring snd ParticleSystem.heap].
      rewrite !upd_particle_position by done. reflexivity.
    + apply IH. exact Hwf.
  - (* addTag *)
    revert Hwf. unfold ParticleSystem.particle_addTag.
    set (tags' := if bool_decide _ then _ else _).
    set (h1 := upd_particle p (Particle.set_tags tags') (ParticleSystem.heap s)).
    cbn [ParticleSystem.heap ParticleSystem.set_heap].
    destruct (Particle.system (particle h1 p)); intros Hwf.
    + eapply (queue_in_bounds_frame s); [| | |apply IH].
      * apply grid_addTag_shape.
      * reflexivity.
      * intros q _. apply set_tags_keeps_positions.
      * eapply well_formed_frame; [| |exact Hwf]; [reflexivity|].
        apply grid_addTag_shape.
    + eapply (queue_in_bounds_frame s); [apply same_shape_refl|reflexivity| |].
      * intros q _. apply set_tags_keeps_positions.
      * apply IH. exact Hwf.
  - (* removeTag *)
    revert Hwf. unfold ParticleSystem.particle_removeTag.
    set (tags' := filter _ _).
    set (h1 := upd_particle p (Particle.set_tags tags') (ParticleSystem.heap s)).
    cbn [ParticleSystem.heap ParticleSystem.set_heap].
    destruct (Particle.system (particle h1 p)); intros Hwf.
    + eapply (queue_in_bounds_frame s); [| | |apply IH].
      * apply grid_removeTag_shape.
      * reflexivity.
      * intros q _. apply set_tags_keeps_positions.
      * eapply well_formed_frame; [| |exact Hwf]; [reflexivity|].
        apply grid_removeTag_shape.
    + eapply (queue_in_bounds_frame s); [apply same_shape_refl|reflexivity| |].
      * intros q _. apply set_tags_keeps_positions.
      * apply IH. exact Hwf.
  - by apply IH.
  - by apply IH.
  - by apply IH.
  - by apply IH.
  - by apply IH.
  - by apply IH.
  - (* access to the objects *)
    eapply (queue_in_bounds_frame s); [apply same_shape_refl|reflexivity| |].
    + intros q _. apply Hf.
    + apply IH. exact Hwf.
  - (* a tick *)
    destruct (update_phases s s' Hup)
      as (_ & _ & _ & _ & _ & _ & _ & _ & _ & _ & Hqueue & _).
    unfold queue_in_bounds. rewrite Hqueue. constructor.
Qed.

(** Ticks of reachable systems reach their cleanup.  A system reached
    from the constructor through [createParticle], [createSpring], tag
    changes, registrations of callbacks that move no particle, the setters,
    accesses to the objects that move no particle and completed ticks,
    built with a positive cell size on a box of non-negative dimensions
    and with well-formed registered filters, never throws [OutOfBounds]:
    the first five phases of its tick complete.  The tick then throws a
    TypeError when the cleanup finds a spring to collect, and otherwise
    returns a system that is again of this kind.  A system without
    springs completes its tick and stays without springs. *)
Theorem reachable_tick_reaches_cleanup `{MathSqrt} (s : ParticleSystem.t) :
  reachable s → well_formed s → filters_ok s →
  (∃ s5, before_cleanup s = Ok s5
         ∧ ParticleSystem.update s = ParticleSystem.cleanUpParticles s5
         ∧ ((∃ sp, collected s5 sp) →
            ParticleSystem.update s = Throw TypeError)
         ∧ ((¬ ∃ sp, collected s5 sp) →
            ∃ s', ParticleSystem.update s = Ok s'
                  ∧ reachable s' ∧ well_formed s' ∧ filters_ok s'))
  ∧ (ParticleSystem.springs s = [] →
     ParticleSystem.springCreationQueue s = [] →
     ∃ s', ParticleSystem.update s = Ok s'
           ∧ reachable s' ∧ well_formed s' ∧ filters_ok s'
           ∧ ParticleSystem.springs s' = []
           ∧ ParticleSystem.springCreationQueue s' = []).
Proof.
  intros Hr Hwf Hf.
  pose proof (reachable_queue_in_bounds s Hr Hwf) as Hq.
  destruct Hwf as (Hgeo & Hgb & Hbox).
  destruct (update_outcome s) as (s5 & Hs5 & Hthrow & Hdone);
    [by rewrite Hgb|done|done|].
  assert (Hkind : ∀ s', ParticleSystem.update s = Ok s' →
                        same_shape (ParticleSystem.grid s)
                                   (ParticleSystem.grid s') →
                        ParticleSystem.bounds s' = ParticleSystem.bounds s →
                        reachable s' ∧ well_formed s').
  { intros s' Hs' Hshape Hb'. split; [by eapply reachable_update|].
    unfold well_formed. rewrite Hb'. split; [|split; [|done]].
    - by eapply geometry_shape_box.
    - destruct Hshape as (-> & _). done. }
  split.
  - exists s5. split; [done|]. split; [|split; [done|]].
    + by rewrite update_before_cleanup, Hs5.
    + intros Hnone.
      destruct (Hdone Hnone) as (s' & Hs' & Hshape & Hb' & Hf' & _).
      exists s'. split; [done|].
      destruct (Hkind s' Hs' Hshape Hb') as [? ?]. done.
  - intros Hsp Hsq.
    destruct (before_cleanup_ok s) as (s5' & Hs5' & _ & _ & _ & _ & _ & _ & _ & Hsp5);
      [by rewrite Hgb|done|done|].
    rewrite Hs5 in Hs5'. injection Hs5' as <-.
    rewrite Hsp, Hsq in Hsp5. cbn in Hsp5.
    destruct Hdone as (s' & Hs' & Hshape & Hb' & Hf' & _ & Hsq' & Hsp').
    { intros (sp & Hin & _). rewrite Hsp5 in Hin.
      by apply elem_of_nil in Hin. }
    exists s'. split; [done|].
    destruct (Hkind s' Hs' Hshape Hb') as [? ?].
    rewrite Hsp' , Hsp, Hsq. done.
Qed.

Lemma tagged200_reachable :
  reachable (H := exactSqrt)
            (ParticleSystem.particle_addTag 0%nat "a" created200).
Proof.
  apply (reachable_addTag (H := exactSqrt) created200 0%nat "a").
  apply (reachable_createParticle (H := exactSqrt) system200
           (Vector3.mk 5 5 0) false (Some 0%nat) created200).
  - apply reachable_new.
  - vm_compute. reflexivity.
Defined.

(** The 200 x 200 system with one queued, tagged particle has no spring:
    its tick completes. *)
Lemma reachable_tick_reaches_cleanup_witness :
  ∃ s', ParticleSystem.update (H := exactSqrt)
          (ParticleSystem.particle_addTag 0%nat "a" created200) = Ok s'
        ∧ well_formed s'.
Proof.
  destruct (reachable_tick_reaches_cleanup (H := exactSqrt)
              (ParticleSystem.particle_addTag 0%nat "a" created200))
    as (_ & Hfree).
  - exact tagged200_reachable.
  - split; [|split].
    + repeat split; vm_compute; reflexivity.
    + reflexivity.
    + repeat split; vm_compute; discriminate.
  - split; [|split].
    + intros b f Hin. by apply elem_of_nil in Hin.
    + intros i f nf Hin. by apply elem_of_nil in Hin.
    + intros i f Hin. by apply elem_of_nil in Hin.
  - destruct Hfree as (s' & Hs' & _ & Hwf & _); [reflexivity|reflexivity|].
    exists s'. split; [exact Hs'|exact Hwf].
Defined.

(** ** What a tick removes *)

(** An update of one particle keeps every field the update keeps. *)
Lemma upd_particle_keeps {A : Type} (proj : Particle.t → A)
      (f : Particle.t → Particle.t) (p : PId) (h : Heap) (q : PId) :
  (∀ x, proj (f x) = proj x) →
  proj (particle (upd_particle p f h) q) = proj (particle h q).
Proof.
  intros Hf. unfold upd_particle. cbn [particle].
  destruct (decide (q = p)) as [->|Hq].
  - by rewrite fn_lookup_insert.
  - by rewrite fn_lookup_insert_ne.
Qed.

Lemma addParticle_lists (h : Heap) (p : PId) (g g' : SpatialGrid.t) :
  SpatialGrid.addParticle h p g = Ok g' →
  SpatialGrid.particles g' = SpatialGrid.particles g ++ [p]
  ∧ TagIndex.particles (SpatialGrid.globalTagIndex g')
    = TagIndex.particles (SpatialGrid.globalTagIndex g) ++ [p].
Proof.
  unfold SpatialGrid.addParticle. destruct (negb _); [done|].
  cbn [SpatialGrid.cells SpatialGrid.set_particles].
  destruct (nth_Z _ _); [|done]. intros [= <-]. cbn.
  by rewrite add_particles.
Qed.

Lemma commit_lists (h : Heap) (queue : list PId) (g g' : SpatialGrid.t) :
  forEachM (SpatialGrid.addParticle h) queue g = Ok g' →
  SpatialGrid.particles g' = SpatialGrid.particles g ++ queue
  ∧ TagIndex.particles (SpatialGrid.globalTagIndex g')
    = TagIndex.particles (SpatialGrid.globalTagIndex g) ++ queue.
Proof.
  revert g. induction queue as [|p queue IH]; intros g; simpl.
  - intros [= <-]. by rewrite !app_nil_r.
  - intros Hq. apply bind_Ok in Hq as (g1 & Hg1 & Hq).
    apply addParticle_lists in Hg1 as [H1 H2].
    apply IH in Hq as [H3 H4].
    rewrite H3, H4, H1, H2, <- !app_assoc. done.
Qed.

Lemma updateParticles_global `{MathSqrt} (maxForce : Q)
      (g : SpatialGrid.t) (h : Heap) :
  SpatialGrid.globalTagIndex
    (fst (ParticleSystem.updateParticles maxForce (g, h)))
  = SpatialGrid.globalTagIndex g.
Proof.
  unfold ParticleSystem.updateParticles. cbn [fst].
  apply (forEach_invariant
           (fun gh => SpatialGrid.globalTagIndex (fst gh)
                      = SpatialGrid.globalTagIndex g)); [|done].
  intros p [g1 h1] _ Hg1. cbn [fst] in *.
  cbn [ParticleSystem.updateParticle fst].
  destruct (updateCell_frame
              (upd_particle p (Particle.update maxForce) h1) p
              (SpatialGrid.hashPosition g1
                 (Particle.position (particle h1 p))) g1)
    as (_ & _ & _ & _ & -> & _). done.
Qed.

Lemma updateParticles_flags `{MathSqrt} (maxForce : Q)
      (g : SpatialGrid.t) (h : Heap) (q : PId) :
  Particle.removeFlag
    (particle (snd (ParticleSystem.updateParticles maxForce (g, h))) q)
  = Particle.removeFlag (particle h q).
Proof.
  unfold ParticleSystem.updateParticles. cbn [fst].
  apply (forEach_invariant
           (fun gh => Particle.removeFlag (particle (snd gh) q)
                      = Particle.removeFlag (particle h q))); [|done].
  intros p [g1 h1] _ Hg1. cbn [snd] in *.
  cbn [ParticleSystem.updateParticle snd upd_particle particle].
  destruct (decide (q = p)) as [->|Hq].
  - by rewrite fn_lookup_insert.
  - by rewrite fn_lookup_insert_ne.
Qed.

Lemma removeParticle_lists (p : PId) (g g' : SpatialGrid.t) (h h' : Heap) :
  SpatialGrid.removeParticle p (g, h) = Ok (g', h') →
  SpatialGrid.particles g' = spliceOut p (SpatialGrid.particles g)
  ∧ TagIndex.particles (SpatialGrid.globalTagIndex g')
    = spliceOut p (TagIndex.particles (SpatialGrid.globalTagIndex g))
  ∧ h' = detachSprings p h.
Proof.
  unfold SpatialGrid.removeParticle. intros Hr.
  apply bind_Ok in Hr as (g1 & Hg1 & [= <- <-]).
  cbn. rewrite remove_particles.
  destruct (0 <=? _); [|by injection Hg1 as <-].
  destruct (nth_Z _ _); [|done]. by injection Hg1 as <-.
Qed.

Lemma removal_lists (dead : list PId) (g g' : SpatialGrid.t) (h h' : Heap) :
  forEachM SpatialGrid.removeParticle dead (g, h) = Ok (g', h') →
  SpatialGrid.particles g' = forEach spliceOut dead (SpatialGrid.particles g)
  ∧ TagIndex.particles (SpatialGrid.globalTagIndex g')
    = forEach spliceOut dead
              (TagIndex.particles (SpatialGrid.globalTagIndex g))
  ∧ particle h' = particle h.
Proof.
  revert g h. induction dead as [|p dead IH]; intros g h; simpl.
  - by intros [= <- <-].
  - intros Hr. apply bind_Ok in Hr as ([g1 h1] & H1 & Hr).
    apply removeParticle_lists in H1 as (Hp & Hg & ->).
    apply IH in Hr as (-> & -> & ->).
    rewrite Hp, Hg, detachSprings_particle. done.
Qed.

(** A tick removes exactly the flagged particles.  After a completed
    tick the live particles are those that were live or queued before it
    and are not flagged for removal, in their order; the flat list of the
    grid and the member list of the global index stay the same list. *)
Theorem tick_removes_flagged `{MathSqrt} (s s' : ParticleSystem.t) :
  synced (ParticleSystem.grid s) →
  ParticleSystem.update s = Ok s' →
  synced (ParticleSystem.grid s')
  ∧ SpatialGrid.particles (ParticleSystem.grid s')
    = filter (fun p => Particle.removeFlag
                         (particle (ParticleSystem.heap s') p) = false)
             (SpatialGrid.particles (ParticleSystem.grid s)
              ++ ParticleSystem.particleCreationQueue s).
Proof.
  intros Hsync Hup.
  destruct (update_phases s s' Hup)
    as (g1 & h4 & g6 & h6 & Hcommit & _ & Hclean & Hgrid & Hheap & _).
  cbv zeta in Hclean.
  apply commit_lists in Hcommit as [Hp1 Hg1].
  pose proof (updateParticles_particles (ParticleSystem.maxForce s) g1 h4)
    as Hp5.
  pose proof (updateParticles_global (ParticleSystem.maxForce s) g1 h4)
    as Hg5.
  pose proof (updateParticles_flags (ParticleSystem.maxForce s) g1 h4)
    as Hf5.
  destruct (ParticleSystem.updateParticles (ParticleSystem.maxForce s) (g1, h4))
    as [g5 h5]. cbn [fst snd] in *.
  apply removal_lists in Hclean as (Hp6 & Hg6 & Hh6).
  rewrite Hg5, Hg1, Hsync in Hg6. rewrite Hg5, Hg1, Hsync in Hp6.
  rewrite Hp5, Hp1 in Hp6.
  set (L := SpatialGrid.particles (ParticleSystem.grid s)
            ++ ParticleSystem.particleCreationQueue s) in *.
  rewrite forEach_spliceOut_filter in Hp6, Hg6.
  rewrite Hgrid. split.
  - unfold synced. by rewrite Hp6, Hg6.
  - rewrite Hp6. apply list_filter_iff. intros p.
    rewrite Hheap, Hh6.
    unfold Particle.shouldRemove.
    destruct (Particle.removeFlag (particle h5 p)); split; done.
Qed.

(** *** Springs of removed particles *)

(** The cleanup phase never gets past a spring it has to collect.  On a
    grid with one cell per index, [cleanUpParticles()] throws a TypeError,
    at the call of [getN1] that the class [Spring] lacks, exactly when the
    active list holds a spring that is flagged or that is in the
    connection list of a live particle flagged for removal: removing a
    particle that has an active spring makes the cleanup throw.
    Otherwise the cleanup returns, and it leaves the active spring list
    and every connection list as they are. *)
Theorem cleanup_stops_at_flagged_spring (s : ParticleSystem.t) :
  length (SpatialGrid.cells (ParticleSystem.grid s))
  = Z.to_nat (SpatialGrid.rows (ParticleSystem.grid s)
              * SpatialGrid.cols (ParticleSystem.grid s)) →
  ((∃ sp, collected s sp) →
   ParticleSystem.cleanUpParticles s = Throw TypeError)
  ∧ ((¬ ∃ sp, collected s sp) →
     ∃ s', ParticleSystem.cleanUpParticles s = Ok s'
           ∧ ParticleSystem.springs s' = ParticleSystem.springs s
           ∧ ∀ q, Particle.connections (particle (ParticleSystem.heap s') q)
                  = Particle.connections (particle (ParticleSystem.heap s) q))
  ∧ (∀ p sp,
       p ∈ TagIndex.particles
             (SpatialGrid.globalTagIndex (ParticleSystem.grid s)) →
       Particle.shouldRemove (particle (ParticleSystem.heap s) p) = true →
       sp ∈ Particle.connections (particle (ParticleSystem.heap s) p) →
       sp ∈ ParticleSystem.springs s →
       ParticleSystem.cleanUpParticles s = Throw TypeError).
Proof.
  intros Hlen.
  destruct (cleanUpParticles_outcome s Hlen) as [Hthrow Hdone].
  split; [exact Hthrow|]. split.
  - intros Hnone.
    destruct (Hdone Hnone)
      as (s' & Hs' & _ & _ & _ & _ & _ & _ & Hsp & _ & Hpart).
    exists s'. split; [done|]. split; [done|].
    intros q. by rewrite Hpart.
  - intros p sp Hp Hdead Hc Hin. apply Hthrow. exists sp.
    split; [done|]. right. by exists p.
Qed.

(** Particle [0] of [flagged_system] is flagged and has no spring: the
    tick removes it. *)
Lemma tick_removes_flagged_witness :
  synced (ParticleSystem.grid flagged_after)
  ∧ SpatialGrid.particles (ParticleSystem.grid flagged_after)
    = filter (fun p => Particle.removeFlag
                         (particle (ParticleSystem.heap flagged_after) p)
                       = false)
             (SpatialGrid.particles (ParticleSystem.grid flagged_system)
              ++ ParticleSystem.particleCreationQueue flagged_system).
Proof.
  apply (tick_removes_flagged (H := exactSqrt) flagged_system flagged_after).
  - vm_compute. reflexivity.
  - vm_compute. reflexivity.
Defined.

(** The spring of [doomed_system] is active and in the connection list of
    the flagged particle [0]: the cleanup throws. *)
Lemma cleanup_stops_at_flagged_spring_witness :
  ParticleSystem.cleanUpParticles doomed_system = Throw TypeError.
Proof.
  destruct (cleanup_stops_at_flagged_spring doomed_system) as (_ & _ & Hrem).
  - vm_compute. reflexivity.
  - apply (Hrem 0%nat 0%nat).
    + vm_compute. apply list_elem_of_here.
    + vm_compute. reflexivity.
    + vm_compute. apply list_elem_of_here.
    + vm_compute. apply list_elem_of_here.
Defined.

(** ** Spatial queries *)

Lemma forEachM_cons {A S : Type} (f : A → S → result S) (a : A)
      (l : list A) (s : S) :
  forEachM f (a :: l) s = (f a s ≫= forEachM f l).
Proof. reflexivity. Qed.

Lemma forEachM_ext {A S : Type} (f f' : A → S → result S) (l : list A)
      (s : S) :
  (∀ a s, f a s = f' a s) → forEachM f l s = forEachM f' l s.
Proof.
  intros Hf. revert s. induction l as [|a l IH]; intros s; [done|].
  rewrite !forEachM_cons, Hf. destruct (f' a s); [apply IH|done].
Qed.

Lemma collect_loop {A B : Type} (F : A → result (list B)) (G : A → list B)
      (l : list A) (acc : list B) :
  (∀ a, a ∈ l → F a = Ok (G a)) →
  forEachM (fun a out => r ← F a; Ok (out ++ r)) l acc = Ok (acc ++ l ≫= G).
Proof.
  revert acc. induction l as [|a l IH]; intros acc HF.
  - cbn. by rewrite app_nil_r.
  - rewrite forEachM_cons. cbn beta.
    rewrite (HF a) by apply list_elem_of_here. rewrite !bind_Ok_l.
    rewrite IH.
    + rewrite bind_cons, <- app_assoc. done.
    + intros b Hb. apply HF. by apply list_elem_of_further.
Qed.

(** A spatial query with no tag filter returns the members of the visited
    cells, cell after cell. *)
Lemma spatial_query_concat (g : SpatialGrid.t) (pos : Position) :
  length (SpatialGrid.cells g)
  = Z.to_nat (SpatialGrid.rows g * SpatialGrid.cols g) →
  SpatialGrid.query g (mkQuery noFilter (Some pos))
  = Ok (SpatialGrid.visited g
          (Qfloor (Vector3.x (at_ pos) / SpatialGrid.cellSize g))
          (Qfloor (Vector3.y (at_ pos) / SpatialGrid.cellSize g))
          (radius pos)
        ≫= fun idx => match nth_Z (SpatialGrid.cells g) idx with
                      | Some c => TagIndex.particles c
                      | None => []
                      end).
Proof.
  intros Hlen. unfold SpatialGrid.query. cbn [q_position q_tags].
  set (vis := SpatialGrid.visited _ _ _ _).
  rewrite <- (app_nil_l (vis ≫= _)).
  rewrite <- (collect_loop
                (fun idx => match nth_Z (SpatialGrid.cells g) idx with
                            | Some c => TagIndex.query c noFilter
                            | None => Throw TypeError
                            end)).
  - apply forEachM_ext. intros idx out. by destruct (nth_Z _ _).
  - intros idx Hidx. apply visited_range in Hidx.
    by destruct (cells_lookup_ok g idx Hlen Hidx) as [c ->].
Qed.

Lemma elem_of_visited (g : SpatialGrid.t) (X Y r idx : Z) :
  idx ∈ SpatialGrid.visited g X Y r
  ↔ ∃ x y, in_grid g x y ∧ Z.abs (x - X) ≤ r ∧ Z.abs (y - Y) ≤ r
           ∧ idx = x + y * SpatialGrid.cols g.
Proof.
  unfold SpatialGrid.visited, in_grid. rewrite list_elem_of_bind. split.
  - intros (x & Hin & Hx). apply list_elem_of_bind in Hin as (y & Hin & Hy).
    apply elem_of_seqZ in Hx, Hy.
    destruct (_ && _) eqn:E; [|by apply elem_of_nil in Hin].
    apply list_elem_of_singleton in Hin as ->.
    apply andb_true_iff in E as [E Hy2]. apply andb_true_iff in E as [E Hy1].
    apply andb_true_iff in E as [Hx1 Hx2].
    exists x, y. repeat split; lia.
  - intros (x & y & [Hx Hy] & Hxr & Hyr & ->).
    exists x. split; [|apply elem_of_seqZ; lia].
    apply list_elem_of_bind. exists y. split; [|apply elem_of_seqZ; lia].
    replace ((0 <=? x) && (x <? SpatialGrid.cols g) && (0 <=? y)
             && (y <? SpatialGrid.rows g)) with true.
    + apply list_elem_of_here.
    + symmetry. rewrite !andb_true_iff. repeat split; lia.
Qed.

Lemma NoDup_visited (g : SpatialGrid.t) (X Y r : Z) :
  NoDup (SpatialGrid.visited g X Y r).
Proof.
  unfold SpatialGrid.visited.
  assert (Hcell : ∀ x y idx,
            idx ∈ (if (0 <=? x) && (x <? SpatialGrid.cols g) && (0 <=? y)
                      && (y <? SpatialGrid.rows g)
                   then [x + y * SpatialGrid.cols g] else []) →
            0 ≤ x < SpatialGrid.cols g ∧ idx = x + y * SpatialGrid.cols g).
  { intros x y idx Hin.
    destruct (_ && _) eqn:E; [|by apply elem_of_nil in Hin].
    apply list_elem_of_singleton in Hin as ->.
    apply andb_true_iff in E as [E Hy2]. apply andb_true_iff in E as [E Hy1].
    apply andb_true_iff in E as [Hx1 Hx2]. lia. }
  apply NoDup_bind; [| |apply NoDup_seqZ].
  - intros x1 x2 idx _ _ H1 H2.
    apply list_elem_of_bind in H1 as (y1 & H1 & _).
    apply list_elem_of_bind in H2 as (y2 & H2 & _).
    apply Hcell in H1 as [Hx1 ->]. apply Hcell in H2 as [Hx2 Heq].
    destruct (cell_coordinates_unique (SpatialGrid.cols g) x1 y1 x2 y2);
      [done|done|lia|done].
  - intros x _. apply NoDup_bind; [| |apply NoDup_seqZ].
    + intros y1 y2 idx _ _ H1 H2.
      apply Hcell in H1 as [Hx1 ->]. apply Hcell in H2 as [Hx2 Heq]. nia.
    + intros y _. destruct (_ && _); [apply NoDup_singleton|constructor].
Qed.

(** A spatial query returns the neighbourhood.  On a grid that satisfies
    the bucket invariant, a query with a position and no tag filter
    returns, each once, exactly the live particles whose cell is a cell of
    the grid within [radius] cells (on both axes) of the cell of the
    position; a position whose cell lies outside the grid is fine, and a
    negative radius gives the empty result. *)
Theorem spatial_query_neighbours (g : SpatialGrid.t) (h : Heap)
        (pos : Position) :
  bucketed g h →
  ∃ l, SpatialGrid.query g (mkQuery noFilter (Some pos)) = Ok l
       ∧ NoDup l
       ∧ ∀ p, p ∈ l
              ↔ p ∈ SpatialGrid.particles g
                ∧ ∃ cx cy, near g (at_ pos) (radius pos) cx cy
                           ∧ cellOf g h p = cy * SpatialGrid.cols g + cx.
Proof.
  intros (Hlen & Hnd & Hcnd & Hmem).
  eexists. split; [by apply spatial_query_concat|].
  set (X := Qfloor (Vector3.x (at_ pos) / SpatialGrid.cellSize g)).
  set (Y := Qfloor (Vector3.y (at_ pos) / SpatialGrid.cellSize g)).
  assert (Hcell : ∀ idx p,
            idx ∈ SpatialGrid.visited g X Y (radius pos) →
            p ∈ match nth_Z (SpatialGrid.cells g) idx with
                | Some c => TagIndex.particles c
                | None => []
                end
            ↔ p ∈ SpatialGrid.particles g ∧ cellOf g h p = idx).
  { intros idx p Hidx. apply visited_range in Hidx.
    destruct (cells_lookup_ok g idx Hlen Hidx) as [c Hc]. rewrite Hc.
    apply nth_Z_Some in Hc as [H0 Hc].
    rewrite (Hmem _ _ p Hc), Z2Nat.id by done. done. }
  split.
  - apply NoDup_bind; [| |apply NoDup_visited].
    + intros i1 i2 p H1 H2 Hp1 Hp2.
      apply (Hcell _ _ H1) in Hp1 as [_ <-].
      apply (Hcell _ _ H2) in Hp2 as [_ <-]. done.
    + intros idx Hidx. apply visited_range in Hidx.
      destruct (cells_lookup_ok g idx Hlen Hidx) as [c Hc]. rewrite Hc.
      apply nth_Z_Some in Hc as [_ Hc]. by eapply Hcnd.
  - intros p. rewrite list_elem_of_bind. unfold near. fold X Y. split.
    + intros (idx & Hp & Hidx). apply (Hcell _ _ Hidx) in Hp as [Hp Hc].
      split; [done|].
      apply elem_of_visited in Hidx as (x & y & Hg & Hx & Hy & ->).
      exists x, y. split; [done|]. lia.
    + intros (Hp & cx & cy & (Hg & Hx & Hy) & Hc).
      assert (Hidx : cy * SpatialGrid.cols g + cx
                     ∈ SpatialGrid.visited g X Y (radius pos)).
      { apply elem_of_visited. exists cx, cy. repeat split; try done.
        - apply Hg. - apply Hg. - apply Hg. - apply Hg. - lia. }
      exists (cy * SpatialGrid.cols g + cx). split; [|done].
      apply (Hcell _ _ Hidx). done.
Qed.

(** The neighbourhood of (5, 5) in the grid of [tagged_after]. *)
Lemma spatial_query_neighbours_witness :
  ∃ l, SpatialGrid.query tagged_grid
         (mkQuery noFilter (Some (mkPosition (Vector3.mk 5 5 0) 1))) = Ok l
       ∧ NoDup l.
Proof.
  destruct (spatial_query_neighbours tagged_grid
              (ParticleSystem.heap tagged_after)
              (mkPosition (Vector3.mk 5 5 0) 1))
    as (l & Hl & Hnd & _).
  - exact tagged_after_bucketed.
  - exists l. split; [exact Hl|exact Hnd].
Defined.

(** ** The cell of a position *)

Lemma floor_square (v cs : Q) :
  (0 < cs)%Q →
  (inject_Z (Qfloor (v / cs)) * cs <= v)%Q
  ∧ (v < (inject_Z (Qfloor (v / cs)) + 1) * cs)%Q.
Proof.
  intros Hcs.
  assert (Hv : (v == v / cs * cs)%Q).
  { field. intros Hz. rewrite Hz in Hcs. by apply Qlt_irrefl in Hcs. }
  pose proof (Qfloor_le (v / cs)) as Hlo.
  pose proof (Qlt_floor (v / cs)) as Hhi.
  rewrite inject_Z_plus in Hhi. change (inject_Z 1) with 1%Q in Hhi.
  set (q := (v / cs)%Q) in *. set (k := inject_Z (Qfloor q)) in *.
  split; nra.
Qed.

(** [hashPosition] names the square the position lies in.  For a positive
    cell size, the result is [-1] exactly when the column or the row of
    the position falls outside the grid; otherwise it is the row-major
    index of a cell of the grid, below [rows * cols], and the position
    lies in the square of that cell: [col * cellSize <= x < (col + 1) *
    cellSize], and the same for [y] and the row. *)
Theorem hashPosition_square (g : SpatialGrid.t) (pos : Vector3.t) :
  (0 < SpatialGrid.cellSize g)%Q →
  let col := Qfloor (Vector3.x pos / SpatialGrid.cellSize g) in
  let row := Qfloor (Vector3.y pos / SpatialGrid.cellSize g) in
  let i := SpatialGrid.hashPosition g pos in
  (inject_Z col * SpatialGrid.cellSize g <= Vector3.x pos
   ∧ Vector3.x pos < (inject_Z col + 1) * SpatialGrid.cellSize g)%Q
  ∧ (inject_Z row * SpatialGrid.cellSize g <= Vector3.y pos
     ∧ Vector3.y pos < (inject_Z row + 1) * SpatialGrid.cellSize g)%Q
  ∧ (i = -1 ↔ ¬ in_grid g col row)
  ∧ (in_grid g col row →
     i = row * SpatialGrid.cols g + col
     ∧ 0 ≤ i < SpatialGrid.rows g * SpatialGrid.cols g
     ∧ i `mod` SpatialGrid.cols g = col
     ∧ i `div` SpatialGrid.cols g = row).
Proof.
  intros Hcs col row i.
  split; [by apply floor_square|]. split; [by apply floor_square|].
  subst i. unfold SpatialGrid.hashPosition, in_grid. fold col row.
  destruct ((col <? 0) || (SpatialGrid.cols g <=? col) || (row <? 0)
            || (SpatialGrid.rows g <=? row)) eqn:E.
  - rewrite !orb_true_iff in E. split; [|lia]. split; [lia|done].
  - rewrite !orb_false_iff in E. destruct E as [[[E1 E2] E3] E4].
    split; [split; [nia|lia]|]. intros _.
    split; [done|]. split; [nia|]. split.
    + rewrite Z.add_comm, Z.mod_add by lia. apply Z.mod_small. lia.
    + rewrite Z.add_comm, Z.div_add by lia. rewrite Z.div_small by lia. lia.
Qed.

(** The position (15, 5) of the 200 x 200 system lies in column 1 of
    row 0. *)
Lemma hashPosition_square_witness :
  SpatialGrid.hashPosition (ParticleSystem.grid system200)
    (Vector3.mk 15 5 0) = 1.
Proof.
  destruct (hashPosition_square (ParticleSystem.grid system200)
              (Vector3.mk 15 5 0)) as (_ & _ & _ & Hin).
  - reflexivity.
  - destruct Hin as (Hi & _).
    + vm_compute. repeat split; discriminate.
    + exact Hi.
Defined.

(** ** Queries of a tag index *)

Lemma fold_intersect (A : Tag → list PId) (ts : list Tag) (acc : list PId) :
  fold_left (fun acc arr => filter (fun p => p ∈ arr) acc) (map A ts) acc
  = filter (fun p => Forall (fun t => p ∈ A t) ts) acc.
Proof.
  revert acc. induction ts as [|t ts IH]; intros acc; cbn [map fold_left].
  - induction acc as [|p acc IHacc]; [done|].
    rewrite filter_cons_True by constructor. by rewrite <- IHacc.
  - rewrite IH, list_filter_filter. apply list_filter_iff. intros p.
    split.
    + intros [? ?]. by constructor.
    + intros Hall. apply list.Forall_cons in Hall. tauto.
Qed.

(** An [and] filter intersects.  [query({and: [t, ...ts]})] returns the
    entities of the array of the first tag that are in the array of every
    other listed tag, in the order of the first array; an [or] key next to
    the [and] key is ignored. *)
Theorem query_and_filter (i : TagIndex.t) (t : Tag) (ts : list Tag)
        (o : option (list Tag)) :
  TagIndex.query i (mkFilter (Some (t :: ts)) o)
  = Ok (filter (fun p => Forall (fun t' => p ∈ tagged i t') ts) (tagged i t)).
Proof.
  unfold TagIndex.query. cbn [f_and f_or map TagIndex.reduce_intersect].
  f_equal. apply (fold_intersect (tagged i)).
Qed.

(** ** The arrays of a tag index *)

Lemma addTag_lookup (e : PId) (tag t : Tag) (i : TagIndex.t) :
  TagIndex.tagIndex (TagIndex.addTag e tag i) !! t
  = if decide (tag = t)
    then Some (if decide (e ∈ tagged i t) then tagged i t
               else tagged i t ++ [e])
    else TagIndex.tagIndex i !! t.
Proof.
  unfold TagIndex.addTag, tagged, includes.
  change (list nat) with (list PId).
  destruct (TagIndex.tagIndex i !! tag) as [a|] eqn:Ha.
  - rewrite Ha. cbn [default].
    destruct (decide (tag = t)) as [<-|Hne].
    + rewrite Ha. cbn [default].
      case_bool_decide; case_decide; try done; cbn [TagIndex.tagIndex].
      by rewrite lookup_insert_eq.
    + case_bool_decide; cbn [TagIndex.tagIndex]; [done|].
      by rewrite lookup_insert_ne.
  - rewrite lookup_insert_eq. cbn [default].
    case_bool_decide; [by exfalso; eapply not_elem_of_nil|].
    cbn [TagIndex.tagIndex].
    destruct (decide (tag = t)) as [<-|Hne].
    + rewrite Ha. cbn [default].
      rewrite decide_False by apply not_elem_of_nil.
      by rewrite lookup_insert_eq.
    + by rewrite !lookup_insert_ne.
Qed.

Lemma addTag_tagged (e : PId) (tag t : Tag) (i : TagIndex.t) :
  tagged (TagIndex.addTag e tag i) t
  = if decide (tag = t)
    then (if decide (e ∈ tagged i t) then tagged i t else tagged i t ++ [e])
    else tagged i t.
Proof.
  unfold tagged at 1. rewrite addTag_lookup.
  by destruct (decide (tag = t)).
Qed.

Lemma removeTag_tagged (e : PId) (tag t : Tag) (i : TagIndex.t) :
  tagged (TagIndex.removeTag e tag i) t
  = if decide (tag = t) then spliceOut e (tagged i t) else tagged i t.
Proof.
  unfold tagged. rewrite removeTag_lookup.
  destruct (decide (tag = t)); [|done].
  by destruct (TagIndex.tagIndex i !! t).
Qed.

Lemma addTag_nodup (e : PId) (tag : Tag) (i : TagIndex.t) :
  tags_nodup i → tags_nodup (TagIndex.addTag e tag i).
Proof.
  intros Hi t arr. rewrite addTag_lookup.
  assert (Ht : NoDup (tagged i t)).
  { unfold tagged. destruct (TagIndex.tagIndex i !! t) eqn:E; cbn.
    - by eapply Hi.
    - constructor. }
  destruct (decide (tag = t)); [|apply Hi].
  intros [= <-]. destruct (decide (e ∈ tagged i t)); [done|].
  apply list.NoDup_app. split; [done|]. split; [|apply NoDup_singleton].
  intros x Hx Hx'. apply list_elem_of_singleton in Hx' as ->. done.
Qed.

Lemma removeTag_nodup (e : PId) (tag : Tag) (i : TagIndex.t) :
  tags_nodup i → tags_nodup (TagIndex.removeTag e tag i).
Proof.
  intros Hi t arr. rewrite removeTag_lookup.
  destruct (decide (tag = t)); [|apply Hi].
  destruct (TagIndex.tagIndex i !! t) as [a|] eqn:E; [|done].
  intros [= <-]. apply NoDup_spliceOut. by eapply Hi.
Qed.

(** No tag array ever holds an entity twice.  The arrays of a new index
    are duplicate-free, and [addTag], [removeTag], [add] and [remove] keep
    them so.  Hence the result of a query with an [and] filter, and of a
    query with an [or] filter of a single tag, never repeats an entity. *)
Theorem tag_arrays_duplicate_free :
  tags_nodup TagIndex.new
  ∧ (∀ i e tag, tags_nodup i → tags_nodup (TagIndex.addTag e tag i))
  ∧ (∀ i e tag, tags_nodup i → tags_nodup (TagIndex.removeTag e tag i))
  ∧ (∀ h i e, tags_nodup i → tags_nodup (TagIndex.add h e i))
  ∧ (∀ h i e, tags_nodup i → tags_nodup (TagIndex.remove h e i))
  ∧ (∀ i f r, tags_nodup i → TagIndex.query i f = Ok r →
              f_and f ≠ None ∨ (∃ tag, f_or f = Some [tag]) → NoDup r).
Proof.
  split; [|split; [|split; [|split; [|split]]]].
  - intros t arr Ht. cbn in Ht. by apply lookup_empty_Some in Ht.
  - intros i e tag. apply addTag_nodup.
  - intros i e tag. apply removeTag_nodup.
  - intros h i e Hi. unfold TagIndex.add.
    apply (forEach_invariant tags_nodup); [|exact Hi].
    intros tag i1 _. apply addTag_nodup.
  - intros h i e Hi. unfold TagIndex.remove.
    apply (forEach_invariant tags_nodup); [|exact Hi].
    intros tag i1 _. apply removeTag_nodup.
  - intros i f r Hi Hq Hf.
    assert (Ht : ∀ t, NoDup (tagged i t)).
    { intros t. unfold tagged.
      destruct (TagIndex.tagIndex i !! t) eqn:E; cbn;
        [by eapply Hi|constructor]. }
    destruct f as [[[|t ts]|] o].
    + done.
    + unfold TagIndex.query in Hq.
      cbn [f_and f_or map TagIndex.reduce_intersect] in Hq.
      rewrite (fold_intersect (tagged i)) in Hq. injection Hq as <-.
      apply list.NoDup_filter, Ht.
    + destruct Hf as [Hf|[tag Hf]]; [done|]. cbn in Hf. subst o.
      unfold TagIndex.query, forEach in Hq. cbn [f_and f_or] in Hq.
      rewrite fold_or_concat in Hq. injection Hq as <-.
      cbn. rewrite app_nil_r. apply Ht.
Qed.

(** ** Adding and removing an entity *)

Lemma query_tagged (i j : TagIndex.t) (f : Filter) :
  TagIndex.particles i = TagIndex.particles j →
  (∀ t, tagged i t = tagged j t) →
  TagIndex.query i f = TagIndex.query j f.
Proof.
  intros Hp Ht. unfold TagIndex.query.
  destruct (f_and f) as [tags|].
  - f_equal. apply map_ext. intros t. apply Ht.
  - destruct (f_or f) as [tags|]; [|by rewrite Hp].
    unfold forEach. rewrite !fold_or_concat. do 3 f_equal.
    apply map_ext. intros t. apply Ht.
Qed.

Lemma addTags_tagged (e : PId) (ts : list Tag) (t : Tag) (i : TagIndex.t) :
  tagged (forEach (TagIndex.addTag e) ts i) t
  = if decide (t ∈ ts)
    then (if decide (e ∈ tagged i t) then tagged i t else tagged i t ++ [e])
    else tagged i t.
Proof.
  revert i. induction ts as [|t0 ts IH]; intros i.
  - cbn. by rewrite decide_False by apply not_elem_of_nil.
  - rewrite forEach_cons, IH, !addTag_tagged.
    destruct (decide (t0 = t)) as [->|Hne].
    + rewrite (decide_True (P := t ∈ t :: ts)) by apply list_elem_of_here.
      destruct (decide (e ∈ tagged i t)) as [Hin|Hin].
      * rewrite (decide_True (P := e ∈ tagged i t)) by done.
        by destruct (decide (t ∈ ts)).
      * rewrite (decide_True (P := e ∈ tagged i t ++ [e])).
        -- by destruct (decide (t ∈ ts)).
        -- apply elem_of_app. right. apply list_elem_of_here.
    + destruct (decide (t ∈ ts)) as [Hin|Hin].
      * by rewrite (decide_True (P := t ∈ t0 :: ts))
          by by apply list_elem_of_further.
      * rewrite (decide_False (P := t ∈ t0 :: ts)); [done|].
        intros H'. apply elem_of_cons in H' as [->|?]; done.
Qed.

Lemma removeTags_tagged (e : PId) (ts : list Tag) (t : Tag)
      (i : TagIndex.t) :
  e ∉ spliceOut e (tagged i t) →
  tagged (forEach (TagIndex.removeTag e) ts i) t
  = if decide (t ∈ ts) then spliceOut e (tagged i t) else tagged i t.
Proof.
  revert i. induction ts as [|t0 ts IH]; intros i Hone.
  - cbn. by rewrite decide_False by apply not_elem_of_nil.
  - rewrite forEach_cons, IH; rewrite !removeTag_tagged.
    + destruct (decide (t0 = t)) as [->|Hne].
      * rewrite (decide_True (P := t ∈ t :: ts)) by apply list_elem_of_here.
        rewrite (spliceOut_not_in e (spliceOut e (tagged i t))) by done.
        by destruct (decide (t ∈ ts)).
      * destruct (decide (t ∈ ts)) as [Hin|Hin].
        -- by rewrite (decide_True (P := t ∈ t0 :: ts))
             by by apply list_elem_of_further.
        -- rewrite (decide_False (P := t ∈ t0 :: ts)); [done|].
           intros H'. apply elem_of_cons in H' as [->|?]; done.
    + destruct (decide (t0 = t)); [|done].
      by rewrite (spliceOut_not_in e (spliceOut e (tagged i t))).
Qed.

Lemma spliceOut_app_fresh (e : nat) (l : list nat) :
  e ∉ l → spliceOut e (l ++ [e]) = l.
Proof.
  induction l as [|x l IH]; intros Hin.
  - rewrite app_nil_l, spliceOut_cons. by rewrite decide_True.
  - rewrite <- app_comm_cons, spliceOut_cons.
    rewrite decide_False; [rewrite IH; [done|]|].
    + intros H'. apply Hin. by apply list_elem_of_further.
    + intros ->. apply Hin. apply list_elem_of_here.
Qed.

(** [add] and [remove] are inverse on queries.  Removing an entity right
    after adding it to an index that did not hold it restores the member
    list and every tag array (a tag the index did not know is left with
    an empty array), so every query answers as before. *)
Theorem add_remove_roundtrip (h : Heap) (e : PId) (i : TagIndex.t) :
  e ∉ TagIndex.particles i → (∀ t, e ∉ tagged i t) →
  let i' := TagIndex.remove h e (TagIndex.add h e i) in
  TagIndex.particles i' = TagIndex.particles i
  ∧ (∀ t, tagged i' t = tagged i t)
  ∧ (∀ f, TagIndex.query i' f = TagIndex.query i f).
Proof.
  intros Hp Ht i'.
  assert (Hparts : TagIndex.particles i' = TagIndex.particles i).
  { subst i'. rewrite remove_particles, add_particles.
    by apply spliceOut_app_fresh. }
  assert (Htags : ∀ t, tagged i' t = tagged i t).
  { intros t. subst i'. unfold TagIndex.remove, TagIndex.add.
    set (tags := Particle.tags (particle h e)).
    set (j := forEach (TagIndex.addTag e) tags _).
    assert (Hj : tagged j t
                 = if decide (t ∈ tags) then tagged i t ++ [e]
                   else tagged i t).
    { subst j. rewrite addTags_tagged.
      change (tagged (TagIndex.mk _ (TagIndex.tagIndex i)) t)
        with (tagged i t).
      by rewrite (decide_False (P := e ∈ tagged i t)) by apply Ht. }
    change (tagged (forEach (TagIndex.removeTag e) tags
                      (TagIndex.mk (spliceOut e (TagIndex.particles j))
                                   (TagIndex.tagIndex j))) t = tagged i t).
    rewrite removeTags_tagged;
      change (tagged (TagIndex.mk _ (TagIndex.tagIndex j)) t)
        with (tagged j t); rewrite Hj.
    - destruct (decide (t ∈ tags)); [|done].
      by apply spliceOut_app_fresh.
    - destruct (decide (t ∈ tags)).
      + rewrite spliceOut_app_fresh by apply Ht. apply Ht.
      + rewrite spliceOut_not_in by apply Ht. apply Ht. }
  split; [done|]. split; [done|].
  intros f. by apply query_tagged.
Qed.

(** Particle [0] of [heap_ab], tagged [a] and [b], added to a new index
    and removed again. *)
Lemma add_remove_roundtrip_witness :
  TagIndex.query
    (TagIndex.remove heap_ab 0%nat (TagIndex.add heap_ab 0%nat TagIndex.new))
    (orFilter ["a"; "b"])
  = TagIndex.query TagIndex.new (orFilter ["a"; "b"]).
Proof.
  apply (add_remove_roundtrip heap_ab 0%nat TagIndex.new).
  - apply not_elem_of_nil.
  - intros t. unfold tagged. cbn [TagIndex.new TagIndex.tagIndex].
    rewrite lookup_empty. apply not_elem_of_nil.
Defined.

(** ** Filling *)

Lemma getDensity_ok (s : ParticleSystem.t) (pos : Vector3.t) :
  geometry (ParticleSystem.bounds s) (ParticleSystem.grid s) →
  ∃ dens, ParticleSystem.getDensity s pos = Ok dens.
Proof.
  intros Hgeo. unfold ParticleSystem.getDensity.
  destruct (BoundingBox.containsVector _ pos) eqn:Hin; cbn [negb]; [|eauto].
  destruct (inside_cell _ _ _ Hgeo Hin) as (_ & _ & _ & cell & -> & _).
  eauto.
Qed.

Lemma checkPosition_ok (s : ParticleSystem.t) (pos : Vector3.t) (m : Q) :
  geometry (ParticleSystem.bounds s) (ParticleSystem.grid s) →
  ∃ b, ParticleSystem.checkPosition s pos m = Ok b.
Proof.
  intros Hgeo. unfold ParticleSystem.checkPosition.
  destruct (getDensity_ok s pos Hgeo) as [dens ->]. rewrite bind_Ok_l. eauto.
Qed.

Lemma same_admission_check (s s' : ParticleSystem.t) (pos : Vector3.t)
      (m : Q) :
  same_admission s s' →
  ParticleSystem.checkPosition s' pos m = ParticleSystem.checkPosition s pos m.
Proof.
  intros (Hg & Hb & Hp & Hd).
  unfold ParticleSystem.checkPosition, ParticleSystem.getDensity.
  by rewrite Hg, Hb, Hp, Hd.
Qed.

Lemma createParticle_checked (s : ParticleSystem.t) (pos : Vector3.t) :
  geometry (ParticleSystem.bounds s) (ParticleSystem.grid s) →
  ∃ s', ParticleSystem.createParticle pos false s
        = Ok (if admits s pos then Some (ParticleSystem.nextParticle s)
              else None, s')
        ∧ same_admission s s'
        ∧ ParticleSystem.particleCreationQueue s'
          = ParticleSystem.particleCreationQueue s
            ++ (if admits s pos then [ParticleSystem.nextParticle s] else [])
        ∧ ParticleSystem.nextParticle s'
          = if admits s pos then S (ParticleSystem.nextParticle s)
            else ParticleSystem.nextParticle s.
Proof.
  intros Hgeo. unfold ParticleSystem.createParticle, admits.
  destruct (checkPosition_ok s pos 1 Hgeo) as [b ->]. rewrite bind_Ok_l.
  destruct b.
  - eexists. split; [reflexivity|]. by repeat split.
  - exists s. split; [reflexivity|]. rewrite app_nil_r. by repeat split.
Qed.

Lemma same_admission_admits (s s' : ParticleSystem.t) (pos : Vector3.t) :
  same_admission s s' → admits s' pos = admits s pos.
Proof.
  intros Hs. unfold admits. by rewrite (same_admission_check s s').
Qed.

Lemma fill_loop_spec (rand : nat → Q) (dim : Z) (s0 : ParticleSystem.t)
      (n : nat) (k : nat) (acc : list PId) (s : ParticleSystem.t) :
  geometry (ParticleSystem.bounds s0) (ParticleSystem.grid s0) →
  same_admission s0 s →
  ∃ out s',
    ParticleSystem.fill_loop rand n dim k acc s = Ok (acc ++ out, s')
    ∧ same_admission s0 s'
    ∧ out = seq (ParticleSystem.nextParticle s) (length out)
    ∧ ParticleSystem.nextParticle s'
      = (ParticleSystem.nextParticle s + length out)%nat
    ∧ ParticleSystem.particleCreationQueue s'
      = ParticleSystem.particleCreationQueue s ++ out
    ∧ length out
      = length (filter (fun pt => admits s0 pt = true)
                       (draws rand k n dim (ParticleSystem.bounds s0))).
Proof.
  intros Hgeo. revert k acc s.
  induction n as [|n IH]; intros k acc s Hs.
  - exists [], s. cbn. rewrite !app_nil_r, Nat.add_0_r.
    split; [done|]. split; [exact Hs|]. done.
  - cbn [ParticleSystem.fill_loop draws].
    assert (Hb : ParticleSystem.bounds s = ParticleSystem.bounds s0)
      by by destruct Hs as (_ & ? & _).
    rewrite Hb.
    set (pt := BoundingBox.getRandomPointInside _ _ _ _ _).
    set (k' := if decide (dim = 3) then _ else _).
    assert (Hgeo' : geometry (ParticleSystem.bounds s) (ParticleSystem.grid s)).
    { destruct Hs as (-> & -> & _). done. }
    destruct (createParticle_checked s pt Hgeo')
      as (s1 & -> & Hs1 & Hq1 & Hn1).
    rewrite bind_Ok_l. cbn beta iota.
    rewrite (same_admission_admits s0 s pt Hs) in *.
    assert (Hs01 : same_admission s0 s1).
    { destruct Hs as (?&?&?&?), Hs1 as (?&?&?&?).
      repeat split; congruence. }
    destruct (admits s0 pt) eqn:Hpt.
    + destruct (IH k' (acc ++ [ParticleSystem.nextParticle s]) s1 Hs01)
        as (out & s' & -> & Hs' & Hout & Hn' & Hq' & Hlen).
      exists (ParticleSystem.nextParticle s :: out), s'.
      rewrite <- app_assoc. split; [done|]. split; [done|].
      rewrite Hn1 in Hout, Hn'. rewrite Hq1 in Hq'.
      rewrite filter_cons_True by done. cbn [length seq].
      split; [by rewrite <- Hout|]. split; [lia|].
      split; [by rewrite Hq', <- app_assoc|]. by rewrite Hlen.
    + destruct (IH k' acc s1 Hs01)
        as (out & s' & -> & Hs' & Hout & Hn' & Hq' & Hlen).
      exists out, s'. split; [done|]. split; [done|].
      rewrite Hn1 in Hout, Hn'. rewrite Hq1, app_nil_r in Hq'.
      rewrite filter_cons_False by (by rewrite Hpt).
      done.
Qed.

(** [fill] judges every draw against the committed state.  On a system
    with the constructor's geometry [fill(n)] never throws.  It queues, in
    order and under fresh identifiers, one particle for each of its [n]
    draws that [checkPosition] accepts on the system as it was before
    [fill]; the grid is untouched.  The particles it has queued so far do
    not count towards [maxParticles] or the density of a cell. *)
Theorem fill_admits_against_committed (rand : nat → Q) (k n : nat) (dim : Z)
        (s : ParticleSystem.t) :
  geometry (ParticleSystem.bounds s) (ParticleSystem.grid s) →
  ∃ out s',
    ParticleSystem.fill rand k n dim s = Ok (out, s')
    ∧ ParticleSystem.grid s' = ParticleSystem.grid s
    ∧ out = seq (ParticleSystem.nextParticle s) (length out)
    ∧ ParticleSystem.particleCreationQueue s'
      = ParticleSystem.particleCreationQueue s ++ out
    ∧ length out
      = length (filter (fun pt => admits s pt = true)
                       (draws rand k n dim (ParticleSystem.bounds s))).
Proof.
  intros Hgeo. unfold ParticleSystem.fill.
  destruct (fill_loop_spec rand dim s n k [] s Hgeo)
    as (out & s' & Hfill & Hs' & Hout & _ & Hq & Hlen); [by repeat split|].
  exists out, s'. split; [exact Hfill|]. split; [by destruct Hs'|]. done.
Qed.

(** With [maxParticles] set to 1 on the empty 200 x 200 system, three
    draws at (50, 50) are all accepted: [fill(3)] queues three particles. *)
Lemma fill_admits_against_committed_witness :
  ∃ out s',
    ParticleSystem.fill (fun _ => 1 # 4)%Q 0 3 2
      (ParticleSystem.setMaxParticles 1 system200) = Ok (out, s')
    ∧ length out = 3%nat.
Proof.
  destruct (fill_admits_against_committed (fun _ => 1 # 4)%Q 0 3 2
              (ParticleSystem.setMaxParticles 1 system200))
    as (out & s' & Hf & _ & _ & _ & Hlen).
  - repeat split; vm_compute; reflexivity.
  - exists out, s'. split; [exact Hf|]. rewrite Hlen. vm_compute.
    reflexivity.
Defined.

(** ** Forces *)

Lemma upd_particle_same (f : Particle.t → Particle.t) (p : PId) (h : Heap) :
  particle (upd_particle p f h) p = f (particle h p).
Proof. unfold upd_particle. cbn. by rewrite fn_lookup_insert. Qed.

Lemma upd_particle_other (f : Particle.t → Particle.t) (p q : PId)
      (h : Heap) :
  q ≠ p → particle (upd_particle p f h) q = particle h q.
Proof. intros Hq. unfold upd_particle. cbn. by rewrite fn_lookup_insert_ne. Qed.

Lemma set_velocity_position (v : Vector3.t) (p : Particle.t) :
  Particle.position (Particle.set_velocity v p) = Particle.position p.
Proof. reflexivity. Qed.

Lemma keeps_positions_id : keeps_positions (fun h => h).
Proof. by intros h q. Qed.

Lemma applyForce_keeps (p : PId) (f : Vector3.t) :
  keeps_positions (upd_particle p (Particle.applyForce f)).
Proof. apply upd_particle_position. intros x. apply applyForce_position. Qed.

Lemma applyIf_keeps `{MathSqrt} (threshold force falloff : Q) (p : PId)
      (dist : Q) (direction : Vector3.t) :
  keeps_positions (Behaviours.applyIf threshold force falloff p dist direction).
Proof.
  intros h q. unfold Behaviours.applyIf.
  destruct (ParticleSystem.Qltb _ _); [apply applyForce_keeps|done].
Qed.

(** The callbacks of Behaviours.js that move no particle.  Every behaviour
    and interaction of the file other than [boundaryBounceBehavior] acts
    on forces and velocities only: it leaves the position of every
    particle as it is, which is what the bucket invariant asks of a
    registered callback. *)
Theorem builtin_behaviours_keep_positions `{MathSqrt} :
  (∀ factor p, keeps_positions (Behaviours.dampenVelocity factor p))
  ∧ (∀ factor p, keeps_positions (Behaviours.dampenVelocityBehavior factor p))
  ∧ (∀ point threshold forceMag p,
       keeps_positions (Behaviours.repelFromPoint point threshold forceMag p))
  ∧ (∀ range factor a b,
       keeps_positions (Behaviours.symmetricParticleForce range factor a b))
  ∧ (∀ coefficient p,
       keeps_positions (Behaviours.applyConnectionCentroidForce coefficient p))
  ∧ (∀ range strength attractor neighbors,
       keeps_positions
         (Behaviours.pointAttractionBehavior range strength attractor
                                             neighbors))
  ∧ (∀ bounds threshold force falloff p,
       keeps_positions
         (Behaviours.repulseFromEdgesBehavior bounds threshold force falloff
                                              p)).
Proof.
  split; [|split; [|split; [|split; [|split; [|split]]]]].
  - intros factor p. by apply upd_particle_position.
  - intros factor p. by apply upd_particle_position.
  - intros point threshold forceMag p h q. unfold Behaviours.repelFromPoint.
    destruct (ParticleSystem.Qltb _ _); [apply applyForce_keeps|done].
  - intros range factor a b h q. unfold Behaviours.symmetricParticleForce.
    cbv zeta. destruct (ParticleSystem.Qltb _ _); [|done].
    by rewrite !applyForce_keeps.
  - intros coefficient p h q. unfold Behaviours.applyConnectionCentroidForce.
    destruct (Particle.connections (particle h p)); [done|].
    apply applyForce_keeps.
  - intros range strength attractor neighbors.
    unfold Behaviours.pointAttractionBehavior.
    apply keeps_positions_forEach. intros n _ h q. cbv zeta.
    destruct (ParticleSystem.Qltb _ _); [apply applyForce_keeps|done].
  - intros bounds threshold force falloff p h q.
    unfold Behaviours.repulseFromEdgesBehavior. cbv zeta.
    by rewrite !applyIf_keeps.
Qed.

(** A pair force is equal and opposite.  [symmetricParticleForce] does
    nothing to a pair at distance [interactionRange] or more.  To a closer
    pair of distinct particles it applies the separation vector scaled by
    [forceFactor / (dist * dist + 0.01)] to the first particle and the
    same vector times [-1] to the second; no other particle and no spring
    is touched. *)
Theorem pair_force_opposite `{MathSqrt} (range forceFactor : Q) (a b : PId)
        (h : Heap) :
  (¬ (distance h a b < range)%Q →
   Behaviours.symmetricParticleForce range forceFactor a b h = h)
  ∧ ((distance h a b < range)%Q → a ≠ b →
     particle (Behaviours.symmetricParticleForce range forceFactor a b h) a
     = Particle.applyForce
         (Vector3.mult (separation h a b)
            (forceFactor / (distance h a b * distance h a b + (1 # 100)))%Q)
         (particle h a)
     ∧ particle (Behaviours.symmetricParticleForce range forceFactor a b h) b
       = Particle.applyForce
           (Vector3.mult
              (Vector3.mult (separation h a b)
                 (forceFactor
                  / (distance h a b * distance h a b + (1 # 100)))%Q)
              (-1))
           (particle h b))
  ∧ (∀ q, q ≠ a → q ≠ b →
          particle (Behaviours.symmetricParticleForce range forceFactor a b h)
                   q
          = particle h q)
  ∧ spring (Behaviours.symmetricParticleForce range forceFactor a b h)
    = spring h.
Proof.
  unfold Behaviours.symmetricParticleForce, distance, separation. cbv zeta.
  destruct (ParticleSystem.Qltb _ range) eqn:E.
  - apply Qltb_lt in E. split; [done|]. split; [|split; [|done]].
    + intros _ Hab. split.
      * rewrite upd_particle_other by done. by rewrite upd_particle_same.
      * rewrite upd_particle_same. by rewrite upd_particle_other by done.
    + intros q Hqa Hqb. by rewrite !upd_particle_other.
  - assert (Hn : ¬ (Vector3.magnitude
                      (Vector3.sub (Particle.position (particle h a))
                                   (Particle.position (particle h b)))
                    < range)%Q).
    { intros Hlt. apply Qltb_lt in Hlt. congruence. }
    split; [done|]. split; [done|]. done.
Qed.

(** Hooke's law.  [Spring.update] applies a force to the first endpoint
    and the same force times [-1] to the second, and touches nothing else.
    When the endpoints are apart, the force is the separation vector
    scaled by [(springLength - d) * k / d], [d] being their distance: for a
    positive [k] it pulls the endpoints together when the spring is
    stretched and pushes them apart when it is compressed. *)
Theorem spring_law `{MathSqrt} (s : SId) (h : Heap) :
  let p1 := SpringObj.particle1 (spring h s) in
  let p2 := SpringObj.particle2 (spring h s) in
  (p1 ≠ p2 →
   particle (Spring.update s h) p1
   = Particle.applyForce (Spring.force h s) (particle h p1)
   ∧ particle (Spring.update s h) p2
     = Particle.applyForce (Vector3.mult (Spring.force h s) (-1))
                           (particle h p2))
  ∧ (∀ q, q ≠ p1 → q ≠ p2 →
          particle (Spring.update s h) q = particle h q)
  ∧ spring (Spring.update s h) = spring h
  ∧ ((0 < distance h p1 p2)%Q →
     same_vector
       (Spring.force h s)
       (Vector3.mult
          (separation h p1 p2)
          ((SpringObj.springLength (spring h s) - distance h p1 p2)
           * SpringObj.k (spring h s)
           / distance h p1 p2)%Q)).
Proof.
  unfold Spring.update. cbv zeta.
  split; [|split; [|split]].
  - intros Hab. split.
    + rewrite upd_particle_other by done. by rewrite upd_particle_same.
    + rewrite upd_particle_same. by rewrite upd_particle_other by done.
  - intros q Hqa Hqb. by rewrite !upd_particle_other.
  - done.
  - unfold distance, separation, Spring.force, Vector3.normalize,
      Vector3.div, Vector3.mult, same_vector. cbv zeta.
    cbn [Vector3.x Vector3.y Vector3.z].
    set (d := Vector3.magnitude _). intros Hd.
    assert (Hd0 : ¬ (d == 0)%Q) by (intros E; rewrite E in Hd; lra).
    repeat split; field; exact Hd0.
Qed.

(** ** The boundary bounce *)

Lemma bounce_axis (lo hi margin v vel : Q) :
  (lo + margin <= hi)%Q → (0 <= margin)%Q →
  let r := if ParticleSystem.Qltb v lo
           then ((lo + margin)%Q, (vel * -1)%Q)
           else if ParticleSystem.Qltb hi v
                then ((hi - margin)%Q, (vel * -1)%Q)
                else (v, vel) in
  (lo <= fst r ∧ fst r <= hi)%Q
  ∧ ((lo <= v ∧ v <= hi)%Q → r = (v, vel)).
Proof.
  intros Hm H0. cbv zeta.
  destruct (ParticleSystem.Qltb v lo) eqn:E1.
  - apply Qltb_lt in E1. cbn [fst]. split; [lra|]. intros [? ?]. lra.
  - destruct (ParticleSystem.Qltb hi v) eqn:E2.
    + apply Qltb_lt in E2. cbn [fst]. split; [lra|]. intros [? ?]. lra.
    + cbn [fst]. split; [|done].
      assert (¬ (v < lo)%Q) by (intros Hlt; apply Qltb_lt in Hlt; congruence).
      assert (¬ (hi < v)%Q) by (intros Hlt; apply Qltb_lt in Hlt; congruence).
      lra.
Qed.

(** The boundary bounce puts the particle back inside.  For a box at least
    one unit wide and one unit high, [boundaryBounceBehavior] leaves the
    particle within the box, whatever its position was; a particle that is
    within the box already is not changed at all; and no other particle
    is touched. *)
Theorem bounce_puts_inside (bounds : BoundingBox.t) (p : PId) (h : Heap) :
  (Vector3.x (BoundingBox.topBackLeft bounds) + 1
   <= Vector3.x (BoundingBox.bottomFrontRight bounds))%Q →
  (Vector3.y (BoundingBox.topBackLeft bounds) + 1
   <= Vector3.y (BoundingBox.bottomFrontRight bounds))%Q →
  (Vector3.z (BoundingBox.topBackLeft bounds)
   <= Vector3.z (BoundingBox.bottomFrontRight bounds))%Q →
  BoundingBox.containsVector bounds
    (Particle.position (particle (boundaryBounceBehavior bounds p h) p))
  = true
  ∧ (BoundingBox.containsVector bounds (Particle.position (particle h p))
     = true →
     particle (boundaryBounceBehavior bounds p h) p = particle h p)
  ∧ (∀ q, q ≠ p → particle (boundaryBounceBehavior bounds p h) q
                  = particle h q).
Proof.
  intros Hx Hy Hz. unfold boundaryBounceBehavior.
  split; [|split]; [| |by intros q Hq; rewrite upd_particle_other].
  - rewrite upd_particle_same.
    destruct (particle h p) as [[px py pz] [vx vy vz] ? ? ? ? ? ? ? ? ?].
    destruct bounds as [[lx ly lz] [hx hy hz]].
    cbn [Particle.position Particle.velocity Vector3.x Vector3.y Vector3.z
         BoundingBox.topBackLeft BoundingBox.bottomFrontRight] in *.
    destruct (bounce_axis lx hx 1 px vx) as [Bx _]; [lra|lra|].
    destruct (bounce_axis ly hy 1 py vy) as [By _]; [lra|lra|].
    cbv zeta in Bx, By.
    destruct (if ParticleSystem.Qltb px lx then _ else _) as [px' vx'].
    destruct (if ParticleSystem.Qltb py ly then _ else _) as [py' vy'].
    assert (Bz' : (lz <= fst (if ParticleSystem.Qltb pz lz
                              then (lz, (vz * -1)%Q)
                              else if ParticleSystem.Qltb hz pz
                                   then (hz, (vz * -1)%Q) else (pz, vz))
                   ∧ fst (if ParticleSystem.Qltb pz lz
                          then (lz, (vz * -1)%Q)
                          else if ParticleSystem.Qltb hz pz
                               then (hz, (vz * -1)%Q) else (pz, vz))
                     <= hz)%Q).
    { destruct (ParticleSystem.Qltb pz lz) eqn:E1; cbn [fst] in *; [lra|].
      destruct (ParticleSystem.Qltb hz pz) eqn:E2; cbn [fst] in *; [lra|].
      assert (¬ (pz < lz)%Q) by (intros Hlt; apply Qltb_lt in Hlt; congruence).
      assert (¬ (hz < pz)%Q) by (intros Hlt; apply Qltb_lt in Hlt; congruence).
      lra. }
    destruct (if ParticleSystem.Qltb pz lz then _ else _) as [pz' vz'].
    cbn [fst Particle.set_velocity Particle.set_position Particle.position]
      in *.
    unfold BoundingBox.containsVector. apply contains_spec.
    cbn [Vector3.x Vector3.y Vector3.z BoundingBox.topBackLeft
         BoundingBox.bottomFrontRight]. tauto.
  - intros Hin. rewrite upd_particle_same.
    destruct (particle h p) as [[px py pz] [vx vy vz] ? ? ? ? ? ? ? ? ?].
    destruct bounds as [[lx ly lz] [hx hy hz]].
    unfold BoundingBox.containsVector in Hin. apply contains_spec in Hin.
    cbn [Particle.position Particle.velocity Vector3.x Vector3.y Vector3.z
         BoundingBox.topBackLeft BoundingBox.bottomFrontRight] in *.
    destruct Hin as (Ix & Iy & Iz).
    destruct (bounce_axis lx hx 1 px vx) as [_ Ex]; [lra|lra|].
    destruct (bounce_axis ly hy 1 py vy) as [_ Ey]; [lra|lra|].
    cbv zeta in Ex, Ey. rewrite (Ex Ix), (Ey Iy).
    assert (Ez : (if ParticleSystem.Qltb pz lz
                  then (lz, (vz * -1)%Q)
                  else if ParticleSystem.Qltb hz pz
                       then (hz, (vz * -1)%Q) else (pz, vz)) = (pz, vz)).
    { destruct (ParticleSystem.Qltb pz lz) eqn:E1;
        [apply Qltb_lt in E1; lra|].
      destruct (ParticleSystem.Qltb hz pz) eqn:E2;
        [apply Qltb_lt in E2; lra|done]. }
    rewrite Ez. reflexivity.
Qed.

(** A particle at (12, 5) is put back into the 10 x 10 box. *)
Lemma bounce_puts_inside_witness :
  BoundingBox.containsVector (BoundingBox.new 10 10 0)
    (Particle.position
       (particle
          (boundaryBounceBehavior (BoundingBox.new 10 10 0) 0%nat
             (upd_particle 0%nat (Particle.set_position (Vector3.mk 12 5 0))
                           ParticleSystem.emptyHeap))
          0%nat))
  = true.
Proof.
  apply (bounce_puts_inside (BoundingBox.new 10 10 0) 0%nat
           (upd_particle 0%nat (Particle.set_position (Vector3.mk 12 5 0))
                         ParticleSystem.emptyHeap)).
  - discriminate.
  - discriminate.
  - discriminate.
Defined.

(** The attraction interaction acts on the attractor alone.
    [pointAttractionBehavior] changes the force accumulator of the
    attractor and nothing else: every neighbour, and every spring, is as
    it was, and so are the other fields of the attractor. *)
Theorem point_attraction_frame `{MathSqrt} (range strength : Q)
        (attractor : PId) (neighbors : list PId) (h : Heap) :
  (∀ q, q ≠ attractor →
        particle (Behaviours.pointAttractionBehavior range strength attractor
                                                     neighbors h) q
        = particle h q)
  ∧ spring (Behaviours.pointAttractionBehavior range strength attractor
                                               neighbors h)
    = spring h
  ∧ ∃ f, particle (Behaviours.pointAttractionBehavior range strength
                     attractor neighbors h) attractor
         = Particle.set_forces f (particle h attractor).
Proof.
  unfold Behaviours.pointAttractionBehavior.
  apply (forEach_invariant
           (fun h' =>
              (∀ q, q ≠ attractor → particle h' q = particle h q)
              ∧ spring h' = spring h
              ∧ ∃ f, particle h' attractor
                     = Particle.set_forces f (particle h attractor))).
  - intros n h1 _ (Hq & Hs & f & Hf). cbv zeta.
    destruct (ParticleSystem.Qltb _ _); [|by eauto].
    split; [|split; [done|]].
    + intros q Hne. rewrite upd_particle_other by done. by apply Hq.
    + rewrite upd_particle_same, Hf. unfold Particle.applyForce.
      cbn [Particle.staticBody Particle.set_forces].
      destruct (Particle.staticBody (particle h attractor)); eauto.
  - split; [done|]. split; [done|].
    exists (Particle.forces (particle h attractor)).
    by destruct (particle h attractor).
Qed.

(** ** Vec3.js *)

Lemma Qabs_sq (x : Q) : (Qabs x * Qabs x == x * x)%Q.
Proof.
  destruct (Qlt_le_dec x 0) as [Hx|Hx].
  - rewrite Qabs_neg by lra. lra.
  - rewrite Qabs_pos by lra. lra.
Qed.

Lemma sq_nonneg (q : Q) : (0 <= q * q)%Q.
Proof. destruct (Qlt_le_dec q 0); nra. Qed.

(** [fastLength] approximates the length in the plane from below by at
    most 5.9 % and from above by at most 2.7 %: its square lies between
    [0.941246^2] and [0.941246^2 + 0.41^2] times [x * x + y * y].  It is
    never negative and does not change when [x] and [y] are swapped. *)
Theorem fastLength_bounds (v : Vector3.t) :
  (0 <= Vec3.fastLength v)%Q
  ∧ ((941246 # 1000000) * (941246 # 1000000)
     * (Vector3.x v * Vector3.x v + Vector3.y v * Vector3.y v)
     <= Vec3.fastLength v * Vec3.fastLength v)%Q
  ∧ (Vec3.fastLength v * Vec3.fastLength v
     <= ((941246 # 1000000) * (941246 # 1000000) + (41 # 100) * (41 # 100))
        * (Vector3.x v * Vector3.x v + Vector3.y v * Vector3.y v))%Q
  ∧ (Vec3.fastLength (Vec3.swapXY v) == Vec3.fastLength v)%Q.
Proof.
  destruct v as [x y z]. unfold Vec3.fastLength, Vec3.swapXY.
  cbn [Vector3.x Vector3.y Vector3.z].
  pose proof (Qabs_nonneg x) as Hx. pose proof (Qabs_nonneg y) as Hy.
  rewrite <- (Qabs_sq x), <- (Qabs_sq y).
  set (a := Qabs x) in *. set (b := Qabs y) in *.
  destruct (ParticleSystem.Qltb b a) eqn:E1;
    destruct (ParticleSystem.Qltb a b) eqn:E2;
    try (apply Qltb_lt in E1); try (apply Qltb_lt in E2);
    try (assert (¬ (b < a)%Q)
           by (intros Hlt; apply Qltb_lt in Hlt; congruence));
    try (assert (¬ (a < b)%Q)
           by (intros Hlt; apply Qltb_lt in Hlt; congruence)).
  - lra.
  - pose proof (sq_nonneg ((41 # 100) * a - (941246 # 1000000) * b)).
    clearbody a b. repeat split; nra.
  - pose proof (sq_nonneg ((41 # 100) * b - (941246 # 1000000) * a)).
    clearbody a b. repeat split; nra.
  - assert (Eab : (a == b)%Q) by lra.
    pose proof (sq_nonneg ((41 # 100) * b - (941246 # 1000000) * a)).
    clearbody a b. repeat split; nra.
Qed.

(** ** The random number generator *)

Lemma toInt32_range (z : Z) : - 2 ^ 31 ≤ Random.toInt32 z < 2 ^ 31.
Proof.
  unfold Random.toInt32.
  pose proof (Z.mod_pos_bound (z + 2 ^ 31) (2 ^ 32) eq_refl). lia.
Qed.

Lemma toInt32_add_l (a b : Z) :
  Random.toInt32 (Random.toInt32 a + b) = Random.toInt32 (a + b).
Proof.
  unfold Random.toInt32. f_equal.
  replace ((a + 2 ^ 31) `mod` 2 ^ 32 - 2 ^ 31 + b + 2 ^ 31)
    with ((a + 2 ^ 31) `mod` 2 ^ 32 + b) by lia.
  rewrite Zplus_mod_idemp_l. f_equal. lia.
Qed.

Lemma toInt32_eq (a b : Z) :
  Random.toInt32 a = Random.toInt32 b → (2 ^ 32 | b - a).
Proof.
  unfold Random.toInt32. intros Heq.
  assert (Hm : (a + 2 ^ 31) `mod` 2 ^ 32 = (b + 2 ^ 31) `mod` 2 ^ 32) by lia.
  apply Z.mod_divide; [done|].
  replace (b - a) with ((b + 2 ^ 31) - (a + 2 ^ 31)) by lia.
  rewrite Zminus_mod, Hm, Z.sub_diag. reflexivity.
Qed.

Lemma prng_seed (seed : Z) :
  fst (Random.prng seed) = Random.toInt32 (seed + 1831565813).
Proof. unfold Random.prng. cbn [fst]. apply toInt32_add_l. Qed.

Lemma prng_value (seed : Z) :
  (0 <= snd (Random.prng seed) ∧ snd (Random.prng seed) < 1)%Q.
Proof.
  unfold Random.prng. cbn [snd]. set (t := Z.lxor _ _).
  unfold Random.toUint32.
  pose proof (Z.mod_pos_bound t (2 ^ 32) eq_refl) as [H0 H1].
  split.
  - apply Qle_shift_div_l; [reflexivity|]. rewrite Qmult_0_l.
    change 0%Q with (inject_Z 0). by rewrite <- Zle_Qle.
  - apply Qlt_shift_div_r; [reflexivity|]. rewrite Qmult_1_l.
    by rewrite <- Zlt_Qlt.
Qed.

Lemma prng_calls_S (n : nat) (seed : Z) :
  Random.prng_calls (S n) seed
  = (fst (Random.prng_calls n (fst (Random.prng seed))),
     snd (Random.prng seed)
     :: snd (Random.prng_calls n (fst (Random.prng seed)))).
Proof.
  cbn [Random.prng_calls]. destruct (Random.prng seed) as [s1 v].
  cbn [fst snd]. by destruct (Random.prng_calls n s1).
Qed.

Lemma prng_calls_spec (n : nat) (seed : Z) :
  fst (Random.prng_calls (S n) seed)
  = Random.toInt32 (seed + Z.of_nat (S n) * 1831565813)
  ∧ length (snd (Random.prng_calls n seed)) = n
  ∧ Forall (fun v => (0 <= v ∧ v < 1)%Q) (snd (Random.prng_calls n seed)).
Proof.
  revert seed. induction n as [|n IH]; intros seed.
  - rewrite prng_calls_S. cbn [Random.prng_calls fst snd].
    split; [|split; [done|constructor]]. rewrite prng_seed. f_equal; lia.
  - destruct (IH (fst (Random.prng seed))) as (Hs & Hlen & Hall).
    split; [|split].
    + rewrite (prng_calls_S (S n) seed). cbn [fst].
      rewrite Hs, prng_seed, toInt32_add_l. f_equal; lia.
    + rewrite (prng_calls_S n seed). cbn [snd length]. by rewrite Hlen.
    + rewrite (prng_calls_S n seed). cbn [snd].
      constructor; [apply prng_value|done].
Qed.

(** The generator of [prng(seed)].  Every number it returns lies in
    [0, 1).  The captured seed is a 32-bit counter that advances by
    [0x6d2b79f5] at each call, so after [n] calls it is the seed plus
    [n * 0x6d2b79f5] wrapped to 32 bits, and because the increment is odd
    the seed does not come back to a value it had within [2^32] calls. *)
Theorem prng_counter (seed : Z) (n : nat) :
  (0 <= snd (Random.prng seed) ∧ snd (Random.prng seed) < 1)%Q
  ∧ fst (Random.prng_calls (S n) seed)
    = Random.toInt32 (seed + Z.of_nat (S n) * 1831565813)
  ∧ - 2 ^ 31 ≤ fst (Random.prng_calls (S n) seed) < 2 ^ 31
  ∧ length (snd (Random.prng_calls n seed)) = n
  ∧ Forall (fun v => (0 <= v ∧ v < 1)%Q) (snd (Random.prng_calls n seed))
  ∧ ∀ m : nat, (n < m)%nat → Z.of_nat m - Z.of_nat n < 2 ^ 32 →
               fst (Random.prng_calls (S n) seed)
               ≠ fst (Random.prng_calls (S m) seed).
Proof.
  destruct (prng_calls_spec n seed) as (Hs & Hlen & Hall).
  split; [apply prng_value|]. split; [done|].
  split; [rewrite Hs; apply toInt32_range|]. split; [done|]. split; [done|].
  intros m Hnm Hlt.
  destruct (prng_calls_spec m seed) as (Hm & _ & _).
  rewrite Hs, Hm. intros Heq. apply toInt32_eq in Heq.
  replace (seed + Z.of_nat (S m) * 1831565813
           - (seed + Z.of_nat (S n) * 1831565813))
    with (1831565813 * (Z.of_nat m - Z.of_nat n)) in Heq by lia.
  apply Z.gauss in Heq; [|reflexivity].
  apply Z.divide_pos_le in Heq; lia.
Qed.

(** ** Connections *)

Lemma findConnection_Some (h : Heap) (p q : PId) (s : SId) :
  findConnection h p q = Some s →
  s ∈ Particle.connections (particle h p) ∧ Spring.other h s p = Some q.
Proof.
  unfold findConnection. intros Hf.
  destruct (list_find _ _) as [[i x]|] eqn:E; [|done].
  cbn in Hf. injection Hf as ->.
  apply list_find_Some in E as (Hi & Hx & _).
  split; [by eapply list_elem_of_lookup_2|done].
Qed.

Lemma findConnection_None (h : Heap) (p q : PId) :
  findConnection h p q = None
  ↔ ∀ s, s ∈ Particle.connections (particle h p) →
         Spring.other h s p ≠ Some q.
Proof.
  unfold findConnection. split.
  - intros Hf s Hs.
    destruct (list_find _ _) as [[i x]|] eqn:E; [done|].
    apply list_find_None in E.
    by apply (proj1 (list.Forall_forall _ _) E).
  - intros Hall.
    destruct (list_find _ _) as [[i x]|] eqn:E; [|done].
    apply list_find_Some in E as (Hi & Hx & _).
    exfalso. apply (Hall x); [by eapply list_elem_of_lookup_2|done].
Qed.

(** [other] is an involution on the endpoints of a spring, and
    [findConnection] finds what [createSpring] connected.
    [findConnection(q)] returns a spring of the connection list of the
    particle whose other endpoint is [q], and nothing exactly when the
    list holds no such spring.  After [createSpring(a, b, ...)] between two
    distinct particles that were not connected yet, each endpoint finds
    the new spring when asked for the other. *)
Theorem findConnection_createSpring (a b : PId) (restLength k : Q)
        (s : ParticleSystem.t) :
  (∀ h sp p q, Spring.other h sp p = Some q → Spring.other h sp q = Some p)
  ∧ (∀ h p q sp, findConnection h p q = Some sp →
                 sp ∈ Particle.connections (particle h p)
                 ∧ Spring.other h sp p = Some q)
  ∧ (∀ h p q, findConnection h p q = None
              ↔ ∀ sp, sp ∈ Particle.connections (particle h p) →
                      Spring.other h sp p ≠ Some q)
  ∧ (a ≠ b →
     findConnection (ParticleSystem.heap s) a b = None →
     findConnection (ParticleSystem.heap s) b a = None →
     let sp := fst (ParticleSystem.createSpring a b restLength k s) in
     let h' := ParticleSystem.heap
                 (snd (ParticleSystem.createSpring a b restLength k s)) in
     findConnection h' a b = Some sp ∧ findConnection h' b a = Some sp).
Proof.
  split; [|split; [|split]].
  - intros h sp p q. unfold Spring.other.
    repeat (destruct (decide _)); intros [= <-]; congruence.
  - intros h p q sp. apply findConnection_Some.
  - intros h p q. apply findConnection_None.
  - intros Hab Ha Hb sp h'.
    set (h := ParticleSystem.heap s) in *.
    assert (Hsp : sp = ParticleSystem.nextSpring s) by reflexivity.
    assert (Hother : ∀ c p,
              Spring.other h' c p
              = if decide (c = sp)
                then (if decide (a = p) then Some b
                      else if decide (b = p) then Some a else None)
                else Spring.other h c p).
    { intros c p. subst h'. unfold Spring.other.
      cbn [ParticleSystem.createSpring snd ParticleSystem.heap].
      unfold upd_particle. cbn [spring]. fold sp.
      destruct (decide (c = sp)) as [->|Hc].
      - rewrite Hsp, fn_lookup_insert. reflexivity.
      - rewrite fn_lookup_insert_ne by (rewrite <- Hsp; done). reflexivity. }
    assert (Hconn : ∀ p,
              Particle.connections (particle h' p)
              = Particle.connections (particle h p)
                ++ (if decide (p = a) then [sp] else [])
                ++ (if decide (p = b) then [sp] else [])).
    { intros p. subst h'.
      cbn [ParticleSystem.createSpring snd ParticleSystem.heap]. fold sp.
      unfold upd_particle. cbn [particle].
      destruct (decide (p = b)) as [->|Hpb].
      - rewrite fn_lookup_insert, fn_lookup_insert_ne by done.
        rewrite decide_False by done. by cbn.
      - rewrite fn_lookup_insert_ne by done.
        destruct (decide (p = a)) as [->|Hpa].
        + rewrite fn_lookup_insert. by cbn.
        + rewrite fn_lookup_insert_ne by done. cbn. by rewrite app_nil_r. }
    assert (Hfind : ∀ p q, (p = a ∧ q = b) ∨ (p = b ∧ q = a) →
              findConnection h p q = None →
              findConnection h' p q = Some sp).
    { intros p q Hpq Hnone.
      destruct (findConnection h' p q) as [c|] eqn:E.
      - apply findConnection_Some in E as [Hin Ho]. f_equal.
        rewrite Hother in Ho. destruct (decide (c = sp)); [done|].
        exfalso. rewrite Hconn in Hin.
        apply (proj1 (findConnection_None h p q) Hnone c); [|done].
        rewrite !elem_of_app in Hin. destruct Hin as [?|[Hin|Hin]]; [done| |].
        + destruct (decide (p = a)); [|by apply elem_of_nil in Hin].
          by apply list_elem_of_singleton in Hin.
        + destruct (decide (p = b)); [|by apply elem_of_nil in Hin].
          by apply list_elem_of_singleton in Hin.
      - exfalso.
        apply (proj1 (findConnection_None h' p q) E sp).
        + rewrite Hconn, !elem_of_app.
          destruct Hpq as [[-> ->]|[-> ->]].
          * right. left. rewrite decide_True by done. apply list_elem_of_here.
          * right. right. rewrite decide_True by done. apply list_elem_of_here.
        + rewrite Hother, decide_True by done.
          destruct Hpq as [[-> ->]|[-> ->]].
          * by rewrite decide_True.
          * rewrite decide_False by done. by rewrite decide_True. }
    split; apply Hfind; auto.
Qed.

(** ** Tags and queries *)

Lemma query_or_single (i : TagIndex.t) (tag : Tag) :
  TagIndex.query i (orFilter [tag]) = Ok (tagged i tag).
Proof.
  unfold TagIndex.query, forEach. cbn [f_and f_or orFilter].
  rewrite fold_or_concat. cbn. by rewrite app_nil_r.
Qed.

Lemma addTag_tagged_in (p : PId) (tag : Tag) (i : TagIndex.t) :
  p ∈ tagged (TagIndex.addTag p tag i) tag.
Proof.
  rewrite addTag_tagged, decide_True by done.
  destruct (decide (p ∈ tagged i tag)); [done|].
  apply elem_of_app. right. apply list_elem_of_here.
Qed.

Lemma removeTag_tagged_out (p : PId) (tag : Tag) (i : TagIndex.t) :
  tags_nodup i → p ∉ tagged (TagIndex.removeTag p tag i) tag.
Proof.
  intros Hi. rewrite removeTag_tagged, decide_True by done.
  apply not_elem_of_spliceOut. unfold tagged.
  destruct (TagIndex.tagIndex i !! tag) eqn:E; cbn;
    [by eapply Hi|constructor].
Qed.

Lemma visited_own_cell (g : SpatialGrid.t) (pos : Vector3.t) :
  SpatialGrid.hashPosition g pos ≠ -1 →
  SpatialGrid.visited g (Qfloor (Vector3.x pos / SpatialGrid.cellSize g))
                      (Qfloor (Vector3.y pos / SpatialGrid.cellSize g)) 0
  = [SpatialGrid.hashPosition g pos].
Proof.
  unfold SpatialGrid.hashPosition, SpatialGrid.visited.
  set (X := Qfloor _). set (Y := Qfloor _).
  destruct ((X <? 0) || (SpatialGrid.cols g <=? X) || (Y <? 0)
            || (SpatialGrid.rows g <=? Y)) eqn:E; [done|]. intros _.
  rewrite !orb_false_iff in E. destruct E as [[[E1 E2] E3] E4].
  replace (X - 0) with X by lia. replace (Y - 0) with Y by lia.
  change (2 * 0 + 1) with 1. change (seqZ X 1) with [X].
  change (seqZ Y 1) with [Y]. cbn [mbind list_bind concat map app].
  replace ((0 <=? X) && (X <? SpatialGrid.cols g) && (0 <=? Y)
           && (Y <? SpatialGrid.rows g)) with true.
  - cbn. f_equal. lia.
  - symmetry. rewrite !andb_true_iff. repeat split; lia.
Qed.

(** A tag change shows in the queries at once.  For a particle of the
    system, [particle.addTag(tag)] makes the queries filtered by
    [{or: [tag]}] return the particle: the global one, and the spatial one
    at the position of the particle with radius 0 when the position
    hashes to a cell; this holds whether or not the particle has been
    committed to the grid.  [particle.removeTag(tag)] takes the particle
    out of the result of the global query and out of its own tag set. *)
Theorem tag_changes_are_visible (s : ParticleSystem.t) (p : PId) (tag : Tag) :
  Particle.system (particle (ParticleSystem.heap s) p) = true →
  length (SpatialGrid.cells (ParticleSystem.grid s))
  = Z.to_nat (SpatialGrid.rows (ParticleSystem.grid s)
              * SpatialGrid.cols (ParticleSystem.grid s)) →
  ((∃ r, ParticleSystem.query (ParticleSystem.particle_addTag p tag s)
           (mkQuery (orFilter [tag]) None) = Ok r
         ∧ p ∈ r)
   ∧ (cellOf (ParticleSystem.grid s) (ParticleSystem.heap s) p ≠ -1 →
      ∃ r, ParticleSystem.query (ParticleSystem.particle_addTag p tag s)
             (mkQuery (orFilter [tag])
                (Some (mkPosition
                         (Particle.position
                            (particle (ParticleSystem.heap s) p)) 0)))
           = Ok r
           ∧ p ∈ r)
   ∧ tag ∈ Particle.tags
             (particle (ParticleSystem.heap
                          (ParticleSystem.particle_addTag p tag s)) p))
  ∧ (tags_nodup (SpatialGrid.globalTagIndex (ParticleSystem.grid s)) →
     (∃ r, ParticleSystem.query (ParticleSystem.particle_removeTag p tag s)
             (mkQuery (orFilter [tag]) None) = Ok r
           ∧ p ∉ r)
     ∧ tag ∉ Particle.tags
               (particle (ParticleSystem.heap
                            (ParticleSystem.particle_removeTag p tag s)) p)).
Proof.
  intros Hsys Hlen. split.
  - unfold ParticleSystem.particle_addTag.
    set (tags' := if bool_decide _ then _ else _).
    assert (Htag : tag ∈ tags').
    { subst tags'. case_bool_decide; [done|].
      apply elem_of_app. right. apply list_elem_of_here. }
    set (h1 := upd_particle p (Particle.set_tags tags') (ParticleSystem.heap s)).
    cbn [ParticleSystem.heap ParticleSystem.set_heap].
    assert (Hs1 : Particle.system (particle h1 p) = true).
    { subst h1. rewrite (upd_particle_keeps Particle.system); done. }
    rewrite Hs1.
    assert (Hpos : Particle.position (particle h1 p)
                   = Particle.position (particle (ParticleSystem.heap s) p)).
    { subst h1. by rewrite (upd_particle_keeps Particle.position). }
    unfold ParticleSystem.query, ParticleSystem.addTag.
    cbn [ParticleSystem.grid ParticleSystem.set_grid ParticleSystem.set_heap
         ParticleSystem.heap].
    split; [|split].
    + unfold SpatialGrid.query, SpatialGrid.addTag.
      cbn [q_position q_tags SpatialGrid.globalTagIndex
           SpatialGrid.set_globalTagIndex].
      rewrite query_or_single. eexists. split; [reflexivity|].
      apply addTag_tagged_in.
    + unfold cellOf. intros Hcell.
      unfold SpatialGrid.query. cbn [q_position q_tags at_ radius].
      pose proof (grid_addTag_shape h1 p tag (ParticleSystem.grid s))
        as (_ & Hcs & Hr & Hc & Hl).
      rewrite Hcs.
      set (pos := Particle.position (particle (ParticleSystem.heap s) p))
        in *.
      assert (Hvis : SpatialGrid.visited
                       (SpatialGrid.addTag h1 p tag (ParticleSystem.grid s))
                       (Qfloor (Vector3.x pos
                                / SpatialGrid.cellSize (ParticleSystem.grid s)))
                       (Qfloor (Vector3.y pos
                                / SpatialGrid.cellSize (ParticleSystem.grid s)))
                       0
                     = [SpatialGrid.hashPosition (ParticleSystem.grid s) pos]).
      { rewrite <- (visited_own_cell (ParticleSystem.grid s) pos Hcell).
        unfold SpatialGrid.visited. by rewrite Hr, Hc. }
      rewrite Hvis. cbn [forEachM].
      destruct (hashPosition_range (ParticleSystem.grid s) pos)
        as [?|Hrange]; [done|].
      destruct (cells_lookup_ok _ _ Hlen Hrange) as [c Hc0].
      assert (Hcell' : nth_Z (SpatialGrid.cells
                                (SpatialGrid.addTag h1 p tag
                                   (ParticleSystem.grid s)))
                             (SpatialGrid.hashPosition (ParticleSystem.grid s)
                                                       pos)
                       = Some (TagIndex.addTag p tag c)).
      { unfold SpatialGrid.addTag. rewrite Hpos. fold pos. cbv zeta.
        replace ((0 <=? SpatialGrid.hashPosition (ParticleSystem.grid s) pos)
                 && (SpatialGrid.hashPosition (ParticleSystem.grid s) pos
                     <? Z.of_nat (length (SpatialGrid.cells
                                            (ParticleSystem.grid s)))))
          with true by (symmetry; rewrite andb_true_iff; split; lia).
        rewrite Hc0.
        cbn [SpatialGrid.cells SpatialGrid.set_globalTagIndex
             SpatialGrid.set_cell].
        apply nth_Z_Some. split; [lia|].
        apply list_lookup_insert_eq. lia. }
      rewrite Hcell', query_or_single, !bind_Ok_l.
      eexists. split; [reflexivity|]. apply addTag_tagged_in.
    + subst h1. by rewrite upd_particle_same.
  - intros Hnd. unfold ParticleSystem.particle_removeTag.
    set (tags' := filter _ _).
    assert (Htag : tag ∉ tags').
    { subst tags'. intros Hin. apply list_elem_of_filter in Hin as [Hne _].
      done. }
    set (h1 := upd_particle p (Particle.set_tags tags') (ParticleSystem.heap s)).
    cbn [ParticleSystem.heap ParticleSystem.set_heap].
    assert (Hs1 : Particle.system (particle h1 p) = true).
    { subst h1. rewrite (upd_particle_keeps Particle.system); done. }
    rewrite Hs1.
    unfold ParticleSystem.query, ParticleSystem.removeTag.
    cbn [ParticleSystem.grid ParticleSystem.set_grid ParticleSystem.set_heap
         ParticleSystem.heap].
    split.
    + unfold SpatialGrid.query, SpatialGrid.removeTag.
      cbn [q_position q_tags SpatialGrid.globalTagIndex
           SpatialGrid.set_globalTagIndex].
      rewrite query_or_single. eexists. split; [reflexivity|].
      apply removeTag_tagged_out.
      by destruct (_ && _); [destruct (nth_Z _ _)|].
    + subst h1. by rewrite upd_particle_same.
Qed.

(** The particle queued on [created200] is found by its tag as soon as it
    is tagged. *)
Lemma tag_changes_are_visible_witness :
  ∃ r, ParticleSystem.query
         (ParticleSystem.particle_addTag 0%nat "plant" created200)
         (mkQuery (orFilter ["plant"]) None) = Ok r
       ∧ 0%nat ∈ r.
Proof.
  destruct (tag_changes_are_visible created200 0%nat "plant")
    as [[Hq _] _].
  - vm_compute. reflexivity.
  - vm_compute. reflexivity.
  - exact Hq.
Defined.

(** ** Colours *)

Lemma toInt32_small (z : Z) : - 2 ^ 31 ≤ z < 2 ^ 31 → Random.toInt32 z = z.
Proof.
  intros Hz. unfold Random.toInt32. rewrite Z.mod_small; lia.
Qed.

Lemma land_255 (z : Z) : Z.land z 255 = z `mod` 256.
Proof. change 255 with (Z.ones 8). by rewrite Z.land_ones. Qed.

Lemma channel_range (c shift : Z) : 0 ≤ Utils.channel c shift < 256.
Proof.
  unfold Utils.channel. rewrite land_255.
  apply Z.mod_pos_bound. lia.
Qed.

Lemma low_channel_range (c : Z) : 0 ≤ Z.land (Random.toInt32 c) 255 < 256.
Proof. rewrite land_255. apply Z.mod_pos_bound. lia. Qed.

(** An or of two numbers with no common bit is their sum. *)
Lemma lor_disjoint (a b k : Z) :
  0 ≤ k → 0 ≤ b < 2 ^ k → Z.lor (a * 2 ^ k) b = a * 2 ^ k + b.
Proof.
  intros Hk Hb.
  assert (Hland : Z.land (a * 2 ^ k) b = 0).
  { rewrite <- Z.shiftl_mul_pow2 by lia.
    apply Z.bits_inj'. intros n Hn.
    rewrite Z.land_spec, Z.bits_0.
    destruct (Z.ltb_spec n k).
    - by rewrite Z.shiftl_spec_low by lia.
    - destruct (decide (b = 0)) as [->|];
        [by rewrite Z.bits_0, andb_false_r|].
      rewrite (Z.bits_above_log2 b n); [apply andb_false_r|lia|].
      apply Z.log2_lt_pow2; [lia|].
      apply Z.lt_le_trans with (2 ^ k); [lia|].
      apply Z.pow_le_mono_r; lia. }
  rewrite <- Z.lxor_lor by done. symmetry. by apply Z.add_nocarry_lxor.
Qed.

(** Three bytes packed into a colour: the arithmetic of the shifts and
    ors. *)
Lemma pack_bytes (r g b : Z) :
  0 ≤ r < 256 → 0 ≤ g < 256 → 0 ≤ b < 256 →
  Utils.pack r g b = r * 65536 + g * 256 + b.
Proof.
  intros Hr Hg Hb. unfold Utils.pack.
  rewrite (toInt32_small r), (toInt32_small g), (toInt32_small b) by lia.
  rewrite !Z.shiftl_mul_pow2 by lia.
  rewrite !toInt32_small by lia.
  rewrite <- Z.lor_assoc.
  rewrite (lor_disjoint g b 8) by lia.
  rewrite (lor_disjoint r (g * 2 ^ 8 + b) 16) by lia.
  lia.
Qed.

(** The channels of a 24-bit colour are its base-256 digits. *)
Lemma channels_digits (c : Z) :
  0 ≤ c < 2 ^ 24 →
  Utils.channel c 16 * 65536 + Utils.channel c 8 * 256
  + Z.land (Random.toInt32 c) 255 = c.
Proof.
  intros Hc. unfold Utils.channel.
  rewrite (toInt32_small c) by lia.
  rewrite !land_255, !Z.shiftr_div_pow2 by lia.
  change (2 ^ 16) with 65536. change (2 ^ 8) with 256.
  assert (c / 65536 < 256) by (apply Z.div_lt_upper_bound; lia).
  assert (0 ≤ c / 65536) by (apply Z.div_pos; lia).
  rewrite (Z.mod_small (c / 65536)) by lia.
  pose proof (Z.div_mod c 256 ltac:(lia)) as H1.
  pose proof (Z.div_mod (c / 256) 256 ltac:(lia)) as H2.
  rewrite Z.div_div in H2 by lia. change (256 * 256) with 65536 in H2.
  lia.
Qed.

Lemma round_exact (q : Q) (z : Z) :
  (q == inject_Z z)%Q → Utils.Math_round q = z.
Proof.
  intros E. unfold Utils.Math_round. rewrite E.
  unfold Qfloor, Qplus, inject_Z. cbn.
  rewrite Z.mul_1_r. 
  assert (H : (z * 2 + 1) = 1 + z * 2) by lia. rewrite H.
  rewrite Z.div_add by lia. done.
Qed.

Lemma round_range (q : Q) (lo hi : Z) :
  (inject_Z lo <= q)%Q → (q <= inject_Z hi)%Q →
  lo ≤ Utils.Math_round q ≤ hi.
Proof.
  intros Hlo Hhi. unfold Utils.Math_round. split.
  - rewrite <- (Qfloor_Z lo). apply Qfloor_resp_le. lra.
  - assert (H : Qfloor (q + (1 # 2)) ≤ Qfloor (inject_Z hi + (1 # 2))).
    { apply Qfloor_resp_le. lra. }
    change (Qfloor (inject_Z hi + (1 # 2)))
      with (Utils.Math_round (inject_Z hi)) in H.
    by rewrite (round_exact _ hi) in H.
Qed.

Lemma clampValue_unit (a : Q) :
  let c := Utils.clampValue a 0 1 in
  (0 <= c)%Q ∧ (c <= 1)%Q
  ∧ ((a <= 0)%Q → (c == 0)%Q) ∧ ((1 <= a)%Q → (c == 1)%Q).
Proof.
  unfold Utils.clampValue, BoundingBox.Qmin, BoundingBox.Qmax.
  destruct (Qlt_le_dec a 0); destruct (Qlt_le_dec 1 _);
    repeat split; intros; try lra.
Qed.

(** One interpolated channel. *)
Lemma lerp_channel (x1 x2 : Z) (c : Q) :
  0 ≤ x1 < 256 → 0 ≤ x2 < 256 → (0 <= c)%Q → (c <= 1)%Q →
  let x := Utils.Math_round
             (inject_Z x1 + (inject_Z x2 - inject_Z x1) * c) in
  x1 `min` x2 ≤ x ≤ x1 `max` x2
  ∧ ((c == 0)%Q → x = x1) ∧ ((c == 1)%Q → x = x2).
Proof.
  intros H1 H2 Hc0 Hc1 x. subst x. split; [|split].
  - assert (Hq1 : (inject_Z 0 <= inject_Z x1)%Q) by (rewrite <- Zle_Qle; lia).
    assert (Hq2 : (inject_Z 0 <= inject_Z x2)%Q) by (rewrite <- Zle_Qle; lia).
    destruct (Z.le_ge_cases x1 x2) as [Hle|Hle].
    + rewrite Z.min_l, Z.max_r by done.
      rewrite Zle_Qle in Hle. apply round_range; nra.
    + rewrite Z.min_r, Z.max_l by done.
      rewrite Zle_Qle in Hle. apply round_range; nra.
  - intros E. apply round_exact. rewrite E. ring.
  - intros E. apply round_exact. rewrite E. ring.
Qed.

Lemma channel_0 (c : Z) :
  Utils.channel c 0 = Z.land (Random.toInt32 c) 255.
Proof. unfold Utils.channel. by rewrite Z.shiftr_0_r. Qed.

(** The channels of three packed bytes. *)
Lemma channel_bytes (r g b : Z) :
  0 ≤ r < 256 → 0 ≤ g < 256 → 0 ≤ b < 256 →
  let c := r * 65536 + g * 256 + b in
  Utils.channel c 16 = r ∧ Utils.channel c 8 = g ∧ Utils.channel c 0 = b.
Proof.
  intros Hr Hg Hb c. subst c. unfold Utils.channel.
  rewrite toInt32_small by lia.
  rewrite !land_255, !Z.shiftr_div_pow2, Z.pow_0_r, Z.div_1_r by lia.
  change (2 ^ 16) with 65536. change (2 ^ 8) with 256.
  repeat split.
  - replace (r * 65536 + g * 256 + b) with (g * 256 + b + r * 65536) by lia.
    rewrite Z.div_add, (Z.div_small (g * 256 + b)) by lia.
    rewrite Z.mod_small; lia.
  - replace (r * 65536 + g * 256 + b) with (b + (r * 256 + g) * 256) by lia.
    rewrite Z.div_add, (Z.div_small b) by lia.
    replace (0 + (r * 256 + g)) with (g + r * 256) by lia.
    rewrite Z.mod_add by lia. rewrite Z.mod_small; lia.
  - replace (r * 65536 + g * 256 + b) with (b + (r * 256 + g) * 256) by lia.
    rewrite Z.mod_add by lia. rewrite Z.mod_small; lia.
Qed.

(** [lerpHexColors] on 24-bit colours: the result is a 24-bit colour
    whose three channels each lie between the channels of the two inputs;
    an amount of 0 or less gives the first colour and an amount of 1 or
    more the second. *)
Theorem lerpHexColors_between (hexColor1 hexColor2 : Z) (amount : Q) :
  0 ≤ hexColor1 < 2 ^ 24 → 0 ≤ hexColor2 < 2 ^ 24 →
  let c := Utils.lerpHexColors hexColor1 hexColor2 amount in
  0 ≤ c < 2 ^ 24
  ∧ (∀ shift, shift = 16 ∨ shift = 8 ∨ shift = 0 →
       Utils.channel hexColor1 shift `min` Utils.channel hexColor2 shift
       ≤ Utils.channel c shift
       ≤ Utils.channel hexColor1 shift `max` Utils.channel hexColor2 shift)
  ∧ ((amount <= 0)%Q → c = hexColor1)
  ∧ ((1 <= amount)%Q → c = hexColor2).
Proof.
  intros H1 H2 c. subst c. unfold Utils.lerpHexColors.
  destruct (clampValue_unit amount) as (Ha0 & Ha1 & Hlo & Hhi).
  set (a := Utils.clampValue amount 0 1) in *.
  rewrite <- !channel_0.
  pose proof (channel_range hexColor1 16) as R1.
  pose proof (channel_range hexColor1 8) as G1.
  pose proof (channel_range hexColor1 0) as B1.
  pose proof (channel_range hexColor2 16) as R2.
  pose proof (channel_range hexColor2 8) as G2.
  pose proof (channel_range hexColor2 0) as B2.
  destruct (lerp_channel _ _ a R1 R2 Ha0 Ha1) as (Rr & Rr0 & Rr1).
  destruct (lerp_channel _ _ a G1 G2 Ha0 Ha1) as (Rg & Rg0 & Rg1).
  destruct (lerp_channel _ _ a B1 B2 Ha0 Ha1) as (Rb & Rb0 & Rb1).
  cbv zeta in *.
  set (r := Utils.Math_round (inject_Z (Utils.channel hexColor1 16) + _)) in *.
  set (g := Utils.Math_round (inject_Z (Utils.channel hexColor1 8) + _)) in *.
  set (b := Utils.Math_round (inject_Z (Utils.channel hexColor1 0) + _)) in *.
  assert (Hr : 0 ≤ r < 256) by lia.
  assert (Hg : 0 ≤ g < 256) by lia.
  assert (Hb : 0 ≤ b < 256) by lia.
  rewrite (pack_bytes r g b Hr Hg Hb).
  destruct (channel_bytes r g b Hr Hg Hb) as (Cr & Cg & Cb).
  cbv zeta in *.
  pose proof (channels_digits hexColor1 H1) as D1.
  pose proof (channels_digits hexColor2 H2) as D2.
  rewrite <- channel_0 in D1, D2.
  split; [lia|]. split; [|split].
  - intros shift [->|[->| ->]].
    + by rewrite Cr.
    + by rewrite Cg.
    + by rewrite Cb.
  - intros Hle. rewrite (Rr0 (Hlo Hle)), (Rg0 (Hlo Hle)), (Rb0 (Hlo Hle)).
    exact D1.
  - intros Hge. rewrite (Rr1 (Hhi Hge)), (Rg1 (Hhi Hge)), (Rb1 (Hhi Hge)).
    exact D2.
Qed.

Lemma lerpHexColors_between_witness :
  Utils.lerpHexColors 16711680 255 (1 # 2) = 8388736
  ∧ 0 ≤ Utils.lerpHexColors 16711680 255 (1 # 2) < 2 ^ 24.
Proof.
  split; [vm_compute; reflexivity|].
  apply (lerpHexColors_between 16711680 255 (1 # 2)); lia.
Defined.
